(** * pyro2: cell-centered multigrid and the incompressible time stepper

    A shallow embedding of [multigrid/multigrid.py] (class [ccMG2d]) and of
    [incompressible/simulation.py] (class [Simulation]), followed by the
    properties of the two that the specification states.

    Layout: the definitions come first, grouped in modules that follow the
    Python modules ([Float], [Py], [NP], [Patch], [Multigrid],
    [Incompressible]) and a module [Spec] that holds the cell-by-cell reading
    of the specification; the lemmas and theorems follow. *)

From Stdlib Require Import ZArith QArith Qcanon Field Lia.
From stdpp Require Import base numbers list strings.

Local Open Scope Z_scope.

(** ** Floating-point values

    A [float64] is idealised: a finite value is an exact rational (no
    rounding, overflow, underflow or signed zero), and the three special
    values behave as in IEEE 754. *)
Module Float.

Inductive float : Type :=
| Fin (q : Qc)
| PInf
| NInf
| NaN.

Definition of_Z (n : Z) : float := Fin (Qc_of_Z n).
Definition dec (n : Z) (d : positive) : float := Fin (Q2Qc (n # d)).

Definition zero : float := of_Z 0.
Definition two : float := of_Z 2.            (* the literal 2.0 *)
Definition half : float := dec 1 2.          (* the literal 0.5 *)
Definition m0125 : float := dec (-1) 8.      (* the literal -0.125 *)

(** Sign of a value; [None] for NaN. *)
Definition sign (x : float) : option comparison :=
  match x with
  | Fin q => Some (q ?= 0)%Qc
  | PInf => Some Gt
  | NInf => Some Lt
  | NaN => None
  end.

Definition inf_of (c : comparison) : float :=
  match c with Gt => PInf | Lt => NInf | Eq => NaN end.

Definition sign_mul (a b : comparison) : comparison :=
  match a, b with
  | Eq, _ | _, Eq => Eq
  | Gt, c | c, Gt => c
  | Lt, Lt => Gt
  end.

Definition fneg (x : float) : float :=
  match x with
  | Fin q => Fin (- q)%Qc
  | PInf => NInf
  | NInf => PInf
  | NaN => NaN
  end.

Definition fabs (x : float) : float :=
  match x with
  | Fin q => Fin (if decide (q < 0)%Qc then (- q)%Qc else q)
  | PInf | NInf => PInf
  | NaN => NaN
  end.

Definition fadd (x y : float) : float :=
  match x, y with
  | NaN, _ | _, NaN => NaN
  | Fin a, Fin b => Fin (a + b)%Qc
  | PInf, NInf | NInf, PInf => NaN
  | PInf, _ | _, PInf => PInf
  | NInf, _ | _, NInf => NInf
  end.

Definition fsub (x y : float) : float := fadd x (fneg y).

Definition fmul (x y : float) : float :=
  match x, y with
  | Fin a, Fin b => Fin (a * b)%Qc
  | _, _ =>
      match sign x, sign y with
      | Some a, Some b => inf_of (sign_mul a b)
      | _, _ => NaN
      end
  end.

(** Division of numpy scalars and arrays: a zero divisor gives an infinity
    or NaN, never an exception. *)
Definition fdiv (x y : float) : float :=
  match x, y with
  | NaN, _ | _, NaN => NaN
  | Fin a, Fin b =>
      if decide (b = 0)%Qc then inf_of (a ?= 0)%Qc else Fin (a / b)%Qc
  | Fin _, _ => zero
  | _, Fin b => match (b ?= 0)%Qc with Lt => fneg x | _ => x end
  | _, _ => NaN
  end.

Definition fltb (x y : float) : bool :=
  match x, y with
  | NaN, _ | _, NaN => false
  | Fin a, Fin b => bool_decide (a < b)%Qc
  | NInf, NInf | PInf, _ => false
  | NInf, _ | _, PInf => true
  | Fin _, NInf => false
  end.

Definition feqb (x y : float) : bool :=
  match x, y with
  | Fin a, Fin b => bool_decide (a = b)
  | PInf, PInf | NInf, NInf => true
  | _, _ => false
  end.

(** [x != y]. *)
Definition fneb (x y : float) : bool := negb (feqb x y).

Definition is_nan (x : float) : bool :=
  match x with NaN => true | _ => false end.

(** Python's builtin [min(x, y)]: the second argument wins only when it
    compares smaller. *)
Definition pymin (x y : float) : float := if fltb y x then y else x.

(** One step of numpy's [ndarray.min]: a NaN on either side is kept. *)
Definition npmin (x y : float) : float :=
  if is_nan x then NaN else if is_nan y then NaN else pymin x y.

Definition is_fin (x : float) : Prop :=
  match x with Fin _ => True | _ => False end.

End Float.

(** ** Python control: exceptions and the state of [self] *)
Module Py.

Inductive exn : Type :=
| NameError (name : string)
| UnboundLocalError (name : string)
| TypeError (msg : string)
| ValueError (msg : string)
| IndexError (msg : string)
| AttributeError (msg : string)
| ZeroDivisionError.

Inductive outcome (A : Type) : Type :=
| Ok (a : A)
| Raise (e : exn).
Arguments Ok {A} a.
Arguments Raise {A} e.

(** A method body: it reads and updates the state [S] of its object and
    either returns a value or raises; the state reached so far survives the
    exception, as the mutations of a Python object do. *)
Definition M (S A : Type) : Type := S -> outcome A * S.

Definition ret {S A} (a : A) : M S A := fun s => (Ok a, s).
Definition raise {S A} (e : exn) : M S A := fun s => (Raise e, s).
Definition bind {S A B} (m : M S A) (k : A -> M S B) : M S B :=
  fun s => match m s with
           | (Ok a, s') => k a s'
           | (Raise e, s') => (Raise e, s')
           end.
Definition get {S} : M S S := fun s => (Ok s, s).
Definition gets {S A} (f : S -> A) : M S A := fun s => (Ok (f s), s).
Definition modify {S} (f : S -> S) : M S unit := fun s => (Ok tt, f s).
Definition lift {S A} (o : outcome A) : M S A := fun s => (o, s).

Definition obind {A B} (o : outcome A) (k : A -> outcome B) : outcome B :=
  match o with Ok a => k a | Raise e => Raise e end.

(** Python float division [x / y] of two scalars. *)
Definition pydiv (x y : Float.float) : outcome Float.float :=
  if Float.feqb y Float.zero then Raise ZeroDivisionError
  else Ok (Float.fdiv x y).

(** Truth value of an int used as a flag. *)
Definition truthy (z : Z) : bool := negb (z =? 0).

(** [i = 0; while i < n: body; i += 1], the body not using [i]. *)
Fixpoint repeat_n {S} (n : nat) (body : M S unit) : M S unit :=
  match n with
  | O => ret tt
  | Datatypes.S n' => bind body (fun _ => repeat_n n' body)
  end.

Definition when {S} (b : bool) (m : M S unit) : M S unit :=
  if b then m else ret tt.

End Py.

Declare Scope py_scope.
Delimit Scope py_scope with py.
Notation "'do' x <- m ; k" := (Py.bind m (fun x => k))
  (at level 10, x name, m at level 100, k at level 200,
   format "'[v' 'do'  x  <-  m ; '/' k ']'") : py_scope.
Notation "m ;; k" := (Py.bind m (fun _ => k))
  (at level 100, k at level 200, right associativity) : py_scope.
Notation "'let?' x := o 'in' k" := (Py.obind o (fun x => k))
  (at level 10, x name, o at level 100, k at level 200) : py_scope.

(** ** numpy arrays of rank two

    An array is the list of its rows; [a[i, j]] is element [j] of row [i]. *)
Module NP.
Import Float Py.
Local Open Scope py_scope.

Abbreviation ndarray := (list (list float)).

(** Row lengths; for a rectangular array this is its shape, row by row. *)
Definition dims (a : ndarray) : list nat := length <$> a.

Definition rect (n m : nat) (a : ndarray) : Prop := dims a = replicate n m.

Definition item (a : ndarray) (i j : nat) : float :=
  default NaN (default [] (a !! i) !! j).

(** A slice [start:stop:step] with a positive step, or the full slice [:]. *)
Inductive slice : Type :=
| Slice (start stop : Z) (step : positive)
| All.

(** A slice bound is counted from the end when negative and clipped to the
    axis. *)
Definition clip (len : nat) (k : Z) : nat :=
  Z.to_nat (Z.min (Z.of_nat len) (if k <? 0 then Z.max 0 (k + Z.of_nat len) else k)).

(** [range(lo, hi, st)]. *)
Definition strided (lo hi st : nat) : list nat :=
  (fun k => lo + k * st)%nat <$> seq 0 ((hi - lo + (st - 1)) / st)%nat.

(** The indices a slice selects on an axis of length [len]. *)
Definition indices (len : nat) (sl : slice) : list nat :=
  match sl with
  | All => seq 0 len
  | Slice start stop step => strided (clip len start) (clip len stop) (Pos.to_nat step)
  end.

(** [a[s1, s2]] read. *)
Definition getslice (a : ndarray) (s1 s2 : slice) : ndarray :=
  (fun i => let row := default [] (a !! i) in
            (fun j => default NaN (row !! j)) <$> indices (length row) s2)
    <$> indices (length a) s1.

(** [l[idx[k]] = upd rhs[k] l[idx[k]]] for every [k], in order. *)
Fixpoint scatter_with {A B} (upd : B -> A -> A) (idx : list nat) (rhs : list B)
    (l : list A) : list A :=
  match idx, rhs with
  | i :: idx', x :: rhs' => scatter_with upd idx' rhs' (alter (upd x) i l)
  | _, _ => l
  end.

Definition slice_dims (a : ndarray) (s1 s2 : slice) : list nat :=
  (fun i => length (indices (length (default [] (a !! i))) s2))
    <$> indices (length a) s1.

(** [a[s1, s2] = rhs]. numpy raises ValueError unless [rhs] has the shape of
    the slice (broadcasting of a smaller [rhs] is not used by the code and is
    not modelled). *)
Definition setslice (a : ndarray) (s1 s2 : slice) (rhs : ndarray) : outcome ndarray :=
  if decide (dims rhs = slice_dims a s1 s2) then
    Ok (scatter_with
          (fun rrow row =>
             scatter_with (fun x _ => x) (indices (length row) s2) rrow row)
          (indices (length a) s1) rhs a)
  else Raise (ValueError "could not broadcast input array").

(** [a[:, :] = c] for a scalar [c]. *)
Definition fill (c : float) (a : ndarray) : ndarray :=
  (fun row : list float => (fun _ : float => c) <$> row) <$> a.

(** Integer index on an axis of length [len]. *)
Definition index (len : nat) (i : Z) : outcome nat :=
  if (0 <=? i) && (i <? Z.of_nat len) then Ok (Z.to_nat i)
  else if (- Z.of_nat len <=? i) && (i <? 0) then Ok (Z.to_nat (i + Z.of_nat len))
  else Raise (IndexError "index out of bounds").

(** [a[i]]: a row. *)
Definition getrow (a : ndarray) (i : Z) : outcome (list float) :=
  let? k := index (length a) i in Ok (default [] (a !! k)).

(** [a[i] = row]. *)
Definition setrow (a : ndarray) (i : Z) (row : list float) : outcome ndarray :=
  let? k := index (length a) i in
  if decide (length row = length (default [] (a !! k))) then Ok (<[k := row]> a)
  else Raise (ValueError "could not broadcast input array").

(** Elementwise binary operation; the operands must agree in shape. *)
Definition zip2 (op : float -> float -> float) (a b : ndarray) : outcome ndarray :=
  if decide (dims a = dims b) then Ok (zip_with (zip_with op) a b)
  else Raise (ValueError "operands could not be broadcast together").

Definition map2 (op : float -> float) (a : ndarray) : ndarray :=
  (fun row : list float => op <$> row) <$> a.

Definition add : ndarray -> ndarray -> outcome ndarray := zip2 fadd.
Definition sub : ndarray -> ndarray -> outcome ndarray := zip2 fsub.
Definition mul : ndarray -> ndarray -> outcome ndarray := zip2 fmul.
Definition div : ndarray -> ndarray -> outcome ndarray := zip2 fdiv.

Definition smul (c : float) (a : ndarray) : ndarray := map2 (fmul c) a.          (* c * a *)
Definition divs (a : ndarray) (c : float) : ndarray := map2 (fun x => fdiv x c) a. (* a / c *)
Definition sdiv (c : float) (a : ndarray) : ndarray := map2 (fdiv c) a.          (* c / a *)
Definition adds (a : ndarray) (c : float) : ndarray := map2 (fun x => fadd x c) a. (* a + c *)
Definition abs (a : ndarray) : ndarray := map2 fabs a.
Definition square (a : ndarray) : ndarray := map2 (fun x => fmul x x) a.         (* a**2 *)

Definition copy (a : ndarray) : ndarray := a.
Definition zeros (n m : nat) : ndarray := replicate n (replicate m zero).

(** [numpy.sum(a.flat)]. *)
Definition sum (a : ndarray) : float := foldl fadd zero (concat a).

(** [a.min()]. *)
Definition min (a : ndarray) : outcome float :=
  match concat a with
  | [] => Raise (ValueError "zero-size array to minimum.reduce")
  | x :: l => Ok (foldl npmin x l)
  end.

End NP.

(** [numpy.sqrt] is an external function and stays a parameter. *)
Class NumPy : Type := np_sqrt : Float.float -> Float.float.

(** ** mesh/patch.py

    The mesh module is not among the sources under study; what the solver
    uses of it is described here. *)
Module Patch.
Import Float Py NP.
Local Open Scope py_scope.

Record grid2d : Type := mk_grid2d {
  nx : Z; ny : Z; ng : Z;
  qx : Z; qy : Z;
  xmin : float; xmax : float; ymin : float; ymax : float;
  ilo : Z; ihi : Z; jlo : Z; jhi : Z;
  dx : float; dy : float
}.

(** Modelled from the spec: the constructor [grid2d] of mesh/patch.py is
    missing. "Total extent qx = nx+2·ng, qy = ny+2·ng; interior index ranges
    [ilo..ihi] = [ng..ng+nx−1], likewise for j; derived dx=(xmax−xmin)/nx, dy
    similarly." *)
Definition grid2d_new (nx ny ng : Z) (xmin xmax ymin ymax : float) : outcome grid2d :=
  let? dx := pydiv (fsub xmax xmin) (of_Z nx) in
  let? dy := pydiv (fsub ymax ymin) (of_Z ny) in
  Ok {| nx := nx; ny := ny; ng := ng;
        qx := nx + 2 * ng; qy := ny + 2 * ng;
        xmin := xmin; xmax := xmax; ymin := ymin; ymax := ymax;
        ilo := ng; ihi := ng + nx - 1; jlo := ng; jhi := ng + ny - 1;
        dx := dx; dy := dy |}.

(** Modelled from the spec: [scratch_array] of mesh/patch.py is missing.
    "scratch_array() → fresh zeroed CellArray matching its shape." *)
Definition scratch_array (g : grid2d) : ndarray :=
  zeros (Z.to_nat (qx g)) (Z.to_nat (qy g)).

(** The boundary kinds of the four edges, as the strings the code passes. *)
Record bcObject : Type := mk_bcObject {
  xlb : string; xrb : string; ylb : string; yrb : string;
  odd_reflect_dir : string
}.

(** A [ccData2d] as the multigrid solver registers it: the three variables
    "v", "f" and "r" on one grid, sharing one boundary-condition object. *)
Record ccData2d : Type := mk_ccData2d {
  grid : grid2d;
  BCs : bcObject;
  var_v : ndarray;
  var_f : ndarray;
  var_r : ndarray
}.

Definition set_var_v (a : ndarray) (d : ccData2d) : ccData2d :=
  {| grid := grid d; BCs := BCs d; var_v := a; var_f := var_f d; var_r := var_r d |}.
Definition set_var_f (a : ndarray) (d : ccData2d) : ccData2d :=
  {| grid := grid d; BCs := BCs d; var_v := var_v d; var_f := a; var_r := var_r d |}.
Definition set_var_r (a : ndarray) (d : ccData2d) : ccData2d :=
  {| grid := grid d; BCs := BCs d; var_v := var_v d; var_f := var_f d; var_r := a |}.

(** Modelled from the spec: [registerVar]/[create] of mesh/patch.py are
    missing. "Each level allocates (v, f, r) CellArrays", of shape (qx, qy). *)
Definition ccData2d_create (g : grid2d) (bc : bcObject) : ccData2d :=
  {| grid := g; BCs := bc;
     var_v := scratch_array g; var_f := scratch_array g; var_r := scratch_array g |}.

(** The methods [fillBC], [restrict] and [prolong] of mesh/patch.py, which is
    missing, are parameters. Each acts on the one variable it is given by
    name (spec: "A BCPolicy is a pure function of (kind per edge, field) that
    writes into the ghost region"); [restrict] returns an array on the next
    coarser grid and [prolong] one on the next finer grid. *)
Class PatchAPI : Type := {
  fillBC : bcObject -> grid2d -> ndarray -> ndarray;
  restrict : grid2d -> ndarray -> ndarray;
  prolong : grid2d -> ndarray -> ndarray
}.

(** What the solver relies on: the three operations return arrays of the
    expected shape. *)
Class PatchShapes (P : PatchAPI) : Prop := {
  fillBC_rect : forall bc g a n m, rect n m a -> rect n m (fillBC bc g a);
  restrict_dims : forall g a,
    dims (restrict g a)
    = replicate (Z.to_nat (nx g / 2 + 2 * ng g)) (Z.to_nat (ny g / 2 + 2 * ng g));
  prolong_dims : forall g a,
    dims (prolong g a)
    = replicate (Z.to_nat (2 * nx g + 2 * ng g)) (Z.to_nat (2 * ny g + 2 * ng g))
}.

End Patch.

(** ** multigrid/multigrid.py *)
Module Multigrid.
Import Float Py NP Patch.
Local Open Scope py_scope.

(** [error(myg, r)]: the L2 norm of the interior of [r]. *)
Definition error `{NumPy} (myg : grid2d) (r : ndarray) : float :=
  np_sqrt (fmul (fmul (dx myg) (dy myg))
             (sum (square (getslice r (Slice (ilo myg) (ihi myg + 1) 1)
                                      (Slice (jlo myg) (jhi myg + 1) 1))))).

(** The attributes of a [ccMG2d] object. The coordinate arrays and the
    copies of the solution grid's bounds are left out; [solnGrid] holds them. *)
Record ccMG2d : Type := mk_ccMG2d {
  nx : Z; ny : Z; ng : Z;
  xmin : float; xmax : float; ymin : float; ymax : float;
  alpha : float; beta : float;
  nsmooth : Z;
  maxCycles : Z;
  verbose : Z;
  small : float;
  initializedSolution : Z;
  initializedRHS : Z;
  nlevels : nat;
  grids : list ccData2d;
  solnGrid : grid2d;
  sourceNorm : float;
  numCycles : Z;
  residualError : float;
  relativeError : float
}.

Definition set_grids (gs : list ccData2d) (s : ccMG2d) : ccMG2d :=
  {| nx := nx s; ny := ny s; ng := ng s;
     xmin := xmin s; xmax := xmax s; ymin := ymin s; ymax := ymax s;
     alpha := alpha s; beta := beta s; nsmooth := nsmooth s;
     maxCycles := maxCycles s; verbose := verbose s; small := small s;
     initializedSolution := initializedSolution s;
     initializedRHS := initializedRHS s; nlevels := nlevels s;
     grids := gs; solnGrid := solnGrid s; sourceNorm := sourceNorm s;
     numCycles := numCycles s; residualError := residualError s;
     relativeError := relativeError s |}.

Definition set_initializedSolution (z : Z) (s : ccMG2d) : ccMG2d :=
  {| nx := nx s; ny := ny s; ng := ng s;
     xmin := xmin s; xmax := xmax s; ymin := ymin s; ymax := ymax s;
     alpha := alpha s; beta := beta s; nsmooth := nsmooth s;
     maxCycles := maxCycles s; verbose := verbose s; small := small s;
     initializedSolution := z;
     initializedRHS := initializedRHS s; nlevels := nlevels s;
     grids := grids s; solnGrid := solnGrid s; sourceNorm := sourceNorm s;
     numCycles := numCycles s; residualError := residualError s;
     relativeError := relativeError s |}.

Definition set_RHS (norm : float) (z : Z) (s : ccMG2d) : ccMG2d :=
  {| nx := nx s; ny := ny s; ng := ng s;
     xmin := xmin s; xmax := xmax s; ymin := ymin s; ymax := ymax s;
     alpha := alpha s; beta := beta s; nsmooth := nsmooth s;
     maxCycles := maxCycles s; verbose := verbose s; small := small s;
     initializedSolution := initializedSolution s;
     initializedRHS := z; nlevels := nlevels s;
     grids := grids s; solnGrid := solnGrid s; sourceNorm := norm;
     numCycles := numCycles s; residualError := residualError s;
     relativeError := relativeError s |}.

Definition set_diagnostics (cycle : Z) (rel res : float) (s : ccMG2d) : ccMG2d :=
  {| nx := nx s; ny := ny s; ng := ng s;
     xmin := xmin s; xmax := xmax s; ymin := ymin s; ymax := ymax s;
     alpha := alpha s; beta := beta s; nsmooth := nsmooth s;
     maxCycles := maxCycles s; verbose := verbose s; small := small s;
     initializedSolution := initializedSolution s;
     initializedRHS := initializedRHS s; nlevels := nlevels s;
     grids := grids s; solnGrid := solnGrid s; sourceNorm := sourceNorm s;
     numCycles := cycle; residualError := res; relativeError := rel |}.

(** [nlevels = int(math.log(self.nx)/math.log(2.0)) + 1]: the floor of the
    base-2 logarithm plus one; [math.log] raises on a non-positive argument. *)
Definition count_levels (nx : Z) : outcome nat :=
  if nx <=? 0 then Raise (ValueError "math domain error")
  else Ok (Z.to_nat (Z.log2 nx) + 1)%nat.

(** The loop that creates the grids, coarsest first. *)
Fixpoint create_grids (todo : nat) (nx_t ny_t : Z) (ng : Z)
    (xmin xmax ymin ymax : float) (bcObj : bcObject) (grids : list ccData2d)
    : outcome (list ccData2d) :=
  match todo with
  | O => Ok grids
  | S todo' =>
      let? myGrid := grid2d_new nx_t ny_t ng xmin xmax ymin ymax in
      create_grids todo' (nx_t * 2) (ny_t * 2) ng xmin xmax ymin ymax bcObj
        (grids ++ [ccData2d_create myGrid bcObj])
  end.

(** [ccMG2d.__init__]. A [return -1] inside [__init__] makes the
    instantiation raise TypeError. *)
Definition __init__ (nx ny : Z) (xmin xmax ymin ymax : float)
    (xlBCtype xrBCtype ylBCtype yrBCtype : string)
    (alpha beta : float) (verbose : Z) : outcome ccMG2d :=
  if negb (nx =? ny) then Raise (TypeError "__init__() should return None")
  else
    let ng := 1 in
    if fneb (fsub xmax xmin) (fsub ymax ymin)
    then Raise (TypeError "__init__() should return None")
    else
      let? nlevels := count_levels nx in
      let bcObj := {| xlb := xlBCtype; xrb := xrBCtype;
                      ylb := ylBCtype; yrb := yrBCtype;
                      odd_reflect_dir := "" |} in
      let? grids := create_grids nlevels 1 1 ng xmin xmax ymin ymax bcObj [] in
      match grids !! (nlevels - 1)%nat with
      | None => Raise (IndexError "list index out of range")
      | Some top =>
          Ok {| nx := nx; ny := ny; ng := ng;
                xmin := xmin; xmax := xmax; ymin := ymin; ymax := ymax;
                alpha := alpha; beta := beta;
                nsmooth := 10;
                maxCycles := 100;
                verbose := verbose;
                small := dec 1 (10 ^ 16);
                initializedSolution := 0;
                initializedRHS := 0;
                nlevels := nlevels;
                grids := grids;
                solnGrid := grid top;
                sourceNorm := zero;
                numCycles := 0;
                residualError := of_Z (10 ^ 33);
                relativeError := of_Z (10 ^ 33) |}
      end.

(** [self.grids[level]]. *)
Definition grids_at (level : nat) : M ccMG2d ccData2d :=
  fun self =>
    match grids self !! level with
    | Some d => (Ok d, self)
    | None => (Raise (IndexError "list index out of range"), self)
    end.

(** Writes through the pointer returned by [getVarPtr]. *)
Definition store_v (level : nat) (a : ndarray) : M ccMG2d unit :=
  modify (fun self => set_grids (alter (set_var_v a) level (grids self)) self).
Definition store_f (level : nat) (a : ndarray) : M ccMG2d unit :=
  modify (fun self => set_grids (alter (set_var_f a) level (grids self)) self).
Definition store_r (level : nat) (a : ndarray) : M ccMG2d unit :=
  modify (fun self => set_grids (alter (set_var_r a) level (grids self)) self).

(** [self.grids[level].fillBC("v")]. *)
Definition fillBC_v `{PatchAPI} (level : nat) : M ccMG2d unit :=
  do d <- grids_at level;
  store_v level (fillBC (BCs d) (grid d) (var_v d)).

Definition getSolution : M ccMG2d ndarray :=
  do self <- get;
  do d <- grids_at (nlevels self - 1);
  ret (copy (var_v d)).

Definition initSolution (data : ndarray) : M ccMG2d unit :=
  do self <- get;
  do d <- grids_at (nlevels self - 1);
  do v <- lift (setslice (var_v d) All All (copy data));
  store_v (nlevels self - 1) v;;
  modify (set_initializedSolution 1).

Definition initZeros : M ccMG2d unit :=
  do self <- get;
  do d <- grids_at (nlevels self - 1);
  store_v (nlevels self - 1) (fill zero (var_v d));;
  modify (set_initializedSolution 1).

Definition initRHS `{NumPy} (data : ndarray) : M ccMG2d unit :=
  do self <- get;
  do d <- grids_at (nlevels self - 1);
  do f <- lift (setslice (var_f d) All All (copy data));
  store_f (nlevels self - 1) f;;
  modify (set_RHS (error (grid d) f) 1).

(** [computeResidual]: r = f - alpha phi + beta L phi on the interior. *)
Definition computeResidual (level : nat) : M ccMG2d unit :=
  do d <- grids_at level;
  do self <- get;
  let v := var_v d in
  let f := var_f d in
  let r := var_r d in
  let myg := grid d in
  let I := Slice (ilo myg) (ihi myg + 1) 1 in
  let J := Slice (jlo myg) (jhi myg + 1) 1 in
  do r' <- lift (
    let? a1 := sub (getslice f I J) (smul (alpha self) (getslice v I J)) in
    let? x1 := add (getslice v (Slice (ilo myg - 1) (ihi myg) 1) J)
                   (getslice v (Slice (ilo myg + 1) (ihi myg + 2) 1) J) in
    let? x2 := sub x1 (smul two (getslice v I J)) in
    let? y1 := add (getslice v I (Slice (jlo myg - 1) (jhi myg) 1))
                   (getslice v I (Slice (jlo myg + 1) (jhi myg + 2) 1)) in
    let? y2 := sub y1 (smul two (getslice v I J)) in
    let? lap := add (divs x2 (fmul (dx myg) (dx myg)))
                    (divs y2 (fmul (dy myg) (dy myg))) in
    let? rhs := add a1 (smul (beta self) lap) in
    setslice r I J rhs);
  store_r level r'.

(** One of the four assignments of a red-black pass:
    [v[ti, tj] = (f[ti, tj] + xcoeff*(v[ei, tj] + v[wi, tj])
                  + ycoeff*(v[ti, nj] + v[ti, sj])) / denom]. *)
Definition relax (v f : ndarray) (xcoeff ycoeff denom : float)
    (ti tj ei wi nj sj : slice) : outcome ndarray :=
  let? sx := add (getslice v ei tj) (getslice v wi tj) in
  let? t1 := add (getslice f ti tj) (smul xcoeff sx) in
  let? sy := add (getslice v ti nj) (getslice v ti sj) in
  let? t2 := add t1 (smul ycoeff sy) in
  setslice v ti tj (divs t2 denom).

Definition relax_v (level : nat) (xcoeff ycoeff denom : float)
    (ti tj ei wi nj sj : slice) : M ccMG2d unit :=
  do d <- grids_at level;
  do v <- lift (relax (var_v d) (var_f d) xcoeff ycoeff denom ti tj ei wi nj sj);
  store_v level v.

(** The body of the loop of [smooth]: one red-black pass. *)
Definition smooth_pass `{PatchAPI} (level : nat) (myg : grid2d) : M ccMG2d unit :=
  do self <- get;
  do xcoeff <- lift (pydiv (beta self) (fmul (dx myg) (dx myg)));
  do ycoeff <- lift (pydiv (beta self) (fmul (dy myg) (dy myg)));
  let denom := fadd (fadd (alpha self) (fmul two xcoeff)) (fmul two ycoeff) in
  let ilo := ilo myg in let ihi := ihi myg in
  let jlo := jlo myg in let jhi := jhi myg in
  relax_v level xcoeff ycoeff denom
    (Slice ilo (ihi + 1) 2) (Slice jlo (jhi + 1) 2)
    (Slice (ilo + 1) (ihi + 2) 2) (Slice (ilo - 1) ihi 2)
    (Slice (jlo + 1) (jhi + 2) 2) (Slice (jlo - 1) jhi 2);;
  relax_v level xcoeff ycoeff denom
    (Slice (ilo + 1) (ihi + 1) 2) (Slice (jlo + 1) (jhi + 1) 2)
    (Slice (ilo + 2) (ihi + 2) 2) (Slice ilo ihi 2)
    (Slice (jlo + 2) (jhi + 2) 2) (Slice jlo jhi 2);;
  fillBC_v level;;
  relax_v level xcoeff ycoeff denom
    (Slice (ilo + 1) (ihi + 1) 2) (Slice jlo (jhi + 1) 2)
    (Slice (ilo + 2) (ihi + 2) 2) (Slice ilo ihi 2)
    (Slice (jlo + 1) (jhi + 2) 2) (Slice (jlo - 1) jhi 2);;
  relax_v level xcoeff ycoeff denom
    (Slice ilo (ihi + 1) 2) (Slice (jlo + 1) (jhi + 1) 2)
    (Slice (ilo + 1) (ihi + 2) 2) (Slice (ilo - 1) ihi 2)
    (Slice (jlo + 2) (jhi + 2) 2) (Slice jlo jhi 2);;
  fillBC_v level.

(** [smooth]: red-black Gauss-Seidel. *)
Definition smooth `{PatchAPI} (level : nat) (nsmooth : Z) : M ccMG2d unit :=
  do d <- grids_at level;
  let myg := grid d in
  fillBC_v level;;
  repeat_n (Z.to_nat nsmooth) (smooth_pass level myg).

(** The loop that zeroes the solution on all but the finest grid; [level]
    counts up and [todo] is the number of iterations left. *)
Fixpoint zero_levels (todo level : nat) : M ccMG2d unit :=
  match todo with
  | O => ret tt
  | S todo' =>
      (do d <- grids_at level;
       store_v level (fill zero (var_v d)));;
      zero_levels todo' (S level)
  end.

(** The descending loop, [while (level > 0)]. The local [fP] is threaded
    through as the level it points to, since it is read after the loops. *)
Fixpoint descend `{PatchAPI} (level : nat) (fP : option nat) : M ccMG2d (option nat) :=
  match level with
  | O => ret fP
  | S coarse =>
      do _ <- grids_at level;
      do _ <- grids_at coarse;
      (do verbose <- gets verbose;
       when (truthy verbose) (computeResidual level));;
      (do nsmooth <- gets nsmooth;
       smooth level nsmooth);;
      computeResidual level;;
      (do fPd <- grids_at level;
       do cPd <- grids_at coarse;
       do f_coarse <- lift (setslice (var_f cPd) All All
                              (restrict (grid fPd) (var_r fPd)));
       store_f coarse f_coarse);;
      descend coarse (Some level)
  end.

(** The bottom solve. [v[bP.grid.ilo]] addresses a whole row. *)
Definition bottom_solve `{PatchAPI} : M ccMG2d unit :=
  (do bP <- grids_at 0;
   let g := grid bP in
   do frow <- lift (getrow (var_f bP) (ilo g));
   do v <- lift (setrow (var_v bP) (ilo g)
                   ((fun x => fmul (fmul (fmul m0125 x) (dx g)) (dx g)) <$> frow));
   store_v 0 v);;
  fillBC_v 0.

(** The ascending loop, [while (level < self.nlevels)]. *)
Fixpoint ascend `{PatchAPI} (todo level : nat) (fP : option nat) : M ccMG2d (option nat) :=
  match todo with
  | O => ret fP
  | S todo' =>
      (do fPd <- grids_at level;
       do cPd <- grids_at (level - 1);
       let e := prolong (grid cPd) (var_v cPd) in
       do v <- lift (add (var_v fPd) e);
       store_v level v);;
      (do verbose <- gets verbose;
       when (truthy verbose) (computeResidual level));;
      (do nsmooth <- gets nsmooth;
       smooth level nsmooth);;
      (do verbose <- gets verbose;
       when (truthy verbose) (computeResidual level));;
      ascend todo' (S level) (Some level)
  end.

(** One V-cycle: the part of the loop body of [solve] up to the end of the
    ascent. *)
Definition vcycle `{PatchAPI} (fP : option nat) : M ccMG2d (option nat) :=
  do self <- get;
  zero_levels (nlevels self - 1) 0;;
  do fP <- descend (nlevels self - 1) fP;
  bottom_solve;;
  ascend (nlevels self - 1) 1 fP.

(** The rest of the loop body: the two error measures and the convergence
    test. Returns [converged] and the new [oldSolution]. *)
Definition check_convergence `{NumPy} `{PatchAPI} (rtol : float) (cycle : Z)
    (oldSolution : ndarray) (fP : option nat) : M ccMG2d (bool * ndarray) :=
  do self <- get;
  do solnP <- grids_at (nlevels self - 1);
  do diff <- lift (let? num := sub (var_v solnP) oldSolution in
                   div num (adds (var_v solnP) (small self)));
  let relativeError := error (grid solnP) diff in
  let oldSolution := copy (var_v solnP) in
  computeResidual (nlevels self - 1);;
  do fPl <- match fP with
            | Some l => ret l
            | None => raise (UnboundLocalError "fP")
            end;
  do fPd <- grids_at fPl;
  let r := var_r fPd in
  let residualError :=
    if fneb (sourceNorm self) zero
    then fdiv (error (grid fPd) r) (sourceNorm self)
    else error (grid fPd) r in
  if fltb residualError rtol then
    modify (set_diagnostics cycle relativeError residualError);;
    fillBC_v fPl;;
    ret (true, oldSolution)
  else ret (false, oldSolution).

(** [while (not converged and cycle <= self.maxCycles)]; [todo] is the
    number of cycles the cap still allows. *)
Fixpoint cycles `{NumPy} `{PatchAPI} (todo : nat) (rtol : float) (cycle : Z)
    (oldSolution : ndarray) (fP : option nat) : M ccMG2d unit :=
  match todo with
  | O => ret tt
  | S todo' =>
      do fP <- vcycle fP;
      do c <- check_convergence rtol cycle oldSolution fP;
      if fst c then ret tt
      else cycles todo' rtol (cycle + 1) (snd c) fP
  end.

(** [solve]. The module never imports [msg], so reaching [msg.fail] raises
    NameError. *)
Definition solve `{NumPy} `{PatchAPI} (rtol : float) : M ccMG2d unit :=
  do self <- get;
  (if negb (truthy (initializedSolution self)) || negb (truthy (initializedRHS self))
   then raise (NameError "msg") else ret tt);;
  do solnP <- grids_at (nlevels self - 1);
  let oldSolution := copy (var_v solnP) in
  cycles (Z.to_nat (maxCycles self)) rtol 1 oldSolution None.

End Multigrid.

(** ** The mesh operations as the specification describes them

    Concrete versions of the [PatchAPI] operations, used to run the solver
    on actual grids. *)
Module Mesh.
Import Float Py NP Patch.

(** Where a ghost index of an axis takes its value from, and with which
    sign: [ng] ghost cells on each side of the interior [lo..hi]. *)
Definition ghost_source (kind : string) (odd : bool) (lo hi : nat) (i : nat)
    : option (nat * bool) :=
  let n := (hi + 1 - lo)%nat in
  let low := (i <? lo)%nat in
  if negb low && (i <=? hi)%nat then None
  else if String.eqb kind "periodic" then
    Some (if low then (i + n)%nat else (i - n)%nat, false)
  else if String.eqb kind "outflow" then
    Some (if low then lo else hi, false)
  else if String.eqb kind "neumann" || String.eqb kind "reflect-even"
          || (String.eqb kind "reflect" && negb odd) then
    Some (if low then (2 * lo - 1 - i)%nat else (2 * hi + 1 - i)%nat, false)
  else if String.eqb kind "dirichlet" || String.eqb kind "reflect-odd"
          || (String.eqb kind "reflect" && odd) then
    Some (if low then (2 * lo - 1 - i)%nat else (2 * hi + 1 - i)%nat, true)
  else None.

Definition signed (neg : bool) (x : float) : float := if neg then fneg x else x.

(** Fill of one axis of a list: ghost entries are replaced, the rest kept. *)
Definition fill_axis {A} (pick : bool -> A -> A) (lkind rkind : string) (odd : bool)
    (lo hi : nat) (l : list A) : list A :=
  imap (fun i x =>
          match ghost_source (if (i <? lo)%nat then lkind else rkind) odd lo hi i with
          | Some (k, neg) => pick neg (default x (l !! k))
          | None => x
          end) l.

(** Modelled from the spec: [fillBC] of mesh/patch.py is missing. "periodic:
    copy opposite interior edge; reflect-even: mirror interior values
    (f[ilo−k] = f[ilo+k−1]); reflect-odd: mirror with sign flip; neumann:
    zero-gradient (same as reflect-even); dirichlet (homogeneous only):
    f[ghost] = −f[interior-mirror]; outflow: zero-gradient copy." The x
    edges are filled first, then the y edges. *)
Definition fill_BC (bc : bcObject) (g : grid2d) (a : ndarray) : ndarray :=
  let ax := fill_axis (fun neg row => signed neg <$> row) (xlb bc) (xrb bc)
              (String.eqb (odd_reflect_dir bc) "x")
              (Z.to_nat (ilo g)) (Z.to_nat (ihi g)) a in
  (fun row : list float =>
     fill_axis signed (ylb bc) (yrb bc)
       (String.eqb (odd_reflect_dir bc) "y")
       (Z.to_nat (jlo g)) (Z.to_nat (jhi g)) row) <$> ax.

(** An array given cell by cell. *)
Definition tabulate (n m : nat) (cell : nat -> nat -> float) : ndarray :=
  (fun i => (fun j => cell i j) <$> seq 0 m) <$> seq 0 n.

(** Modelled from the spec: [restrict] of mesh/patch.py is missing.
    "f_coarse_{I,J} = ¼·(r_fine_{2I,2J} + r_fine_{2I+1,2J} + r_fine_{2I,2J+1}
    + r_fine_{2I+1,2J+1})" over the interior, indices counted from the first
    interior cell; ghost cells of the result are zero. *)
Definition restrict_avg (g : grid2d) (a : ndarray) : ndarray :=
  let ngn := Z.to_nat (ng g) in
  let cx := Z.to_nat (nx g / 2) in
  let cy := Z.to_nat (ny g / 2) in
  tabulate (Z.to_nat (nx g / 2 + 2 * ng g)) (Z.to_nat (ny g / 2 + 2 * ng g))
    (fun i j =>
       if (ngn <=? i)%nat && (i <? ngn + cx)%nat && (ngn <=? j)%nat && (j <? ngn + cy)%nat
       then
         let fi := (2 * (i - ngn) + ngn)%nat in
         let fj := (2 * (j - ngn) + ngn)%nat in
         fmul (dec 1 4)
           (fadd (fadd (fadd (item a fi fj) (item a (fi + 1) fj))
                       (item a fi (fj + 1)))
                 (item a (fi + 1) (fj + 1)))
       else zero).

(** Modelled from the spec: [prolong] of mesh/patch.py is missing.
    "piecewise-constant injection within each coarse cell (each fine child
    takes the coarse parent's value)"; ghost cells of the result are zero. *)
Definition prolong_inject (g : grid2d) (a : ndarray) : ndarray :=
  let ngn := Z.to_nat (ng g) in
  let fx := Z.to_nat (2 * nx g) in
  let fy := Z.to_nat (2 * ny g) in
  tabulate (Z.to_nat (2 * nx g + 2 * ng g)) (Z.to_nat (2 * ny g + 2 * ng g))
    (fun i j =>
       if (ngn <=? i)%nat && (i <? ngn + fx)%nat && (ngn <=? j)%nat && (j <? ngn + fy)%nat
       then item a ((i - ngn) / 2 + ngn)%nat ((j - ngn) / 2 + ngn)%nat
       else zero).

#[export] Instance mesh_api : PatchAPI :=
  {| fillBC := fill_BC; restrict := restrict_avg; prolong := prolong_inject |}.

(** A rational stand-in for [numpy.sqrt]: the root of a non-negative finite
    value rounded down to a multiple of 1/(1000·denominator); exact at 0. *)
Definition sqrt_down (x : float) : float :=
  match x with
  | Fin q =>
      if decide (q < 0)%Qc then NaN
      else
        let n := Qnum q in
        let d := Zpos (Qden q) in
        Fin (Q2Qc (Qmake (Z.sqrt (n * d * 1000000)) (Qden q * 1000)))
  | PInf => PInf
  | NInf | NaN => NaN
  end.

#[export] Instance numpy_model : NumPy := sqrt_down.

End Mesh.

(** ** The specification, cell by cell

    The operations of the solver as the specification words them: formulas
    for single cells, compositions of whole-array steps, folds over the
    levels. The theorems relate the code to these. *)
Module Spec.
Import Float Py NP Multigrid Patch.

(** The array that holds [F i j] at the cells selected by [P] and agrees
    with [a] elsewhere. *)
Definition update_cells (P : nat -> nat -> bool) (F : nat -> nat -> float)
    (a : ndarray) : ndarray :=
  imap (fun i row => imap (fun j x => if P i j then F i j else x) row) a.

(** Index [i] lies in [s, e). *)
Definition between (s e : Z) (i : nat) : bool :=
  (s <=? Z.of_nat i) && (Z.of_nat i <? e).

(** Index [i] is one of [s], [s+2], [s+4], ... below [e]. *)
Definition every_other (s e : Z) (i : nat) : bool :=
  (s <=? Z.of_nat i) && (Z.of_nat i <? e) && Z.even (Z.of_nat i - s).

Section Arrays.
Context `{PatchAPI}.
Variables alpha beta : float.
Variable bc : bcObject.
Variable g : grid2d.

(** Cell (i, j) is an interior cell. *)
Definition interior (i j : nat) : bool :=
  (ilo g <=? Z.of_nat i) && (Z.of_nat i <=? ihi g)
  && (jlo g <=? Z.of_nat j) && (Z.of_nat j <=? jhi g).

(** Index parity, counted from the first interior cell: [false] is even. *)
Definition odd_from (lo : Z) (i : nat) : bool := Z.odd (Z.of_nat i - lo).

Definition in_group (pi pj : bool) (i j : nat) : bool :=
  interior i j && eqb (odd_from (ilo g) i) pi && eqb (odd_from (jlo g) j) pj.

Definition cx : float := fdiv beta (fmul (dx g) (dx g)).
Definition cy : float := fdiv beta (fmul (dy g) (dy g)).

(** The relaxation formula
    (f + cx·(v_{i+1,j}+v_{i−1,j}) + cy·(v_{i,j+1}+v_{i,j−1})) / (α + 2cx + 2cy). *)
Definition relaxed (f v : ndarray) (i j : nat) : float :=
  fdiv (fadd (fadd (item f i j)
                   (fmul cx (fadd (item v (i + 1) j) (item v (i - 1) j))))
             (fmul cy (fadd (item v i (j + 1)) (item v i (j - 1)))))
       (fadd (fadd alpha (fmul two cx)) (fmul two cy)).

(** A sub-sweep: every interior cell of the given parities receives the
    relaxed value, computed from the field before the sub-sweep. *)
Definition sweep (pi pj : bool) (f v : ndarray) : ndarray :=
  update_cells (in_group pi pj) (relaxed f v) v.

Definition fill_ghosts (v : ndarray) : ndarray := fillBC bc g v.

(** One red-black pass: (ee), (oo), fill, (oe), (eo), fill. *)
Definition red_black_pass (f v : ndarray) : ndarray :=
  fill_ghosts
    (sweep false true f
       (sweep true false f
          (fill_ghosts
             (sweep true true f
                (sweep false false f v))))).

(** Smoothing: one fill, then [n] passes. *)
Definition smooth (n : nat) (f v : ndarray) : ndarray :=
  Nat.iter n (red_black_pass f) (fill_ghosts v).

(** The residual r = f − α·v + β·∇²v at a cell. *)
Definition residual_at (f v : ndarray) (i j : nat) : float :=
  fadd (fsub (item f i j) (fmul alpha (item v i j)))
       (fmul beta
          (fadd (fdiv (fsub (fadd (item v (i + 1) j) (item v (i - 1) j))
                            (fmul two (item v i j)))
                      (fmul (dx g) (dx g)))
                (fdiv (fsub (fadd (item v i (j + 1)) (item v i (j - 1)))
                            (fmul two (item v i j)))
                      (fmul (dy g) (dy g))))).

(** The residual array: interior cells hold the residual, the others keep
    what [r] held. *)
Definition residual (f v r : ndarray) : ndarray :=
  update_cells interior (residual_at f v) r.

(** [v] satisfies the discrete equation: the residual vanishes at every
    interior cell. *)
Definition solves (f v : ndarray) : bool :=
  forallb (fun i =>
    forallb (fun j => negb (interior i j) || feqb (residual_at f v i j) zero)
      (seq 0 (Z.to_nat (qy g))))
    (seq 0 (Z.to_nat (qx g))).

End Arrays.

(** A grid as [grid2d] lays it out, with at least one ghost layer and
    non-zero spacings. *)
Definition grid_ok (g : grid2d) : Prop :=
  1 <= ng g /\ 1 <= nx g /\ 1 <= ny g /\
  qx g = nx g + 2 * ng g /\ qy g = ny g + 2 * ng g /\
  ilo g = ng g /\ ihi g = ng g + nx g - 1 /\
  jlo g = ng g /\ jhi g = ng g + ny g - 1 /\
  feqb (fmul (dx g) (dx g)) zero = false /\
  feqb (fmul (dy g) (dy g)) zero = false.

(** An array allocated on grid [g]. *)
Definition on_grid (g : grid2d) (a : ndarray) : Prop :=
  rect (Z.to_nat (qx g)) (Z.to_nat (qy g)) a.

(** A level whose three arrays are allocated on its well-formed grid. *)
Definition level_ok (d : ccData2d) : Prop :=
  grid_ok (grid d) /\
  on_grid (grid d) (var_v d) /\ on_grid (grid d) (var_f d) /\ on_grid (grid d) (var_r d).

(** The solver with level [level] replaced by [F] of it, and with the
    array [a] as that level's v, f or r. *)
Definition on_level (level : nat) (F : ccData2d -> ccData2d) (self : ccMG2d) : ccMG2d :=
  set_grids (alter F level (grids self)) self.
Definition put_v (level : nat) (a : ndarray) : ccMG2d -> ccMG2d :=
  on_level level (set_var_v a).
Definition put_f (level : nat) (a : ndarray) : ccMG2d -> ccMG2d :=
  on_level level (set_var_f a).
Definition put_r (level : nat) (a : ndarray) : ccMG2d -> ccMG2d :=
  on_level level (set_var_r a).

(** Smoothing and the residual, as steps on one level. *)
Definition smooth_level `{PatchAPI} (alpha beta : float) (n : nat) (d : ccData2d)
    : ccData2d :=
  set_var_v (smooth alpha beta (BCs d) (grid d) n (var_f d) (var_v d)) d.

Definition residual_level (alpha beta : float) (d : ccData2d) : ccData2d :=
  set_var_r (residual alpha beta (grid d) (var_f d) (var_v d) (var_r d)) d.

(** *** The V-cycle, level by level *)
Section Hierarchy.
Context `{PatchAPI}.

(** The residual computed only for the diagnostic output of a verbose run. *)
Definition diagnostic_residual (level : nat) (self : ccMG2d) : ccMG2d :=
  if truthy (verbose self)
  then on_level level (residual_level (alpha self) (beta self)) self
  else self.

Definition smooth_on (level : nat) (self : ccMG2d) : ccMG2d :=
  on_level level
    (smooth_level (alpha self) (beta self) (Z.to_nat (nsmooth self))) self.

Definition residual_on (level : nat) (self : ccMG2d) : ccMG2d :=
  on_level level (residual_level (alpha self) (beta self)) self.

(** Pre-cycle: v is zeroed on every level except the finest. *)
Definition zero_below (top : nat) (self : ccMG2d) : ccMG2d :=
  set_grids
    (imap (fun l d => if (l <? top)%nat then set_var_v (fill zero (var_v d)) d else d)
       (grids self))
    self.

Definition zero_coarse (self : ccMG2d) : ccMG2d :=
  zero_below (nlevels self - 1) self.

(** Descent on one level: smooth, compute the residual r, set the coarser
    level's f to restrict(r). *)
Definition restrict_on (level : nat) (self : ccMG2d) : ccMG2d :=
  match grids self !! level with
  | Some fine => put_f (level - 1) (restrict (grid fine) (var_r fine)) self
  | None => self
  end.

Definition descent_level (self : ccMG2d) (level : nat) : ccMG2d :=
  restrict_on level
    (residual_on level (smooth_on level (diagnostic_residual level self))).

(** Descent: levels [top] down to 1. *)
Definition descent_from (top : nat) (self : ccMG2d) : ccMG2d :=
  foldl descent_level self (reverse (seq 1 top)).

Definition descent (self : ccMG2d) : ccMG2d :=
  descent_from (nlevels self - 1) self.

(** Bottom solve: the cells of row ilo of the level-0 v receive
    −0.125·f·dx², then the ghost cells are filled. *)
Definition bottom_cells (d : ccData2d) : ndarray :=
  update_cells (fun i _ => Z.of_nat i =? ilo (grid d))
    (fun i j => fmul (fmul (fmul m0125 (item (var_f d) i j)) (dx (grid d))) (dx (grid d)))
    (var_v d).

Definition bottom (self : ccMG2d) : ccMG2d :=
  on_level 0
    (fun d => set_var_v (fill_ghosts (BCs d) (grid d) (bottom_cells d)) d) self.

(** Ascent on one level: add the prolonged coarser v to v, then smooth. *)
Definition correct_on (level : nat) (self : ccMG2d) : ccMG2d :=
  match grids self !! (level - 1)%nat with
  | Some coarse =>
      let e := prolong (grid coarse) (var_v coarse) in
      on_level level
        (fun d => set_var_v
                    (update_cells (fun _ _ => true)
                       (fun i j => fadd (item (var_v d) i j) (item e i j))
                       (var_v d)) d)
        self
  | None => self
  end.

Definition ascent_level (self : ccMG2d) (level : nat) : ccMG2d :=
  diagnostic_residual level
    (smooth_on level (diagnostic_residual level (correct_on level self))).

(** Ascent: levels 1 up to [top]. *)
Definition ascent_to (top : nat) (self : ccMG2d) : ccMG2d :=
  foldl ascent_level self (seq 1 top).

Definition ascent (self : ccMG2d) : ccMG2d := ascent_to (nlevels self - 1) self.

(** One V-cycle: pre-cycle zeroing, descent, bottom solve, ascent. *)
Definition vcycle (self : ccMG2d) : ccMG2d :=
  ascent (bottom (descent (zero_coarse self))).

End Hierarchy.

(** *** The cycles of [solve] *)
Section Solve.
Context `{NumPy} `{PatchAPI}.

Definition finest (self : ccMG2d) : option ccData2d :=
  grids self !! (nlevels self - 1)%nat.

Definition finest_v (self : ccMG2d) : ndarray :=
  match finest self with Some d => var_v d | None => [] end.

(** The state at the end of a cycle, before the convergence test: one
    V-cycle, then the residual r on the finest level. *)
Definition cycle_end (self : ccMG2d) : ccMG2d :=
  residual_on (nlevels self - 1) (vcycle self).

Definition after_cycles (k : nat) (self : ccMG2d) : ccMG2d :=
  Nat.iter k cycle_end self.

(** residual_error = ‖r‖/‖f‖ on the finest level, and ‖r‖ when ‖f‖ = 0. *)
Definition residual_error (self : ccMG2d) : float :=
  match finest self with
  | Some d =>
      if fneb (sourceNorm self) zero
      then fdiv (error (grid d) (var_r d)) (sourceNorm self)
      else error (grid d) (var_r d)
  | None => NaN
  end.

(** relative_error = ‖(v − v_prev)/(v + ε)‖ on the finest level. *)
Definition relative_error (v_prev : ndarray) (self : ccMG2d) : float :=
  match finest self with
  | Some d =>
      error (grid d)
        (update_cells (fun _ _ => true)
           (fun i j => fdiv (fsub (item (var_v d) i j) (item v_prev i j))
                            (fadd (item (var_v d) i j) (small self)))
           (var_v d))
  | None => NaN
  end.

(** The outcome of a cycle that converges, the cycle being number [cycle]
    and [prev] the state before it: the diagnostics are recorded and the
    ghost cells of the finest v are filled. *)
Definition fill_finest (self : ccMG2d) : ccMG2d :=
  on_level (nlevels self - 1)
    (fun d => set_var_v (fill_ghosts (BCs d) (grid d) (var_v d)) d) self.

Definition converged_at (cycle : Z) (prev : ccMG2d) : ccMG2d :=
  let s := cycle_end prev in
  fill_finest
    (set_diagnostics cycle (relative_error (finest_v prev) s) (residual_error s) s).

End Solve.

(** The hierarchy as [__init__] builds it: level [l] has a 2^l by 2^l
    interior and one ghost layer. *)
Definition hierarchy_ok (self : ccMG2d) : Prop :=
  (1 <= nlevels self)%nat /\
  length (grids self) = nlevels self /\
  forall l d, grids self !! l = Some d ->
    level_ok d /\
    nx (grid d) = 2 ^ Z.of_nat l /\ ny (grid d) = 2 ^ Z.of_nat l /\ ng (grid d) = 1.

End Spec.

(** ** incompressible/simulation.py *)
Module Incompressible.
Import Float Py NP Patch.
Local Open Scope py_scope.

(** The runtime parameters the class reads through [rp.get_param], as typed
    fields (spec: "an opaque lookup that returns typed parameters by name"). *)
Record RuntimeParameters : Type := mk_rp {
  mesh_nx : Z; mesh_ny : Z;
  mesh_xmin : float; mesh_xmax : float; mesh_ymin : float; mesh_ymax : float;
  mesh_xlboundary : string; mesh_xrboundary : string;
  mesh_ylboundary : string; mesh_yrboundary : string;
  driver_cfl : float;
  incompressible_limiter : Z;
  incompressible_proj_type : Z
}.

(** The [CellCenterData2d] of the flow: the six registered variables, the
    boundary-condition object of each, and the simulation time. *)
Record CellCenterData2d : Type := mk_cc {
  grid : grid2d;
  x_velocity : ndarray;
  y_velocity : ndarray;
  phi_MAC : ndarray;
  phi : ndarray;
  gradp_x : ndarray;
  gradp_y : ndarray;
  bc : bcObject;
  bc_xodd : bcObject;
  bc_yodd : bcObject;
  t : float
}.

Definition set_x_velocity (a : ndarray) (d : CellCenterData2d) : CellCenterData2d :=
  {| grid := grid d; x_velocity := a; y_velocity := y_velocity d;
     phi_MAC := phi_MAC d; phi := phi d; gradp_x := gradp_x d; gradp_y := gradp_y d;
     bc := bc d; bc_xodd := bc_xodd d; bc_yodd := bc_yodd d; t := t d |}.
Definition set_y_velocity (a : ndarray) (d : CellCenterData2d) : CellCenterData2d :=
  {| grid := grid d; x_velocity := x_velocity d; y_velocity := a;
     phi_MAC := phi_MAC d; phi := phi d; gradp_x := gradp_x d; gradp_y := gradp_y d;
     bc := bc d; bc_xodd := bc_xodd d; bc_yodd := bc_yodd d; t := t d |}.
Definition set_phi_MAC (a : ndarray) (d : CellCenterData2d) : CellCenterData2d :=
  {| grid := grid d; x_velocity := x_velocity d; y_velocity := y_velocity d;
     phi_MAC := a; phi := phi d; gradp_x := gradp_x d; gradp_y := gradp_y d;
     bc := bc d; bc_xodd := bc_xodd d; bc_yodd := bc_yodd d; t := t d |}.
Definition set_phi (a : ndarray) (d : CellCenterData2d) : CellCenterData2d :=
  {| grid := grid d; x_velocity := x_velocity d; y_velocity := y_velocity d;
     phi_MAC := phi_MAC d; phi := a; gradp_x := gradp_x d; gradp_y := gradp_y d;
     bc := bc d; bc_xodd := bc_xodd d; bc_yodd := bc_yodd d; t := t d |}.
Definition set_gradp_x (a : ndarray) (d : CellCenterData2d) : CellCenterData2d :=
  {| grid := grid d; x_velocity := x_velocity d; y_velocity := y_velocity d;
     phi_MAC := phi_MAC d; phi := phi d; gradp_x := a; gradp_y := gradp_y d;
     bc := bc d; bc_xodd := bc_xodd d; bc_yodd := bc_yodd d; t := t d |}.
Definition set_gradp_y (a : ndarray) (d : CellCenterData2d) : CellCenterData2d :=
  {| grid := grid d; x_velocity := x_velocity d; y_velocity := y_velocity d;
     phi_MAC := phi_MAC d; phi := phi d; gradp_x := gradp_x d; gradp_y := a;
     bc := bc d; bc_xodd := bc_xodd d; bc_yodd := bc_yodd d; t := t d |}.

(** Modelled from the spec: [cell_center_data_clone] of mesh/patch.py is
    missing. "The clone flow state operation is a deep copy of every owned
    CellArray; no shared mutable aliasing." *)
Definition cell_center_data_clone (d : CellCenterData2d) : CellCenterData2d := d.

(** The attributes of a [Simulation]; [cc_data] is [None] until
    [initialize] has run. *)
Record Simulation : Type := mk_sim {
  rp : RuntimeParameters;
  cc_data : option CellCenterData2d;
  problem_name : string
}.

Definition set_cc_data (d : CellCenterData2d) (s : Simulation) : Simulation :=
  {| rp := rp s; cc_data := Some d; problem_name := problem_name s |}.

(** The collaborators whose code is not among the sources, as parameters:
    the slope limiters of [reconstruction_f], the kernels [mac_vels] and
    [states] of [incomp_interface_f], the [init_data] of the problem named
    by [problem_name], and [create], which stands for the allocation of the
    six variables by [CellCenterData2d], [register_var] and [create] of
    mesh/patch.py. *)
Class Kernels : Type := {
  nolimit : Z -> ndarray -> Z -> Z -> Z -> ndarray;
  limit2 : Z -> ndarray -> Z -> Z -> Z -> ndarray;
  limit4 : Z -> ndarray -> Z -> Z -> Z -> ndarray;
  mac_vels : Z -> Z -> Z -> float -> float -> float ->
             ndarray -> ndarray -> ndarray -> ndarray -> ndarray -> ndarray ->
             ndarray -> ndarray -> ndarray * ndarray;
  states : Z -> Z -> Z -> float -> float -> float ->
           ndarray -> ndarray -> ndarray -> ndarray -> ndarray -> ndarray ->
           ndarray -> ndarray -> ndarray -> ndarray ->
           ndarray * ndarray * ndarray * ndarray;
  init_data : string -> CellCenterData2d -> RuntimeParameters -> outcome CellCenterData2d;
  create : grid2d -> bcObject -> bcObject -> bcObject -> CellCenterData2d
}.

Definition __init__ (problem_name : string) (rp : RuntimeParameters) : Simulation :=
  {| rp := rp; cc_data := None; problem_name := problem_name |}.

(** [self.cc_data], which must not be [None] for its attributes to be read. *)
Definition data : M Simulation CellCenterData2d :=
  fun self =>
    match cc_data self with
    | Some d => (Ok d, self)
    | None => (Raise (AttributeError "'NoneType' object has no attribute"), self)
    end.

(** A write through a pointer returned by [get_var]. *)
Definition store (set : ndarray -> CellCenterData2d -> CellCenterData2d) (a : ndarray)
    : M Simulation unit :=
  do d <- data;
  modify (set_cc_data (set a d)).

(** [initialize]. *)
Definition initialize `{Kernels} : M Simulation unit :=
  do self <- get;
  let rp := rp self in
  do my_grid <- lift (grid2d_new (mesh_nx rp) (mesh_ny rp) 4
                        (mesh_xmin rp) (mesh_xmax rp) (mesh_ymin rp) (mesh_ymax rp));
  let bc := {| xlb := mesh_xlboundary rp; xrb := mesh_xrboundary rp;
               ylb := mesh_ylboundary rp; yrb := mesh_yrboundary rp;
               odd_reflect_dir := "" |} in
  let bc_xodd := {| xlb := mesh_xlboundary rp; xrb := mesh_xrboundary rp;
                    ylb := mesh_ylboundary rp; yrb := mesh_yrboundary rp;
                    odd_reflect_dir := "x" |} in
  let bc_yodd := {| xlb := mesh_xlboundary rp; xrb := mesh_xrboundary rp;
                    ylb := mesh_ylboundary rp; yrb := mesh_yrboundary rp;
                    odd_reflect_dir := "y" |} in
  let my_data := create my_grid bc bc_xodd bc_yodd in
  modify (set_cc_data my_data);;
  do d <- lift (init_data (problem_name self) my_data rp);
  modify (set_cc_data d).

(** [timestep]: the advective (CFL) timestep. *)
Definition timestep : M Simulation float :=
  do self <- get;
  let cfl := driver_cfl (rp self) in
  do d <- data;
  let u := x_velocity d in
  let v := y_velocity d in
  let xtmp := sdiv (dx (grid d)) (abs u) in
  let ytmp := sdiv (dy (grid d)) (abs v) in
  do xmin <- lift (min xtmp);
  do ymin <- lift (min ytmp);
  ret (fmul cfl (pymin xmin ymin)).

(** A method call on a local multigrid object; the object after the call
    is returned with the result. *)
Definition call {A} (m : M Multigrid.ccMG2d A) (MG : Multigrid.ccMG2d)
    : M Simulation (A * Multigrid.ccMG2d) :=
  fun self =>
    match m MG with
    | (Ok a, MG') => (Ok (a, MG'), self)
    | (Raise e, _) => (Raise e, self)
    end.

(** The module [multigrid] as simulation.py addresses it. simulation.py
    calls [multigrid.CellCenterMG2d(myg.nx, myg.ny, xl_BC_type="periodic",
    ..., xmin=myg.xmin, ..., verbose=0)], calls [init_zeros], [init_RHS],
    [init_solution] and [get_solution] on the object and reads its
    [soln_grid]. The multigrid.py of this repository defines none of these
    names (its class is [ccMG2d], with [initZeros], [initRHS],
    [initSolution], [getSolution] and [solnGrid], and its constructor has no
    keyword [xl_BC_type]), so what the names are bound to is a parameter of
    the time stepper: [multigrid_as_given] is the module as it is, and
    [multigrid_renamed] the reading that binds each name to the method of
    [ccMG2d] it was renamed from. [solve], [ilo], [ihi], [jlo] and [jhi]
    are names that [ccMG2d] has. *)
Class MultigridNames : Type := {
  CellCenterMG2d : grid2d -> outcome Multigrid.ccMG2d;
  init_zeros : M Multigrid.ccMG2d unit;
  init_RHS : ndarray -> M Multigrid.ccMG2d unit;
  init_solution : ndarray -> M Multigrid.ccMG2d unit;
  get_solution : M Multigrid.ccMG2d ndarray;
  soln_grid : Multigrid.ccMG2d -> outcome grid2d
}.

(** multigrid.py as it is: the module has no attribute [CellCenterMG2d], and
    an instance of [ccMG2d] has none of the other names. *)
Definition multigrid_as_given : MultigridNames :=
  {| CellCenterMG2d := fun _ =>
       Raise (AttributeError "'module' object has no attribute 'CellCenterMG2d'");
     init_zeros := raise (AttributeError "ccMG2d instance has no attribute 'init_zeros'");
     init_RHS := fun _ =>
       raise (AttributeError "ccMG2d instance has no attribute 'init_RHS'");
     init_solution := fun _ =>
       raise (AttributeError "ccMG2d instance has no attribute 'init_solution'");
     get_solution :=
       raise (AttributeError "ccMG2d instance has no attribute 'get_solution'");
     soln_grid := fun _ =>
       Raise (AttributeError "ccMG2d instance has no attribute 'soln_grid'") |}.

(** The later names read as the methods of [ccMG2d]: [CellCenterMG2d] as its
    constructor (the four boundary keywords as [xlBCtype], ...,
    [yrBCtype]; alpha and beta at their defaults 0.0 and -1.0), [init_zeros]
    as [initZeros], [init_RHS] as [initRHS], [init_solution] as
    [initSolution], [get_solution] as [getSolution] and [soln_grid] as
    [solnGrid]. *)
Definition multigrid_renamed `{NumPy} `{PatchAPI} : MultigridNames :=
  {| CellCenterMG2d := fun myg =>
       Multigrid.__init__ (nx myg) (ny myg) (xmin myg) (xmax myg) (ymin myg) (ymax myg)
         "periodic" "periodic" "periodic" "periodic" zero (of_Z (-1)) 0;
     init_zeros := Multigrid.initZeros;
     init_RHS := Multigrid.initRHS;
     init_solution := Multigrid.initSolution;
     get_solution := Multigrid.getSolution;
     soln_grid := fun MG => Ok (Multigrid.solnGrid MG) |}.

(** [a[s1, s2] -= x]. *)
Definition isub (a : ndarray) (s1 s2 : slice) (x : ndarray) : outcome ndarray :=
  let? r := sub (getslice a s1 s2) x in
  setslice a s1 s2 r.

(** [a[s1, s2] += x]. *)
Definition iadd (a : ndarray) (s1 s2 : slice) (x : ndarray) : outcome ndarray :=
  let? r := add (getslice a s1 s2) x in
  setslice a s1 s2 r.

(** [self.cc_data.fill_BC(name)] for the two velocities. *)
Definition fill_BC_x_velocity `{PatchAPI} : M Simulation unit :=
  do d <- data;
  store set_x_velocity (fillBC (bc_xodd d) (grid d) (x_velocity d)).
Definition fill_BC_y_velocity `{PatchAPI} : M Simulation unit :=
  do d <- data;
  store set_y_velocity (fillBC (bc_yodd d) (grid d) (y_velocity d)).

(** The centred divergence
    [0.5*(u[ilo+1:ihi+2,J] - u[ilo-1:ihi,J])/dx + 0.5*(v[I,jlo+1:jhi+2] - v[I,jlo-1:jhi])/dy],
    written out in [preevolve] and in [evolve]. *)
Definition centered_div (myg : grid2d) (u v : ndarray) : outcome ndarray :=
  let I := Slice (ilo myg) (ihi myg + 1) 1 in
  let J := Slice (jlo myg) (jhi myg + 1) 1 in
  let? du := sub (getslice u (Slice (ilo myg + 1) (ihi myg + 2) 1) J)
                 (getslice u (Slice (ilo myg - 1) (ihi myg) 1) J) in
  let? dv := sub (getslice v I (Slice (jlo myg + 1) (jhi myg + 2) 1))
                 (getslice v I (Slice (jlo myg - 1) (jhi myg) 1)) in
  add (divs (smul half du) (dx myg)) (divs (smul half dv) (dy myg)).

(** The centred gradient of [phi]: the pair of right-hand sides
    [0.5*(phi[ilo+1:ihi+2,J] - phi[ilo-1:ihi,J])/dx] and
    [0.5*(phi[I,jlo+1:jhi+2] - phi[I,jlo-1:jhi])/dy], each stored in the
    interior of a scratch array. *)
Definition centered_grad (myg : grid2d) (phi : ndarray) : outcome (ndarray * ndarray) :=
  let I := Slice (ilo myg) (ihi myg + 1) 1 in
  let J := Slice (jlo myg) (jhi myg + 1) 1 in
  let? dpx := sub (getslice phi (Slice (ilo myg + 1) (ihi myg + 2) 1) J)
                  (getslice phi (Slice (ilo myg - 1) (ihi myg) 1) J) in
  let? gx := setslice (scratch_array myg) I J (divs (smul half dpx) (dx myg)) in
  let? dpy := sub (getslice phi I (Slice (jlo myg + 1) (jhi myg + 2) 1))
                  (getslice phi I (Slice (jlo myg - 1) (jhi myg) 1)) in
  let? gy := setslice (scratch_array myg) I J (divs (smul half dpy) (dy myg)) in
  Ok (gx, gy).

(** [dst[ilo-1:ihi+2, jlo-1:jhi+2] = solution[MG.ilo-1:MG.ihi+2, MG.jlo-1:MG.jhi+2]]. *)
Definition copy_one_ghost (myg mgg : grid2d) (dst solution : ndarray) : outcome ndarray :=
  setslice dst (Slice (ilo myg - 1) (ihi myg + 2) 1) (Slice (jlo myg - 1) (jhi myg + 2) 1)
    (getslice solution (Slice (ilo mgg - 1) (ihi mgg + 2) 1)
                       (Slice (jlo mgg - 1) (jhi mgg + 2) 1)).

(** The advective term
    [0.5*(a_MAC[lo] + a_MAC[hi]) * (q_xint[hi] - q_xint[lo])/dx
     + 0.5*(b_MAC[lo] + b_MAC[hi]) * (q_yint[hi] - q_yint[lo])/dy]. *)
Definition advect (myg : grid2d) (u_MAC v_MAC q_xint q_yint : ndarray) : outcome ndarray :=
  let I := Slice (ilo myg) (ihi myg + 1) 1 in
  let J := Slice (jlo myg) (jhi myg + 1) 1 in
  let I1 := Slice (ilo myg + 1) (ihi myg + 2) 1 in
  let J1 := Slice (jlo myg + 1) (jhi myg + 2) 1 in
  let? su := add (getslice u_MAC I J) (getslice u_MAC I1 J) in
  let? dq := sub (getslice q_xint I1 J) (getslice q_xint I J) in
  let? px := mul (smul half su) dq in
  let? sv := add (getslice v_MAC I J) (getslice v_MAC I J1) in
  let? dr := sub (getslice q_yint I J1) (getslice q_yint I J) in
  let? py := mul (smul half sv) dr in
  let? rhs := add (divs px (dx myg)) (divs py (dy myg)) in
  setslice (scratch_array myg) I J rhs.

(** [evolve]: one timestep of the incompressible equations. *)
Definition evolve `{NumPy} `{PatchAPI} `{Kernels} `{MN : MultigridNames} (dt : float)
    : M Simulation unit :=
  do d <- data;
  do self <- get;
  let myg := grid d in
  (* [dt] is read as the numpy.float64 that [timestep] returns, so
     [dt/myg.dx] is a numpy division: an infinity at dx = 0, no exception *)
  let dtdx := fdiv dt (dx myg) in
  let dtdy := fdiv dt (dy myg) in
  (* the limited slopes *)
  let limiter := incompressible_limiter (rp self) in
  let limitFunc :=
    if limiter =? 0 then nolimit
    else if limiter =? 1 then limit2
    else limit4 in
  let u := x_velocity d in
  let v := y_velocity d in
  let ldelta_ux := limitFunc 1 u (qx myg) (qy myg) (ng myg) in
  let ldelta_vx := limitFunc 1 v (qx myg) (qy myg) (ng myg) in
  let ldelta_uy := limitFunc 2 u (qx myg) (qy myg) (ng myg) in
  let ldelta_vy := limitFunc 2 v (qx myg) (qy myg) (ng myg) in
  (* the advective velocities *)
  let MAC := mac_vels (qx myg) (qy myg) (ng myg) (dx myg) (dy myg) dt u v
               ldelta_ux ldelta_vx ldelta_uy ldelta_vy (gradp_x d) (gradp_y d) in
  let u_MAC := fst MAC in
  let v_MAC := snd MAC in
  (* the MAC projection *)
  do MG <- lift (CellCenterMG2d myg);
  let mgg := Multigrid.solnGrid MG in
  let I := Slice (ilo myg) (ihi myg + 1) 1 in
  let J := Slice (jlo myg) (jhi myg + 1) 1 in
  do sg <- lift (soln_grid MG);
  do divU <- lift (
    let? du := sub (getslice u_MAC (Slice (ilo myg + 1) (ihi myg + 2) 1) J)
                   (getslice u_MAC I J) in
    let? dv := sub (getslice v_MAC I (Slice (jlo myg + 1) (jhi myg + 2) 1))
                   (getslice v_MAC I J) in
    let? rhs := add (divs du (dx myg)) (divs dv (dy myg)) in
    setslice (scratch_array sg) (Slice (ilo mgg) (ihi mgg + 1) 1)
      (Slice (jlo mgg) (jhi mgg + 1) 1) rhs);
  do r1 <- call init_zeros MG;
  do r2 <- call (init_RHS divU) (snd r1);
  do r3 <- call (Multigrid.solve (dec 1 (10 ^ 12))) (snd r2);
  do r4 <- call get_solution (snd r3);
  let solution := fst r4 in
  do phi_MAC <- lift (copy_one_ghost myg mgg (phi_MAC d) solution);
  store set_phi_MAC phi_MAC;;
  do u_MAC <- lift (
    let? dphi := sub (getslice phi_MAC (Slice (ilo myg) (ihi myg + 2) 1) J)
                     (getslice phi_MAC (Slice (ilo myg - 1) (ihi myg + 1) 1) J) in
    isub u_MAC (Slice (ilo myg) (ihi myg + 2) 1) J (divs dphi (dx myg)));
  do v_MAC <- lift (
    let? dphi := sub (getslice phi_MAC I (Slice (jlo myg) (jhi myg + 2) 1))
                     (getslice phi_MAC I (Slice (jlo myg - 1) (jhi myg + 1) 1)) in
    isub v_MAC I (Slice (jlo myg) (jhi myg + 2) 1) (divs dphi (dy myg)));
  (* the interface states *)
  let st := states (qx myg) (qy myg) (ng myg) (dx myg) (dy myg) dt u v
              ldelta_ux ldelta_vx ldelta_uy ldelta_vy (gradp_x d) (gradp_y d)
              u_MAC v_MAC in
  let u_xint := fst (fst (fst st)) in
  let v_xint := snd (fst (fst st)) in
  let u_yint := snd (fst st) in
  let v_yint := snd st in
  (* the provisional update *)
  do advect_x <- lift (advect myg u_MAC v_MAC u_xint u_yint);
  do advect_y <- lift (advect myg u_MAC v_MAC v_xint v_yint);
  let proj_type := incompressible_proj_type (rp self) in
  (if proj_type =? 1 then
     (do a <- lift (add (smul dt (getslice advect_x All All))
                        (smul dt (getslice (gradp_x d) All All)));
      do u <- lift (isub u All All a);
      store set_x_velocity u);;
     (do a <- lift (add (smul dt (getslice advect_y All All))
                        (smul dt (getslice (gradp_y d) All All)));
      do v <- lift (isub v All All a);
      store set_y_velocity v)
   else if proj_type =? 2 then
     (do u <- lift (isub u All All (smul dt (getslice advect_x All All)));
      store set_x_velocity u);;
     (do v <- lift (isub v All All (smul dt (getslice advect_y All All)));
      store set_y_velocity v)
   else ret tt);;
  fill_BC_x_velocity;;
  fill_BC_y_velocity;;
  (* the final projection *)
  do MG <- lift (CellCenterMG2d myg);
  let mgg := Multigrid.solnGrid MG in
  do d1 <- data;
  do rhs <- lift (centered_div myg (x_velocity d1) (y_velocity d1));
  do divU <- lift (setslice divU (Slice (ilo mgg) (ihi mgg + 1) 1)
                     (Slice (jlo mgg) (jhi mgg + 1) 1) rhs);
  do r1 <- call (init_RHS (divs divU dt)) MG;
  do sg <- lift (soln_grid (snd r1));
  do phiGuess <- lift (
    setslice (scratch_array sg)
      (Slice (ilo mgg - 1) (ihi mgg + 2) 1) (Slice (jlo mgg - 1) (jhi mgg + 2) 1)
      (getslice (phi d1) (Slice (ilo myg - 1) (ihi myg + 2) 1)
                         (Slice (jlo myg - 1) (jhi myg + 2) 1)));
  do r2 <- call (init_solution phiGuess) (snd r1);
  do r3 <- call (Multigrid.solve (dec 1 (10 ^ 12))) (snd r2);
  do r4 <- call get_solution (snd r3);
  let solution := fst r4 in
  do phi <- lift (copy_one_ghost myg mgg (phi d1) solution);
  store set_phi phi;;
  do g <- lift (centered_grad myg phi);
  let gradphi_x := fst g in
  let gradphi_y := snd g in
  (do u <- lift (isub (x_velocity d1) All All (smul dt gradphi_x));
   store set_x_velocity u);;
  (do v <- lift (isub (y_velocity d1) All All (smul dt gradphi_y));
   store set_y_velocity v);;
  (if proj_type =? 1 then
     (do gx <- lift (iadd (gradp_x d1) All All (getslice gradphi_x All All));
      store set_gradp_x gx);;
     (do gy <- lift (iadd (gradp_y d1) All All (getslice gradphi_y All All));
      store set_gradp_y gy)
   else if proj_type =? 2 then
     (do gx <- lift (setslice (gradp_x d1) All All (getslice gradphi_x All All));
      store set_gradp_x gx);;
     (do gy <- lift (setslice (gradp_y d1) All All (getslice gradphi_y All All));
      store set_gradp_y gy)
   else ret tt);;
  fill_BC_x_velocity;;
  fill_BC_y_velocity.

(** Step 1 of [preevolve]: the initial projection, which makes the velocity
    field satisfy div U = 0. *)
Definition initial_projection `{NumPy} `{PatchAPI} `{MN : MultigridNames}
    : M Simulation unit :=
  do d <- data;
  let myg := grid d in
  fill_BC_x_velocity;;
  fill_BC_y_velocity;;
  do MG <- lift (CellCenterMG2d myg);
  let mgg := Multigrid.solnGrid MG in
  do d1 <- data;
  do sg <- lift (soln_grid MG);
  do rhs <- lift (centered_div myg (x_velocity d1) (y_velocity d1));
  do divU <- lift (setslice (scratch_array sg)
                     (Slice (ilo mgg) (ihi mgg + 1) 1) (Slice (jlo mgg) (jhi mgg + 1) 1)
                     rhs);
  do r1 <- call init_zeros MG;
  do r2 <- call (init_RHS divU) (snd r1);
  do r3 <- call (Multigrid.solve (dec 1 (10 ^ 10))) (snd r2);
  do r4 <- call get_solution (snd r3);
  let solution := fst r4 in
  do phi <- lift (copy_one_ghost myg mgg (phi d1) solution);
  store set_phi phi;;
  do g <- lift (centered_grad myg phi);
  (do u <- lift (isub (x_velocity d1) All All (fst g));
   store set_x_velocity u);;
  (do v <- lift (isub (y_velocity d1) All All (snd g));
   store set_y_velocity v);;
  fill_BC_x_velocity;;
  fill_BC_y_velocity.

(** [preevolve]: the initial projection, then (step 2) one evolve whose only
    lasting effect is the pressure gradient. *)
Definition preevolve `{NumPy} `{PatchAPI} `{Kernels} `{MN : MultigridNames}
    : M Simulation unit :=
  initial_projection;;
  do d2 <- data;
  let orig_data := cell_center_data_clone d2 in
  do dt <- timestep;
  evolve dt;;
  do d3 <- data;
  let new_gp_x := gradp_x d3 in
  let new_gp_y := gradp_y d3 in
  do orig_gp_x <- lift (setslice (gradp_x orig_data) All All (getslice new_gp_x All All));
  do orig_gp_y <- lift (setslice (gradp_y orig_data) All All (getslice new_gp_y All All));
  modify (set_cc_data (set_gradp_y orig_gp_y (set_gradp_x orig_gp_x orig_data))).

End Incompressible.

(** ** The specification of the time stepper, cell by cell *)
Module SpecFlow.
Import Float Py NP Patch Incompressible.

(** The cells (i, j) with i from [rows] and j from [cols], row by row. *)
Definition cells (rows cols : list nat) : list (nat * nat) :=
  flat_map (fun i => (fun j => (i, j)) <$> cols) rows.

(** Every cell of an array on [g], ghost cells included. *)
Definition all_cells (g : grid2d) : list (nat * nat) :=
  cells (seq 0 (Z.to_nat (qx g))) (seq 0 (Z.to_nat (qy g))).

(** The interior cells of [g]. *)
Definition interior_cells (g : grid2d) : list (nat * nat) :=
  cells (seq (Z.to_nat (ilo g)) (Z.to_nat (nx g)))
        (seq (Z.to_nat (jlo g)) (Z.to_nat (ny g))).

(** The minimum of [F] over the cells [cs]; [None] when there is none. *)
Definition min_over (cs : list (nat * nat)) (F : nat -> nat -> float) : option float :=
  match (fun c : nat * nat => F c.1 c.2) <$> cs with
  | [] => None
  | x :: l => Some (foldl npmin x l)
  end.

(** Δt = cfl · min(min(dx/|u|), min(dy/|v|)), the minima over [cs]. *)
Definition cfl_timestep (cfl : float) (d : CellCenterData2d) (cs : list (nat * nat))
    : option float :=
  match min_over cs (fun i j => fdiv (dx (grid d)) (fabs (item (x_velocity d) i j))),
        min_over cs (fun i j => fdiv (dy (grid d)) (fabs (item (y_velocity d) i j)))
  with
  | Some mx, Some my => Some (fmul cfl (pymin mx my))
  | _, _ => None
  end.

(** The flow state [preevolve] leaves: every field of the clone [orig],
    except the pressure gradient, taken from the evolved state. *)
Definition restored (orig evolved : CellCenterData2d) : CellCenterData2d :=
  set_gradp_y (gradp_y evolved) (set_gradp_x (gradp_x evolved) orig).

(** The simulation with [proj_type] set to [p] in its configuration. *)
Definition with_proj_type (p : Z) (self : Simulation) : Simulation :=
  let r := rp self in
  {| rp := {| mesh_nx := mesh_nx r; mesh_ny := mesh_ny r;
              mesh_xmin := mesh_xmin r; mesh_xmax := mesh_xmax r;
              mesh_ymin := mesh_ymin r; mesh_ymax := mesh_ymax r;
              mesh_xlboundary := mesh_xlboundary r; mesh_xrboundary := mesh_xrboundary r;
              mesh_ylboundary := mesh_ylboundary r; mesh_yrboundary := mesh_yrboundary r;
              driver_cfl := driver_cfl r;
              incompressible_limiter := incompressible_limiter r;
              incompressible_proj_type := p |};
     cc_data := cc_data self;
     problem_name := problem_name self |}.

(** The simulation with [limiter] set to [l] in its configuration. *)
Definition with_limiter (l : Z) (self : Simulation) : Simulation :=
  let r := rp self in
  {| rp := {| mesh_nx := mesh_nx r; mesh_ny := mesh_ny r;
              mesh_xmin := mesh_xmin r; mesh_xmax := mesh_xmax r;
              mesh_ymin := mesh_ymin r; mesh_ymax := mesh_ymax r;
              mesh_xlboundary := mesh_xlboundary r; mesh_xrboundary := mesh_xrboundary r;
              mesh_ylboundary := mesh_ylboundary r; mesh_yrboundary := mesh_yrboundary r;
              driver_cfl := driver_cfl r;
              incompressible_limiter := l;
              incompressible_proj_type := incompressible_proj_type r |};
     cc_data := cc_data self;
     problem_name := problem_name self |}.

(** The stored simulation time. *)
Definition time (self : Simulation) : option float := t <$> cc_data self.

End SpecFlow.

(** ** Decidable forms of the well-formedness conditions *)
Module Check.
Import Float Py NP Multigrid Patch Spec.

Definition rectb (n m : nat) (a : ndarray) : bool :=
  (length a =? n)%nat && forallb (fun row : list float => (length row =? m)%nat) a.

Definition grid_okb (g : grid2d) : bool :=
  (1 <=? ng g) && (1 <=? nx g) && (1 <=? ny g)
  && (qx g =? nx g + 2 * ng g) && (qy g =? ny g + 2 * ng g)
  && (ilo g =? ng g) && (ihi g =? ng g + nx g - 1)
  && (jlo g =? ng g) && (jhi g =? ng g + ny g - 1)
  && negb (feqb (fmul (dx g) (dx g)) zero)
  && negb (feqb (fmul (dy g) (dy g)) zero).

Definition on_gridb (g : grid2d) (a : ndarray) : bool :=
  rectb (Z.to_nat (qx g)) (Z.to_nat (qy g)) a.

Definition level_okb (d : ccData2d) : bool :=
  grid_okb (grid d)
  && on_gridb (grid d) (var_v d) && on_gridb (grid d) (var_f d)
  && on_gridb (grid d) (var_r d).

Definition hierarchy_okb (self : ccMG2d) : bool :=
  (1 <=? nlevels self)%nat
  && (length (grids self) =? nlevels self)%nat
  && forallb (fun p : nat * ccData2d =>
                level_okb p.2
                && (nx (grid p.2) =? 2 ^ Z.of_nat p.1)
                && (ny (grid p.2) =? 2 ^ Z.of_nat p.1)
                && (ng (grid p.2) =? 1))
       (imap pair (grids self)).

End Check.

(** ** Concrete solvers and flows *)
Module Examples.
Import Float Py NP Multigrid Patch Mesh Incompressible.
Local Open Scope py_scope.

(** An array that holds [c] everywhere. *)
Definition const (c : float) (n m : nat) : ndarray := replicate n (replicate m c).

(** [ccMG2d(nx, nx, alpha=..., beta=..., ...)] on the unit square with
    periodic boundaries, and a placeholder for a construction that raises. *)
Definition new_mg (nx : Z) (alpha beta : float) : outcome ccMG2d :=
  Multigrid.__init__ nx nx zero (of_Z 1) zero (of_Z 1)
    "periodic" "periodic" "periodic" "periodic" alpha beta 0.

Definition no_grid : grid2d :=
  {| nx := 0; ny := 0; ng := 0; qx := 0; qy := 0;
     xmin := zero; xmax := zero; ymin := zero; ymax := zero;
     ilo := 0; ihi := 0; jlo := 0; jhi := 0; dx := zero; dy := zero |}.

Definition no_mg : ccMG2d :=
  {| Multigrid.nx := 0; Multigrid.ny := 0; Multigrid.ng := 0;
     Multigrid.xmin := zero; Multigrid.xmax := zero;
     Multigrid.ymin := zero; Multigrid.ymax := zero;
     alpha := zero; beta := zero; nsmooth := 0; maxCycles := 0; verbose := 0;
     small := zero; initializedSolution := 0; initializedRHS := 0;
     nlevels := 0; grids := []; solnGrid := no_grid; sourceNorm := zero;
     numCycles := 0; residualError := zero; relativeError := zero |}.

Definition built (o : outcome ccMG2d) : ccMG2d :=
  match o with Ok mg => mg | Raise _ => no_mg end.

(** A solver that was constructed and never initialized. *)
Definition fresh2 : ccMG2d := built (new_mg 2 zero (of_Z (-1))).

(** The Poisson problem on the 2 by 2 grid with a checkerboard source. *)
Definition checker4 : ndarray :=
  [ [zero; zero; zero; zero];
    [zero; of_Z 1; of_Z (-1); zero];
    [zero; of_Z (-1); of_Z 1; zero];
    [zero; zero; zero; zero] ].

Definition poisson2 : ccMG2d :=
  snd ((initZeros;; initRHS checker4) fresh2).

(** The Poisson problem on the 4 by 4 grid (three levels), one source cell
    against another. *)
Definition dipole6 : ndarray :=
  [ [zero; zero; zero; zero; zero; zero];
    [zero; of_Z 1; zero; zero; zero; zero];
    [zero; zero; zero; zero; zero; zero];
    [zero; zero; zero; of_Z (-1); zero; zero];
    [zero; zero; zero; zero; zero; zero];
    [zero; zero; zero; zero; zero; zero] ].

Definition poisson4 : ccMG2d :=
  snd ((initZeros;; initRHS dipole6) (built (new_mg 4 zero (of_Z (-1))))).

(** The Laplace problem with the zero solution as the initial guess. *)
Definition laplace2 : ccMG2d :=
  snd ((initZeros;; initRHS (const zero 4 4)) fresh2).

(** A solver whose solution was set and whose source was not. *)
Definition half_initialized2 : ccMG2d := snd (initZeros fresh2).

(** A Helmholtz problem with alpha = 16 and beta = -1: on this grid
    beta/dx² = -4, so the diagonal coefficient alpha + 2 beta/dx² + 2 beta/dy²
    is zero; v = 1 and f = alpha v = 16. *)
Definition singular2 : ccMG2d :=
  snd ((initSolution (const (of_Z 1) 4 4);; initRHS (const (of_Z 16) 4 4))
         (built (new_mg 2 (of_Z 16) (of_Z (-1))))).

(** The data of level [level], and a placeholder. *)
Definition no_level : ccData2d :=
  {| Patch.grid := no_grid;
     BCs := {| xlb := ""; xrb := ""; ylb := ""; yrb := ""; odd_reflect_dir := "" |};
     var_v := []; var_f := []; var_r := [] |}.

Definition level_of (mg : ccMG2d) (level : nat) : ccData2d :=
  default no_level (grids mg !! level).

(** First-order stand-ins for the compiled kernels: no slopes, and the cell
    values as the face values. [create] allocates zeroed arrays at time 0
    and [init_data] leaves them as they are. *)
#[export] Instance donor_cell : Kernels :=
  {| nolimit := fun _ a _ _ _ => fill zero a;
     limit2 := fun _ a _ _ _ => fill zero a;
     limit4 := fun _ a _ _ _ => fill zero a;
     mac_vels := fun _ _ _ _ _ _ u v _ _ _ _ _ _ => (u, v);
     states := fun _ _ _ _ _ _ u v _ _ _ _ _ _ _ _ => (u, v, u, v);
     init_data := fun _ d _ => Ok d;
     create := fun g b bx bY =>
       {| Incompressible.grid := g;
          x_velocity := scratch_array g; y_velocity := scratch_array g;
          phi_MAC := scratch_array g; phi := scratch_array g;
          gradp_x := scratch_array g; gradp_y := scratch_array g;
          bc := b; bc_xodd := bx; bc_yodd := bY; t := zero |} |}.

(** A doubly periodic 2 by 2 flow grid on the unit square with cfl = 0.5. *)
Definition config (limiter proj_type : Z) : RuntimeParameters :=
  {| mesh_nx := 2; mesh_ny := 2;
     mesh_xmin := zero; mesh_xmax := of_Z 1; mesh_ymin := zero; mesh_ymax := of_Z 1;
     mesh_xlboundary := "periodic"; mesh_xrboundary := "periodic";
     mesh_ylboundary := "periodic"; mesh_yrboundary := "periodic";
     driver_cfl := half;
     incompressible_limiter := limiter;
     incompressible_proj_type := proj_type |}.

Definition initialized (limiter proj_type : Z) : Simulation :=
  snd (initialize (Incompressible.__init__ "uniform" (config limiter proj_type))).

Definition no_data : CellCenterData2d :=
  create no_grid
    {| xlb := ""; xrb := ""; ylb := ""; yrb := ""; odd_reflect_dir := "" |}
    {| xlb := ""; xrb := ""; ylb := ""; yrb := ""; odd_reflect_dir := "" |}
    {| xlb := ""; xrb := ""; ylb := ""; yrb := ""; odd_reflect_dir := "" |}.

Definition data_of (self : Simulation) : CellCenterData2d :=
  default no_data (cc_data self).

(** The uniform flow u = v = 1 with a stored pressure gradient (1, 0). *)
Definition uniform (limiter proj_type : Z) : Simulation :=
  let s := initialized limiter proj_type in
  let d := data_of s in
  set_cc_data
    (set_gradp_x (fill (of_Z 1) (gradp_x d))
       (set_y_velocity (fill (of_Z 1) (y_velocity d))
          (set_x_velocity (fill (of_Z 1) (x_velocity d)) d))) s.

(** u = 1 in the interior and 2 in the ghost cells; v = 1 everywhere. *)
Definition fast_ghosts : Simulation :=
  let s := initialized 0 1 in
  let d := data_of s in
  let g := Incompressible.grid d in
  set_cc_data
    (set_y_velocity (fill (of_Z 1) (y_velocity d))
       (set_x_velocity
          (Spec.update_cells (Spec.interior g) (fun _ _ => of_Z 1)
             (fill (of_Z 2) (x_velocity d))) d)) s.

End Examples.

(** ** Invariants of method bodies *)
Module Hoare.
Import Float Py NP Patch Incompressible.

(** [m] keeps the invariant [I], whether it returns or raises, and a value
    it returns satisfies [Q]. *)
Definition keeps {S : Type} (I : S -> Prop) {A} (m : M S A) (Q : A -> Prop) : Prop :=
  forall s, I s -> I (snd (m s)) /\ forall a, fst (m s) = Ok a -> Q a.

(** The part of the flow state that [evolve] is not to change in kind: the
    time, and the shapes of the two pressure-gradient arrays. *)
Definition flow_frame (t0 : float) (Dx Dy : list nat) (d : CellCenterData2d) : Prop :=
  t d = t0 /\ dims (gradp_x d) = Dx /\ dims (gradp_y d) = Dy.

Definition sim_frame (t0 : float) (Dx Dy : list nat) (self : Simulation) : Prop :=
  exists d, cc_data self = Some d /\ flow_frame t0 Dx Dy d.

End Hoare.

(** ** What the constructor and a solve leave behind *)
Module Problem.
Import Float Py NP Multigrid Patch Spec.


(** The right-hand side f of level [top], and of the finest level. *)
Definition f_at (top : nat) (s : ccMG2d) : option ndarray :=
  var_f <$> grids s !! top.

Definition finest_f (s : ccMG2d) : option ndarray := f_at (nlevels s - 1) s.

(** [s'] poses the problem [s] poses: the same coefficients, flags,
    parameters, solution grid, source norm and finest right-hand side. *)
Definition same_problem (s s' : ccMG2d) : Prop :=
  Multigrid.nx s' = Multigrid.nx s /\ Multigrid.ny s' = Multigrid.ny s
  /\ nlevels s' = nlevels s
  /\ alpha s' = alpha s /\ beta s' = beta s
  /\ nsmooth s' = nsmooth s /\ maxCycles s' = maxCycles s
  /\ initializedSolution s' = initializedSolution s
  /\ initializedRHS s' = initializedRHS s
  /\ solnGrid s' = solnGrid s /\ sourceNorm s' = sourceNorm s
  /\ finest_f s' = finest_f s.

End Problem.

(** ** Invariants of the flow state *)
Module FlowInvariant.
Import Float Py NP Patch Incompressible.

(** The configuration is [rp0] and the flow state exists and satisfies [J]. *)
Definition sim_inv (rp0 : RuntimeParameters) (J : CellCenterData2d -> Prop)
    (self : Simulation) : Prop :=
  rp self = rp0 /\ exists d, cc_data self = Some d /\ J d.

(** The stored pressure gradient is ([Gx], [Gy]). *)
Definition gradp_is (Gx Gy : ndarray) (d : CellCenterData2d) : Prop :=
  gradp_x d = Gx /\ gradp_y d = Gy.

(** The grid, the boundary-condition objects and the time of [d0]. *)
Definition same_mesh (d0 d : CellCenterData2d) : Prop :=
  grid d = grid d0 /\ bc d = bc d0 /\ bc_xodd d = bc_xodd d0
  /\ bc_yodd d = bc_yodd d0 /\ t d = t d0.

End FlowInvariant.

(** ** Further concrete solvers and flows *)
Module MoreExamples.
Import Float Py NP Multigrid Patch Mesh Incompressible Examples.
Local Open Scope py_scope.

(** The attribute assignment [mg.maxCycles = n]. *)
Definition set_maxCycles (n : Z) (s : ccMG2d) : ccMG2d :=
  {| Multigrid.nx := Multigrid.nx s; Multigrid.ny := Multigrid.ny s;
     Multigrid.ng := Multigrid.ng s;
     Multigrid.xmin := Multigrid.xmin s; Multigrid.xmax := Multigrid.xmax s;
     Multigrid.ymin := Multigrid.ymin s; Multigrid.ymax := Multigrid.ymax s;
     alpha := alpha s; beta := beta s; nsmooth := nsmooth s;
     maxCycles := n; verbose := verbose s; small := small s;
     initializedSolution := initializedSolution s;
     initializedRHS := initializedRHS s; nlevels := nlevels s;
     grids := grids s; solnGrid := solnGrid s; sourceNorm := sourceNorm s;
     numCycles := numCycles s; residualError := residualError s;
     relativeError := relativeError s |}.

(** The checkerboard problem with the cycles switched off. *)
Definition no_cycles2 : ccMG2d := set_maxCycles 0 poisson2.

(** The one-cell problem: nx = ny = 1, a single level. *)
Definition single1 : ccMG2d :=
  snd ((initZeros;; initRHS (const (of_Z 1) 3 3)) (built (new_mg 1 zero (of_Z (-1))))).

(** The checkerboard with other values in its ghost cells. *)
Definition checker4_ghosts : ndarray :=
  [ [of_Z 7; of_Z 7; of_Z 7; of_Z 7];
    [of_Z 7; of_Z 1; of_Z (-1); of_Z 7];
    [of_Z 7; of_Z (-1); of_Z 1; of_Z 7];
    [of_Z 7; of_Z 7; of_Z 7; of_Z 7] ].

(** A simulation that was constructed and not initialized. *)
Definition constructed : Simulation := Incompressible.__init__ "uniform" (config 0 1).

End MoreExamples.

(** * Properties *)

(** ** Lists addressed by index lists *)
Section Scatter.
Context {A B : Type}.
Implicit Types (upd : B -> A -> A) (idx : list nat) (rhs : list B) (l : list A).

Lemma length_scatter_with upd idx rhs l :
  length (NP.scatter_with upd idx rhs l) = length l.
Proof.
  revert rhs l. induction idx as [|i idx IH]; intros [|x rhs] l; simpl; auto.
  rewrite IH. apply length_alter.
Qed.

Lemma lookup_scatter_with_notin upd idx rhs l i :
  i ∉ idx -> NP.scatter_with upd idx rhs l !! i = l !! i.
Proof.
  revert rhs l. induction idx as [|i0 idx IH]; intros [|x rhs] l Hi; simpl; auto.
  apply not_elem_of_cons in Hi as [Hne Hi].
  rewrite IH by done. by apply list_lookup_alter_ne.
Qed.

Lemma lookup_scatter_with_in upd idx rhs l k i x :
  NoDup idx -> idx !! k = Some i -> rhs !! k = Some x ->
  NP.scatter_with upd idx rhs l !! i = upd x <$> l !! i.
Proof.
  revert rhs l k. induction idx as [|i0 idx IH]; intros rhs l k Hnd Hk Hx.
  { by rewrite lookup_nil in Hk. }
  destruct rhs as [|x0 rhs]; [by rewrite lookup_nil in Hx|].
  apply NoDup_cons in Hnd as [Hi0 Hnd]. simpl.
  destruct k as [|k]; simpl in *.
  - injection Hk as ->. injection Hx as ->.
    rewrite lookup_scatter_with_notin by done. apply list_lookup_alter_eq.
  - rewrite (IH rhs _ k) by done.
    rewrite list_lookup_alter_ne; [done|].
    intros ->. apply Hi0. by eapply list_elem_of_lookup_2.
Qed.

End Scatter.

(** ** Slices *)
Section Slices.
Implicit Types (lo hi st len i k : nat).

Lemma strided_count lo hi st k :
  (0 < st)%nat -> (k < (hi - lo + (st - 1)) / st)%nat <-> (lo + k * st < hi)%nat.
Proof.
  intros Hst. split; intros Hk.
  - assert (S k * st <= hi - lo + (st - 1))%nat as Hle.
    { transitivity (st * ((hi - lo + (st - 1)) / st))%nat.
      - rewrite Nat.mul_comm. apply Nat.mul_le_mono_l. lia.
      - apply Nat.Div0.mul_div_le. }
    simpl in Hle. lia.
  - apply Nat.div_le_lower_bound; [lia|].
    rewrite Nat.mul_comm. simpl. lia.
Qed.

Lemma lookup_strided lo hi st k i :
  (0 < st)%nat ->
  NP.strided lo hi st !! k = Some i <-> i = (lo + k * st)%nat /\ (i < hi)%nat.
Proof.
  intros Hst. unfold NP.strided. rewrite list_lookup_fmap.
  split.
  - intros Hk. destruct (seq _ _ !! k) as [k'|] eqn:E; [|done].
    apply lookup_seq in E as [-> E]. simpl in *. injection Hk as <-.
    split; [done|]. by apply strided_count.
  - intros [-> Hi]. apply strided_count in Hi; [|done].
    rewrite lookup_seq_lt by done. done.
Qed.

Lemma length_strided lo hi st :
  length (NP.strided lo hi st) = ((hi - lo + (st - 1)) / st)%nat.
Proof. unfold NP.strided. by rewrite length_fmap, length_seq. Qed.

Lemma elem_of_strided lo hi st i :
  (0 < st)%nat ->
  i ∈ NP.strided lo hi st <-> (lo <= i < hi)%nat /\ ((i - lo) mod st = 0)%nat.
Proof.
  intros Hst. rewrite list_elem_of_lookup. split.
  - intros [k Hk]. apply lookup_strided in Hk as [-> Hi]; [|done].
    split; [lia|]. replace (lo + k * st - lo)%nat with (k * st)%nat by lia.
    apply Nat.Div0.mod_mul.
  - intros [[Hlo Hhi] Hmod]. exists ((i - lo) / st)%nat.
    apply lookup_strided; [done|]. split; [|done].
    pose proof (Nat.div_mod_eq (i - lo) st) as E. rewrite Hmod in E.
    rewrite (Nat.mul_comm _ st). lia.
Qed.

Lemma NoDup_strided lo hi st : (0 < st)%nat -> NoDup (NP.strided lo hi st).
Proof.
  intros Hst. apply NoDup_alt. intros k1 k2 i H1 H2.
  apply lookup_strided in H1 as [-> _]; [|done].
  apply lookup_strided in H2 as [E _]; [|done].
  apply Nat.add_cancel_l in E. by apply Nat.mul_cancel_r in E; [|lia].
Qed.

Lemma strided_lt lo hi st i :
  (0 < st)%nat -> i ∈ NP.strided lo hi st -> (i < hi)%nat.
Proof. intros Hst Hi. apply elem_of_strided in Hi; lia. Qed.

Lemma strided_succ lo hi st :
  NP.strided (S lo) (S hi) st = S <$> NP.strided lo hi st.
Proof.
  unfold NP.strided. rewrite <- list_fmap_compose. simpl.
  replace (S hi - S lo)%nat with (hi - lo)%nat by lia. done.
Qed.

Lemma clip_in_range len (z : Z) :
  0 <= z <= Z.of_nat len -> NP.clip len z = Z.to_nat z.
Proof.
  intros Hz. unfold NP.clip.
  destruct (Z.ltb_spec z 0); [lia|]. f_equal. lia.
Qed.

Lemma indices_slice len (s e : Z) (st : positive) :
  0 <= s <= Z.of_nat len -> 0 <= e <= Z.of_nat len ->
  NP.indices len (NP.Slice s e st)
  = NP.strided (Z.to_nat s) (Z.to_nat e) (Pos.to_nat st).
Proof. intros Hs He. simpl. by rewrite !clip_in_range. Qed.

Lemma clip_le len (z : Z) : (NP.clip len z <= len)%nat.
Proof. unfold NP.clip. lia. Qed.

Lemma indices_lt len sl i : i ∈ NP.indices len sl -> (i < len)%nat.
Proof.
  destruct sl as [s e st|]; simpl.
  - intros Hi. apply strided_lt in Hi; [|lia]. pose proof (clip_le len e). lia.
  - intros Hi. apply elem_of_seq in Hi. lia.
Qed.

Lemma NoDup_indices len sl : NoDup (NP.indices len sl).
Proof.
  destruct sl; simpl; [apply NoDup_strided; lia|apply NoDup_seq].
Qed.

End Slices.

(** ** Rectangular arrays *)
Section Arrays.
Import Float Py NP Spec.
Implicit Types (a b rhs : ndarray) (n m p q i j : nat) (si sj : slice).

Lemma rect_length n m a : rect n m a -> length a = n.
Proof.
  unfold rect, dims. intros E. apply (f_equal length) in E.
  by rewrite length_fmap, length_replicate in E.
Qed.

Lemma rect_row n m a i row : rect n m a -> a !! i = Some row -> length row = m.
Proof.
  unfold rect, dims. intros E Hi.
  assert ((length <$> a) !! i = Some (length row)) as Hl
    by (by rewrite list_lookup_fmap, Hi).
  rewrite E in Hl. by apply lookup_replicate in Hl as [? _].
Qed.

Lemma rect_lookup n m a i :
  rect n m a -> (i < n)%nat -> exists row, a !! i = Some row /\ length row = m.
Proof.
  intros Ha Hi. destruct (lookup_lt_is_Some_2 a i) as [row Hrow].
  { by rewrite (rect_length n m). }
  exists row. split; [done|]. by eapply rect_row.
Qed.

Lemma rect_default_row n m a i :
  rect n m a -> (i < n)%nat -> length (default [] (a !! i)) = m.
Proof. intros Ha Hi. destruct (rect_lookup n m a i) as (row & -> & ?); done. Qed.

Lemma rect_intro n m a :
  length a = n -> (forall i row, a !! i = Some row -> length row = m) -> rect n m a.
Proof.
  intros Hl Hrow. unfold rect, dims. apply list_eq. intros i.
  rewrite list_lookup_fmap. destruct (a !! i) as [row|] eqn:E; simpl.
  - rewrite (Hrow _ _ E). symmetry. apply lookup_replicate_2.
    rewrite <- Hl. by eapply lookup_lt_Some.
  - symmetry. apply lookup_replicate_None.
    apply lookup_ge_None in E. lia.
Qed.

Lemma item_lookup a i j row x :
  a !! i = Some row -> row !! j = Some x -> item a i j = x.
Proof. unfold item. intros Ha Hr. rewrite Ha. simpl. by rewrite Hr. Qed.

Lemma item_is_lookup n m a i j :
  rect n m a -> (i < n)%nat -> (j < m)%nat ->
  exists row, a !! i = Some row /\ row !! j = Some (item a i j).
Proof.
  intros Ha Hi Hj. destruct (rect_lookup n m a i Ha Hi) as (row & Hrow & Hl).
  exists row. split; [done|].
  destruct (lookup_lt_is_Some_2 row j) as [x Hx]; [lia|].
  by rewrite (item_lookup a i j row x).
Qed.

(** Two arrays of one shape that agree cell by cell are equal. *)
Lemma array_eq n m a b :
  rect n m a -> rect n m b ->
  (forall i j, (i < n)%nat -> (j < m)%nat -> item a i j = item b i j) ->
  a = b.
Proof.
  intros Ha Hb Hij. apply list_eq_same_length with n;
    [by eapply rect_length|by eapply rect_length|].
  intros i ra rb Hi Hra Hrb.
  apply list_eq_same_length with m;
    [by apply (rect_row n m b i)|by apply (rect_row n m a i)|].
  intros j x y Hj Hx Hy.
  rewrite <- (item_lookup a i j ra x), <- (item_lookup b i j rb y) by done.
  by apply Hij.
Qed.

Lemma rect_update_cells n m P F a : rect n m a -> rect n m (update_cells P F a).
Proof.
  intros Ha. unfold rect, dims, update_cells in *. rewrite <- Ha.
  apply list_eq. intros i. rewrite !list_lookup_fmap, list_lookup_imap.
  destruct (a !! i); simpl; [|done]. by rewrite length_imap.
Qed.

Lemma item_update_cells n m P F a i j :
  rect n m a -> (i < n)%nat -> (j < m)%nat ->
  item (update_cells P F a) i j = if P i j then F i j else item a i j.
Proof.
  intros Ha Hi Hj. destruct (item_is_lookup n m a i j Ha Hi Hj) as (row & Hrow & Hx).
  apply (item_lookup _ _ _ (imap (fun j x => if P i j then F i j else x) row)).
  - unfold update_cells. by rewrite list_lookup_imap, Hrow.
  - rewrite list_lookup_imap, Hx. done.
Qed.

Lemma rect_zip_with n m op a b :
  rect n m a -> rect n m b -> rect n m (zip_with (zip_with op) a b).
Proof.
  intros Ha Hb. apply rect_intro.
  - rewrite length_zip_with, (rect_length n m a), (rect_length n m b) by done. lia.
  - intros i row Hrow. apply lookup_zip_with_Some in Hrow as (ra & rb & -> & Hra & Hrb).
    rewrite length_zip_with, (rect_row n m a i ra), (rect_row n m b i rb) by done. lia.
Qed.

Lemma item_zip_with n m op a b i j :
  rect n m a -> rect n m b -> (i < n)%nat -> (j < m)%nat ->
  item (zip_with (zip_with op) a b) i j = op (item a i j) (item b i j).
Proof.
  intros Ha Hb Hi Hj.
  destruct (item_is_lookup n m a i j Ha Hi Hj) as (ra & Hra & Hx).
  destruct (item_is_lookup n m b i j Hb Hi Hj) as (rb & Hrb & Hy).
  apply (item_lookup _ _ _ (zip_with op ra rb)).
  - by rewrite lookup_zip_with, Hra, Hrb.
  - by rewrite lookup_zip_with, Hx, Hy.
Qed.

Lemma zip2_ok n m op a b :
  rect n m a -> rect n m b -> zip2 op a b = Ok (zip_with (zip_with op) a b).
Proof.
  unfold zip2, rect. intros -> ->. by rewrite decide_True.
Qed.

Lemma rect_map2 n m op a : rect n m a -> rect n m (map2 op a).
Proof.
  intros Ha. unfold rect, dims, map2 in *. rewrite <- Ha, <- list_fmap_compose.
  apply list_fmap_ext. intros _ row _. simpl. by rewrite length_fmap.
Qed.

Lemma item_map2 n m op a i j :
  rect n m a -> (i < n)%nat -> (j < m)%nat ->
  item (map2 op a) i j = op (item a i j).
Proof.
  intros Ha Hi Hj. destruct (item_is_lookup n m a i j Ha Hi Hj) as (row & Hrow & Hx).
  apply (item_lookup _ _ _ (op <$> row)).
  - unfold map2. by rewrite list_lookup_fmap, Hrow.
  - by rewrite list_lookup_fmap, Hx.
Qed.

Lemma rect_getslice n m a si sj :
  rect n m a ->
  rect (length (indices n si)) (length (indices m sj)) (getslice a si sj).
Proof.
  intros Ha. unfold getslice. rewrite (rect_length n m a Ha).
  apply rect_intro; [by rewrite length_fmap|].
  intros k row Hrow. rewrite list_lookup_fmap in Hrow.
  destruct (indices n si !! k) as [i|] eqn:Ei; [|done]. simpl in Hrow.
  injection Hrow as <-. rewrite length_fmap.
  rewrite (rect_default_row n m); [done..|].
  apply indices_lt with si. by eapply list_elem_of_lookup_2.
Qed.

Lemma item_getslice n m a si sj ki kj i j :
  rect n m a ->
  indices n si !! ki = Some i -> indices m sj !! kj = Some j ->
  item (getslice a si sj) ki kj = item a i j.
Proof.
  intros Ha Hi Hj. unfold getslice. rewrite (rect_length n m a Ha).
  assert (i < n)%nat as Hin
    by (apply indices_lt with si; by eapply list_elem_of_lookup_2).
  eapply item_lookup.
  - rewrite list_lookup_fmap, Hi. done.
  - rewrite (rect_default_row n m) by done.
    rewrite list_lookup_fmap, Hj. done.
Qed.

Lemma slice_dims_rect n m a si sj :
  rect n m a ->
  slice_dims a si sj = replicate (length (indices n si)) (length (indices m sj)).
Proof.
  intros Ha. unfold slice_dims. rewrite (rect_length n m a Ha).
  apply list_eq. intros k. rewrite list_lookup_fmap.
  destruct (indices n si !! k) as [i|] eqn:Ei; simpl.
  - rewrite (rect_default_row n m); [|done|].
    + symmetry. apply lookup_replicate_2. by eapply lookup_lt_Some.
    + apply indices_lt with si. by eapply list_elem_of_lookup_2.
  - symmetry. apply lookup_replicate_None. by apply lookup_ge_None in Ei.
Qed.

End Arrays.

(** ** Slice assignment, cell by cell *)
Section SliceAssignment.
Import Float Py NP Spec.
Implicit Types (a b rhs : ndarray) (n m i j : nat) (si sj : slice).

Lemma scatter_rows_lookup n m a si sj rhs i row :
  rect n m a ->
  rect (length (indices n si)) (length (indices m sj)) rhs ->
  a !! i = Some row ->
  exists row',
    scatter_with
      (fun rrow row => scatter_with (fun x _ => x) (indices (length row) sj) rrow row)
      (indices n si) rhs a !! i = Some row'
    /\ length row' = m
    /\ (forall ki kj j, indices n si !! ki = Some i -> indices m sj !! kj = Some j ->
          row' !! j = Some (item rhs ki kj))
    /\ (forall j, ~ (i ∈ indices n si /\ j ∈ indices m sj) -> row' !! j = row !! j).
Proof.
  intros Ha Hrhs Hrow.
  assert (length row = m) as Hlen by (by eapply rect_row).
  destruct (decide (i ∈ indices n si)) as [Hin|Hnotin].
  - apply list_elem_of_lookup in Hin as [ki Hki].
    destruct (rect_lookup _ _ rhs ki Hrhs) as (rrow & Hrrow & Hrl);
      [by eapply lookup_lt_Some|].
    eexists. split.
    { rewrite (lookup_scatter_with_in _ _ _ _ ki i rrow);
        [|apply NoDup_indices|done..]. by rewrite Hrow. }
    rewrite Hlen. split; [by rewrite length_scatter_with|]. split.
    + intros ki' kj j Hki' Hkj.
      assert (ki' = ki) as ->.
      { eapply NoDup_lookup; [apply NoDup_indices|done..]. }
      destruct (lookup_lt_is_Some_2 rrow kj) as [x Hx].
      { rewrite Hrl. by eapply lookup_lt_Some. }
      rewrite (item_lookup rhs ki kj rrow x) by done.
      destruct (lookup_lt_is_Some_2 row j) as [y Hy].
      { rewrite Hlen. apply indices_lt with sj. by eapply list_elem_of_lookup_2. }
      rewrite (lookup_scatter_with_in _ _ _ _ kj j x);
        [|apply NoDup_indices|done..]. by rewrite Hy.
    + intros j Hj. apply lookup_scatter_with_notin.
      intros Hjin. apply Hj. split; [|done]. by eapply list_elem_of_lookup_2.
  - exists row. split; [by rewrite lookup_scatter_with_notin|].
    split; [done|]. split; [|done].
    intros ki kj j Hki _. destruct Hnotin. by eapply list_elem_of_lookup_2.
Qed.

(** A slice assignment whose right-hand side holds [F i j] for the cell
    (i, j) it is written to is a cell-wise update. *)
Lemma setslice_update_cells n m a si sj rhs P F :
  rect n m a ->
  rect (length (indices n si)) (length (indices m sj)) rhs ->
  (forall ki kj i j, indices n si !! ki = Some i -> indices m sj !! kj = Some j ->
     item rhs ki kj = F i j) ->
  (forall i j, P i j = true <-> i ∈ indices n si /\ j ∈ indices m sj) ->
  setslice a si sj rhs = Ok (update_cells P F a).
Proof.
  intros Ha Hrhs HF HP. unfold setslice.
  rewrite (slice_dims_rect n m a) by done. rewrite decide_True by exact Hrhs.
  rewrite (rect_length n m a Ha). f_equal.
  apply (array_eq n m).
  - apply rect_intro; [by rewrite length_scatter_with, (rect_length n m a)|].
    intros i row' Hrow'.
    destruct (lookup_lt_is_Some_2 a i) as [row Hrow].
    { apply lookup_lt_Some in Hrow'. by rewrite length_scatter_with in Hrow'. }
    destruct (scatter_rows_lookup n m a si sj rhs i row Ha Hrhs Hrow)
      as (r' & Hr' & Hl & _). congruence.
  - by apply rect_update_cells.
  - intros i j Hi Hj. rewrite (item_update_cells n m) by done.
    destruct (item_is_lookup n m a i j Ha Hi Hj) as (row & Hrow & Hx).
    destruct (scatter_rows_lookup n m a si sj rhs i row Ha Hrhs Hrow)
      as (r' & Hr' & Hl & Hin & Hout).
    destruct (P i j) eqn:EP.
    + apply HP in EP as [HiI HjJ].
      apply list_elem_of_lookup in HiI as [ki Hki].
      apply list_elem_of_lookup in HjJ as [kj Hkj].
      rewrite <- (HF ki kj i j) by done.
      eapply item_lookup; [exact Hr'|]. by apply Hin.
    + eapply item_lookup; [exact Hr'|]. rewrite Hout; [done|].
      intros Hboth. apply HP in Hboth. congruence.
Qed.

End SliceAssignment.

(** ** Neighbouring slices *)
Section Neighbours.
Import Float Py NP Spec.
Implicit Types (n m i j k : nat) (s e : Z) (st : positive).

Lemma indices_east n s e st :
  0 <= s -> s + 1 <= Z.of_nat n -> 0 <= e -> e + 1 <= Z.of_nat n ->
  indices n (Slice (s + 1) (e + 1) st) = S <$> indices n (Slice s e st).
Proof.
  intros. rewrite !indices_slice by lia.
  rewrite !Z2Nat.inj_add by lia. rewrite !Nat.add_1_r. apply strided_succ.
Qed.

Lemma indices_west n s e st :
  1 <= s -> s <= Z.of_nat n -> 1 <= e -> e <= Z.of_nat n ->
  indices n (Slice s e st) = S <$> indices n (Slice (s - 1) (e - 1) st).
Proof.
  intros. rewrite <- indices_east by lia. f_equal. f_equal; lia.
Qed.

Lemma lookup_east n s e st k i :
  0 <= s -> s + 1 <= Z.of_nat n -> 0 <= e -> e + 1 <= Z.of_nat n ->
  indices n (Slice s e st) !! k = Some i ->
  indices n (Slice (s + 1) (e + 1) st) !! k = Some (i + 1)%nat.
Proof.
  intros ? ? ? ? Hk. rewrite indices_east, list_lookup_fmap, Hk by lia.
  simpl. f_equal. lia.
Qed.

Lemma lookup_west n s e st k i :
  1 <= s -> s <= Z.of_nat n -> 1 <= e -> e <= Z.of_nat n ->
  indices n (Slice s e st) !! k = Some i ->
  indices n (Slice (s - 1) (e - 1) st) !! k = Some (i - 1)%nat.
Proof.
  intros ? ? ? ? Hk. rewrite indices_west, list_lookup_fmap in Hk by lia.
  destruct (indices n (Slice (s - 1) (e - 1) st) !! k) as [i'|]; [|done].
  simpl in Hk. injection Hk as <-. f_equal. lia.
Qed.

Lemma length_east n s e st :
  0 <= s -> s + 1 <= Z.of_nat n -> 0 <= e -> e + 1 <= Z.of_nat n ->
  length (indices n (Slice (s + 1) (e + 1) st)) = length (indices n (Slice s e st)).
Proof. intros. by rewrite indices_east, length_fmap by lia. Qed.

Lemma length_west n s e st :
  1 <= s -> s <= Z.of_nat n -> 1 <= e -> e <= Z.of_nat n ->
  length (indices n (Slice (s - 1) (e - 1) st)) = length (indices n (Slice s e st)).
Proof. intros. by rewrite (indices_west n s e), length_fmap by lia. Qed.

Lemma every_other_indices n s e i :
  0 <= s <= Z.of_nat n -> 0 <= e <= Z.of_nat n ->
  every_other s e i = true <-> i ∈ indices n (Slice s e 2).
Proof.
  intros Hs He. rewrite indices_slice by done.
  rewrite elem_of_strided by lia. unfold every_other.
  rewrite !andb_true_iff, Z.leb_le, Z.ltb_lt, Z.even_spec.
  change (Pos.to_nat 2) with 2%nat. split.
  - intros [[H1 H2] [k Hk]]. split; [lia|].
    replace (i - Z.to_nat s)%nat with (Z.to_nat k * 2)%nat by lia.
    apply Nat.Div0.mod_mul.
  - intros [H1 H2]. split; [lia|].
    exists (Z.of_nat ((i - Z.to_nat s) / 2)).
    pose proof (Nat.div_mod_eq (i - Z.to_nat s) 2). lia.
Qed.

End Neighbours.

(** ** The four assignments of a red-black pass *)
Section Relax.
Import Float Py NP Multigrid Patch Spec.
Implicit Types (n m i j : nat) (v f : ndarray).

Lemma update_cells_ext P P' F F' (a : ndarray) :
  (forall i j, P i j = P' i j) ->
  (forall i j, P i j = true -> F i j = F' i j) ->
  update_cells P F a = update_cells P' F' a.
Proof.
  intros HP HF. unfold update_cells.
  apply imap_ext. intros i row _. apply imap_ext. intros j x _.
  rewrite <- HP. destruct (P i j) eqn:E; [by apply HF|done].
Qed.

(** One assignment with stride-2 target slices and the four neighbour
    slices shifted by one: a cell-wise update of the targeted cells. *)
Lemma relax_cells n m v f xc yc den (sI eI sJ eJ : Z) :
  rect n m v -> rect n m f ->
  1 <= sI -> sI + 1 <= Z.of_nat n -> 1 <= eI -> eI + 1 <= Z.of_nat n ->
  1 <= sJ -> sJ + 1 <= Z.of_nat m -> 1 <= eJ -> eJ + 1 <= Z.of_nat m ->
  relax v f xc yc den
    (Slice sI eI 2) (Slice sJ eJ 2)
    (Slice (sI + 1) (eI + 1) 2) (Slice (sI - 1) (eI - 1) 2)
    (Slice (sJ + 1) (eJ + 1) 2) (Slice (sJ - 1) (eJ - 1) 2)
  = Ok (update_cells
          (fun i j => every_other sI eI i && every_other sJ eJ j)
          (fun i j =>
             fdiv (fadd (fadd (item f i j)
                              (fmul xc (fadd (item v (i + 1) j) (item v (i - 1) j))))
                        (fmul yc (fadd (item v i (j + 1)) (item v i (j - 1)))))
                  den)
          v).
Proof.
  intros Hv Hf ? ? ? ? ? ? ? ?.
  set (I := Slice sI eI 2). set (J := Slice sJ eJ 2).
  set (p := length (indices n I)). set (q := length (indices m J)).
  assert (rect p q (getslice f I J)) as Rf by (by apply rect_getslice).
  assert (rect p q (getslice v (Slice (sI + 1) (eI + 1) 2) J)) as Re.
  { unfold p, I. rewrite <- (length_east n sI eI 2) by lia. by apply rect_getslice. }
  assert (rect p q (getslice v (Slice (sI - 1) (eI - 1) 2) J)) as Rw.
  { unfold p, I. rewrite <- (length_west n sI eI 2) by lia. by apply rect_getslice. }
  assert (rect p q (getslice v I (Slice (sJ + 1) (eJ + 1) 2))) as Rn.
  { unfold q, J. rewrite <- (length_east m sJ eJ 2) by lia. by apply rect_getslice. }
  assert (rect p q (getslice v I (Slice (sJ - 1) (eJ - 1) 2))) as Rs.
  { unfold q, J. rewrite <- (length_west m sJ eJ 2) by lia. by apply rect_getslice. }
  unfold relax, add.
  rewrite (zip2_ok p q) by done. simpl.
  rewrite (zip2_ok p q); [|done|by apply rect_map2, rect_zip_with]. simpl.
  rewrite (zip2_ok p q) by done. simpl.
  rewrite (zip2_ok p q);
    [|by apply rect_zip_with; [|apply rect_map2, rect_zip_with]
     |by apply rect_map2, rect_zip_with]. simpl.
  apply (setslice_update_cells n m); [done| |..].
  - apply rect_map2, rect_zip_with; [|by apply rect_map2, rect_zip_with].
    apply rect_zip_with; [done|]. by apply rect_map2, rect_zip_with.
  - intros ki kj i j Hki Hkj.
    assert (ki < p)%nat by (by eapply lookup_lt_Some).
    assert (kj < q)%nat by (by eapply lookup_lt_Some).
    unfold divs, smul.
    rewrite (item_map2 p q);
      [|apply rect_zip_with;
        [apply rect_zip_with; [done|by apply rect_map2, rect_zip_with]
        |by apply rect_map2, rect_zip_with]|done..].
    rewrite (item_zip_with p q);
      [|apply rect_zip_with; [done|by apply rect_map2, rect_zip_with]
       |by apply rect_map2, rect_zip_with|done..].
    rewrite (item_zip_with p q);
      [|done|by apply rect_map2, rect_zip_with|done..].
    rewrite !(item_map2 p q) by (done || by apply rect_zip_with).
    rewrite !(item_zip_with p q) by done.
    rewrite (item_getslice n m f I J ki kj i j) by done.
    rewrite (item_getslice n m v _ J ki kj (i + 1) j);
      [|done|by apply lookup_east; [lia..|]|done].
    rewrite (item_getslice n m v _ J ki kj (i - 1) j);
      [|done|by apply lookup_west; [lia..|]|done].
    rewrite (item_getslice n m v I _ ki kj i (j + 1));
      [|done|done|by apply lookup_east; [lia..|]].
    rewrite (item_getslice n m v I _ ki kj i (j - 1));
      [|done|done|by apply lookup_west; [lia..|]].
    done.
  - intros i j. rewrite andb_true_iff.
    by rewrite (every_other_indices n), (every_other_indices m) by lia.
Qed.

End Relax.

(** ** The state monad *)
Section Monad.
Import Py.
Context {S : Type}.

Lemma bind_ok {A B} (m : M S A) (k : A -> M S B) s a s' :
  m s = (Ok a, s') -> bind m k s = k a s'.
Proof. unfold bind. by intros ->. Qed.

Lemma bind_raise {A B} (m : M S A) (k : A -> M S B) s e s' :
  m s = (Raise e, s') -> bind m k s = (Raise e, s').
Proof. unfold bind. by intros ->. Qed.

Lemma bind_get {B} (k : S -> M S B) s : bind get k s = k s s.
Proof. done. Qed.

Lemma bind_gets {A B} (f : S -> A) (k : A -> M S B) s :
  bind (gets f) k s = k (f s) s.
Proof. done. Qed.

Lemma bind_ret {A B} (a : A) (k : A -> M S B) s : bind (ret a) k s = k a s.
Proof. done. Qed.

Lemma bind_lift_ok {A B} (a : A) (k : A -> M S B) s : bind (lift (Ok a)) k s = k a s.
Proof. done. Qed.

Lemma bind_modify {B} (f : S -> S) (k : unit -> M S B) s :
  bind (modify f) k s = k tt (f s).
Proof. done. Qed.

(** A loop whose body maps the states [st x] to [st (step x)]. *)
Lemma repeat_n_iter {X} (st : X -> S) (step : X -> X) (Inv : X -> Prop)
    (body : M S unit) n x :
  (forall x, Inv x -> Inv (step x)) ->
  (forall x, Inv x -> body (st x) = (Ok tt, st (step x))) ->
  Inv x ->
  repeat_n n body (st x) = (Ok tt, st (Nat.iter n step x)).
Proof.
  intros Hinv Hbody. revert x. induction n as [|n IH]; intros x Hx; [done|].
  cbn [repeat_n]. rewrite (bind_ok _ _ _ tt (st (step x))) by auto.
  rewrite IH by auto. by rewrite Nat.iter_succ_r.
Qed.

End Monad.

(** ** Parities of a stride-2 slice *)
Section Parity.
Import Float Py NP Patch Spec.

Lemma every_other_even lo hi i :
  every_other lo (hi + 1) i = true
  <-> lo <= Z.of_nat i /\ Z.of_nat i <= hi /\ Z.odd (Z.of_nat i - lo) = false.
Proof.
  unfold every_other. rewrite !andb_true_iff, Z.leb_le, Z.ltb_lt.
  rewrite <- Z.negb_odd, negb_true_iff. intuition lia.
Qed.

Lemma every_other_odd lo hi i :
  every_other (lo + 1) (hi + 1) i = true
  <-> lo <= Z.of_nat i /\ Z.of_nat i <= hi /\ Z.odd (Z.of_nat i - lo) = true.
Proof.
  unfold every_other. rewrite !andb_true_iff, Z.leb_le, Z.ltb_lt.
  replace (Z.of_nat i - (lo + 1)) with (Z.pred (Z.of_nat i - lo)) by lia.
  rewrite Z.even_pred. split; [intuition lia|].
  intros (H1 & H2 & H3). split; [|done]. split; [|lia].
  destruct (Z.eq_dec (Z.of_nat i) lo) as [E|]; [|lia].
  rewrite E, Z.sub_diag in H3. done.
Qed.

Lemma every_other_parity lo hi (odd : bool) i :
  every_other (if odd then lo + 1 else lo) (hi + 1) i = true
  <-> lo <= Z.of_nat i /\ Z.of_nat i <= hi /\ Z.odd (Z.of_nat i - lo) = odd.
Proof. destruct odd; [apply every_other_odd|apply every_other_even]. Qed.

Lemma in_group_every_other g (pi pj : bool) i j :
  every_other (if pi then ilo g + 1 else ilo g) (ihi g + 1) i
  && every_other (if pj then jlo g + 1 else jlo g) (jhi g + 1) j
  = in_group g pi pj i j.
Proof.
  apply eq_true_iff_eq. unfold in_group, interior, odd_from.
  rewrite !andb_true_iff, !every_other_parity, !Z.leb_le, !eqb_true_iff.
  tauto.
Qed.

End Parity.

(** ** [smooth] refines the red-black description *)
Section Smooth.
Import Float Py NP Multigrid Patch Spec.
Context `{API : PatchAPI} `{!PatchShapes API}.
Implicit Types (self : ccMG2d) (d : ccData2d) (level : nat) (v f : ndarray).

Lemma grids_at_ok level self d :
  grids self !! level = Some d -> grids_at level self = (Ok d, self).
Proof. unfold grids_at. by intros ->. Qed.

Lemma grids_on_level level F self d :
  grids self !! level = Some d -> grids (on_level level F self) !! level = Some (F d).
Proof. intros Hd. simpl. by rewrite list_lookup_alter_eq, Hd. Qed.

Lemma grids_on_level_ne level level' F self :
  level <> level' ->
  grids (on_level level F self) !! level' = grids self !! level'.
Proof. intros Hne. simpl. by rewrite list_lookup_alter_ne. Qed.

Lemma on_level_on_level level F G self :
  on_level level G (on_level level F self) = on_level level (G ∘ F) self.
Proof. unfold on_level. simpl. by rewrite list_alter_alter_eq. Qed.

Lemma on_level_ext level F G self :
  (forall d, grids self !! level = Some d -> F d = G d) ->
  on_level level F self = on_level level G self.
Proof.
  intros HFG. unfold on_level. f_equal. apply list_alter_ext; [|done].
  intros d Hd. by apply HFG.
Qed.

Lemma on_level_id level F self :
  (forall d, grids self !! level = Some d -> F d = d) ->
  on_level level F self = self.
Proof.
  intros HF. destruct self. unfold on_level, set_grids. simpl in *.
  f_equal. apply list_eq. intros i. destruct (decide (level = i)) as [<-|Hne].
  - rewrite list_lookup_alter_eq. destruct (_ !! level) eqn:E; [|done].
    simpl. f_equal. by apply HF.
  - by rewrite list_lookup_alter_ne.
Qed.

Lemma store_v_put level a b self :
  store_v level a (put_v level b self) = (Ok tt, put_v level a self).
Proof.
  unfold store_v, modify, put_v. f_equal.
  change (on_level level (set_var_v a) (on_level level (set_var_v b) self)
          = on_level level (set_var_v a) self).
  rewrite on_level_on_level. by apply on_level_ext.
Qed.

Lemma fillBC_v_put level self d v :
  grids self !! level = Some d ->
  fillBC_v level (put_v level v self)
  = (Ok tt, put_v level (fill_ghosts (BCs d) (grid d) v) self).
Proof.
  intros Hd. unfold fillBC_v.
  rewrite (bind_ok _ _ _ (set_var_v v d) (put_v level v self))
    by (apply grids_at_ok; by apply grids_on_level).
  apply store_v_put.
Qed.

Lemma relax_cells_eq n m v f xc yc den (sI eI sJ eJ : Z) ti tj ei wi nj sj :
  rect n m v -> rect n m f ->
  1 <= sI -> sI + 1 <= Z.of_nat n -> 1 <= eI -> eI + 1 <= Z.of_nat n ->
  1 <= sJ -> sJ + 1 <= Z.of_nat m -> 1 <= eJ -> eJ + 1 <= Z.of_nat m ->
  ti = Slice sI eI 2 -> tj = Slice sJ eJ 2 ->
  ei = Slice (sI + 1) (eI + 1) 2 -> wi = Slice (sI - 1) (eI - 1) 2 ->
  nj = Slice (sJ + 1) (eJ + 1) 2 -> sj = Slice (sJ - 1) (eJ - 1) 2 ->
  relax v f xc yc den ti tj ei wi nj sj
  = Ok (update_cells
          (fun i j => every_other sI eI i && every_other sJ eJ j)
          (fun i j =>
             fdiv (fadd (fadd (item f i j)
                              (fmul xc (fadd (item v (i + 1) j) (item v (i - 1) j))))
                        (fmul yc (fadd (item v i (j + 1)) (item v i (j - 1)))))
                  den)
          v).
Proof.
  intros Hv Hf ? ? ? ? ? ? ? ? -> -> -> -> -> ->. by apply (relax_cells n m).
Qed.

(** Each of the four assignments is the sub-sweep of its parity class. *)
Lemma relax_sweep alpha beta g (pi pj : bool) v f :
  grid_ok g -> on_grid g v -> on_grid g f ->
  relax v f (cx beta g) (cy beta g)
    (fadd (fadd alpha (fmul two (cx beta g))) (fmul two (cy beta g)))
    (Slice (if pi then ilo g + 1 else ilo g) (ihi g + 1) 2)
    (Slice (if pj then jlo g + 1 else jlo g) (jhi g + 1) 2)
    (Slice (if pi then ilo g + 2 else ilo g + 1) (ihi g + 2) 2)
    (Slice (if pi then ilo g else ilo g - 1) (ihi g) 2)
    (Slice (if pj then jlo g + 2 else jlo g + 1) (jhi g + 2) 2)
    (Slice (if pj then jlo g else jlo g - 1) (jhi g) 2)
  = Ok (sweep alpha beta g pi pj f v).
Proof.
  intros (? & ? & ? & ? & ? & ? & ? & ? & ? & _) Hv Hf.
  rewrite (relax_cells_eq (Z.to_nat (qx g)) (Z.to_nat (qy g)) v f _ _ _
             (if pi then ilo g + 1 else ilo g) (ihi g + 1)
             (if pj then jlo g + 1 else jlo g) (jhi g + 1));
    try done; try (destruct pi; lia); try (destruct pj; lia);
    try (destruct pi; f_equal; lia); try (destruct pj; f_equal; lia).
  f_equal. unfold sweep. apply update_cells_ext; [|done].
  intros i j. apply in_group_every_other.
Qed.

Lemma rect_sweep alpha beta g pi pj v f :
  on_grid g v -> on_grid g (sweep alpha beta g pi pj f v).
Proof. apply rect_update_cells. Qed.

Lemma rect_fill_ghosts bc g v : on_grid g v -> on_grid g (fill_ghosts bc g v).
Proof. unfold on_grid, fill_ghosts. apply fillBC_rect. Qed.

Lemma rect_red_black_pass alpha beta bc g v f :
  on_grid g v -> on_grid g (red_black_pass alpha beta bc g f v).
Proof.
  intros Hv. unfold red_black_pass.
  by repeat (apply rect_fill_ghosts || apply rect_sweep).
Qed.

Lemma rect_smooth alpha beta bc g n v f :
  on_grid g v -> on_grid g (Spec.smooth alpha beta bc g n f v).
Proof.
  intros Hv. unfold Spec.smooth. induction n as [|n IH]; simpl.
  - by apply rect_fill_ghosts.
  - by apply rect_red_black_pass.
Qed.

Lemma relax_v_sweep level self d (pi pj : bool) v :
  grids self !! level = Some d ->
  grid_ok (grid d) -> on_grid (grid d) v -> on_grid (grid d) (var_f d) ->
  let g := grid d in
  relax_v level (cx (beta self) g) (cy (beta self) g)
    (fadd (fadd (alpha self) (fmul two (cx (beta self) g)))
          (fmul two (cy (beta self) g)))
    (Slice (if pi then ilo g + 1 else ilo g) (ihi g + 1) 2)
    (Slice (if pj then jlo g + 1 else jlo g) (jhi g + 1) 2)
    (Slice (if pi then ilo g + 2 else ilo g + 1) (ihi g + 2) 2)
    (Slice (if pi then ilo g else ilo g - 1) (ihi g) 2)
    (Slice (if pj then jlo g + 2 else jlo g + 1) (jhi g + 2) 2)
    (Slice (if pj then jlo g else jlo g - 1) (jhi g) 2)
    (put_v level v self)
  = (Ok tt, put_v level (sweep (alpha self) (beta self) g pi pj (var_f d) v) self).
Proof.
  intros Hd Hg Hv Hf g. unfold relax_v.
  rewrite (bind_ok _ _ _ (set_var_v v d) (put_v level v self))
    by (apply grids_at_ok; by apply grids_on_level).
  cbn [var_v var_f set_var_v].
  rewrite (relax_sweep (alpha self) (beta self) g pi pj v (var_f d)) by done.
  unfold lift. cbn [bind]. apply store_v_put.
Qed.

Lemma pydiv_ok x y : feqb y zero = false -> pydiv x y = Ok (fdiv x y).
Proof. unfold pydiv. by intros ->. Qed.

(** One iteration of the loop of [smooth] is one red-black pass. *)
Lemma smooth_pass_spec level self d v :
  grids self !! level = Some d ->
  grid_ok (grid d) -> on_grid (grid d) v -> on_grid (grid d) (var_f d) ->
  smooth_pass level (grid d) (put_v level v self)
  = (Ok tt, put_v level
              (red_black_pass (alpha self) (beta self) (BCs d) (grid d) (var_f d) v)
              self).
Proof.
  intros Hd Hg Hv Hf. unfold smooth_pass.
  pose proof Hg as (_ & _ & _ & _ & _ & _ & _ & _ & _ & Hdx & Hdy).
  rewrite bind_get.
  change (beta (put_v level v self)) with (beta self).
  change (alpha (put_v level v self)) with (alpha self).
  rewrite (pydiv_ok _ _ Hdx), bind_lift_ok, (pydiv_ok _ _ Hdy), bind_lift_ok.
  fold (cx (beta self) (grid d)). fold (cy (beta self) (grid d)).
  pose proof (relax_v_sweep level self d false false v Hd Hg Hv Hf) as E1.
  cbn zeta in E1. rewrite (bind_ok _ _ _ _ _ E1). clear E1.
  set (v1 := sweep _ _ _ false false _ v).
  assert (on_grid (grid d) v1) as Hv1 by (by apply rect_sweep).
  pose proof (relax_v_sweep level self d true true v1 Hd Hg Hv1 Hf) as E2.
  cbn zeta in E2. rewrite (bind_ok _ _ _ _ _ E2). clear E2.
  set (v2 := sweep _ _ _ true true _ v1).
  assert (on_grid (grid d) v2) as Hv2 by (by apply rect_sweep).
  rewrite (bind_ok _ _ _ _ _ (fillBC_v_put level self d v2 Hd)).
  set (v3 := fill_ghosts _ _ v2).
  assert (on_grid (grid d) v3) as Hv3 by (by apply rect_fill_ghosts).
  pose proof (relax_v_sweep level self d true false v3 Hd Hg Hv3 Hf) as E3.
  cbn zeta in E3. rewrite (bind_ok _ _ _ _ _ E3). clear E3.
  set (v4 := sweep _ _ _ true false _ v3).
  assert (on_grid (grid d) v4) as Hv4 by (by apply rect_sweep).
  pose proof (relax_v_sweep level self d false true v4 Hd Hg Hv4 Hf) as E4.
  cbn zeta in E4. rewrite (bind_ok _ _ _ _ _ E4). clear E4.
  apply (fillBC_v_put level self d _ Hd).
Qed.

(** [smooth] on a well-formed level: the fill, then the passes. *)
Lemma smooth_spec level (nsmooth : Z) self d :
  grids self !! level = Some d -> level_ok d ->
  Multigrid.smooth level nsmooth self
  = (Ok tt, on_level level
              (smooth_level (alpha self) (beta self) (Z.to_nat nsmooth)) self).
Proof.
  intros Hd (Hg & Hv & Hf & _). unfold Multigrid.smooth.
  rewrite (bind_ok _ _ _ d self) by (by apply grids_at_ok).
  assert (fillBC_v level self
          = (Ok tt, put_v level (fill_ghosts (BCs d) (grid d) (var_v d)) self)) as E.
  { unfold fillBC_v. rewrite (bind_ok _ _ _ d self) by (by apply grids_at_ok).
    done. }
  rewrite (bind_ok _ _ _ _ _ E). clear E.
  rewrite (repeat_n_iter (fun v => put_v level v self)
             (red_black_pass (alpha self) (beta self) (BCs d) (grid d) (var_f d))
             (on_grid (grid d))).
  - f_equal. apply on_level_ext. intros d' Hd'.
    assert (d' = d) as -> by congruence. done.
  - intros v. apply rect_red_black_pass.
  - intros v Hv'. by apply smooth_pass_spec.
  - by apply rect_fill_ghosts.
Qed.

End Smooth.

(** ** Arithmetic of the idealised floats *)
Section FloatFacts.
Import Float.

Lemma fadd_comm x y : fadd x y = fadd y x.
Proof. destruct x, y; simpl; try done. by rewrite Qcplus_comm. Qed.

Lemma feqb_eq x y : feqb x y = true -> x = y.
Proof.
  destruct x, y; simpl; try done. intros E. apply bool_decide_eq_true in E.
  by subst.
Qed.

Lemma fadd_fin x y q : fadd x y = Fin q -> exists a b, x = Fin a /\ y = Fin b.
Proof. destruct x, y; simpl; try done. eauto. Qed.

Lemma fneg_fin x q : fneg x = Fin q -> exists a, x = Fin a.
Proof. destruct x; simpl; try done. eauto. Qed.

Lemma fsub_fin x y q : fsub x y = Fin q -> exists a b, x = Fin a /\ y = Fin b.
Proof.
  unfold fsub. intros E. apply fadd_fin in E as (a & b & -> & E).
  apply fneg_fin in E as [c ->]. eauto.
Qed.

Lemma fmul_fin x y q : fmul x y = Fin q -> exists a b, x = Fin a /\ y = Fin b.
Proof.
  destruct x as [a| | |], y as [b| | |]; simpl; try done; eauto;
    try (destruct (a ?= 0)%Qc); try (destruct (b ?= 0)%Qc); done.
Qed.

End FloatFacts.

(** ** [computeResidual] refines the residual formula *)
Section Residual.
Import Float Py NP Multigrid Patch Spec.
Implicit Types (n m i j : nat) (v f r : ndarray).

Ltac rect_tac :=
  repeat first [ assumption | apply rect_zip_with | apply rect_map2 ].

Lemma between_indices n s e i :
  0 <= s <= Z.of_nat n -> 0 <= e <= Z.of_nat n ->
  between s e i = true <-> i ∈ indices n (Slice s e 1).
Proof.
  intros Hs He. rewrite indices_slice by done.
  rewrite elem_of_strided by lia. unfold between.
  rewrite andb_true_iff, Z.leb_le, Z.ltb_lt.
  change (Pos.to_nat 1) with 1%nat. rewrite Nat.mod_1_r. lia.
Qed.

Lemma residual_cells n m v f r al be dx2 dy2 (sI eI sJ eJ : Z) :
  rect n m v -> rect n m f -> rect n m r ->
  1 <= sI -> sI + 1 <= Z.of_nat n -> 1 <= eI -> eI + 1 <= Z.of_nat n ->
  1 <= sJ -> sJ + 1 <= Z.of_nat m -> 1 <= eJ -> eJ + 1 <= Z.of_nat m ->
  let I := Slice sI eI 1 in
  let J := Slice sJ eJ 1 in
  (let? a1 := sub (getslice f I J) (smul al (getslice v I J)) in
   let? x1 := add (getslice v (Slice (sI - 1) (eI - 1) 1) J)
                  (getslice v (Slice (sI + 1) (eI + 1) 1) J) in
   let? x2 := sub x1 (smul two (getslice v I J)) in
   let? y1 := add (getslice v I (Slice (sJ - 1) (eJ - 1) 1))
                  (getslice v I (Slice (sJ + 1) (eJ + 1) 1)) in
   let? y2 := sub y1 (smul two (getslice v I J)) in
   let? lap := add (divs x2 dx2) (divs y2 dy2) in
   let? rhs := add a1 (smul be lap) in
   setslice r I J rhs)%py
  = Ok (update_cells
          (fun i j => between sI eI i && between sJ eJ j)
          (fun i j =>
             fadd (fsub (item f i j) (fmul al (item v i j)))
                  (fmul be
                     (fadd (fdiv (fsub (fadd (item v (i - 1) j) (item v (i + 1) j))
                                       (fmul two (item v i j))) dx2)
                           (fdiv (fsub (fadd (item v i (j - 1)) (item v i (j + 1)))
                                       (fmul two (item v i j))) dy2))))
          r).
Proof.
  intros Hv Hf Hr ? ? ? ? ? ? ? ? I J.
  set (p := length (indices n I)). set (q := length (indices m J)).
  assert (rect p q (getslice f I J)) as Rf by (by apply rect_getslice).
  assert (rect p q (getslice v I J)) as Rv by (by apply rect_getslice).
  assert (rect p q (getslice v (Slice (sI + 1) (eI + 1) 1) J)) as Re.
  { unfold p, I. rewrite <- (length_east n sI eI 1) by lia. by apply rect_getslice. }
  assert (rect p q (getslice v (Slice (sI - 1) (eI - 1) 1) J)) as Rw.
  { unfold p, I. rewrite <- (length_west n sI eI 1) by lia. by apply rect_getslice. }
  assert (rect p q (getslice v I (Slice (sJ + 1) (eJ + 1) 1))) as Rn.
  { unfold q, J. rewrite <- (length_east m sJ eJ 1) by lia. by apply rect_getslice. }
  assert (rect p q (getslice v I (Slice (sJ - 1) (eJ - 1) 1))) as Rs.
  { unfold q, J. rewrite <- (length_west m sJ eJ 1) by lia. by apply rect_getslice. }
  unfold add, sub, smul, divs.
  repeat (rewrite (zip2_ok p q) by rect_tac; cbn [obind]).
  apply (setslice_update_cells n m); [done|rect_tac| |].
  - intros ki kj i j Hki Hkj.
    assert (ki < p)%nat by (by eapply lookup_lt_Some).
    assert (kj < q)%nat by (by eapply lookup_lt_Some).
    repeat first
      [ rewrite (item_zip_with p q) by (try done; rect_tac)
      | rewrite (item_map2 p q) by (try done; rect_tac) ].
    rewrite (item_getslice n m f I J ki kj i j) by done.
    rewrite !(item_getslice n m v I J ki kj i j) by done.
    rewrite (item_getslice n m v (Slice (sI + 1) (eI + 1) 1) J ki kj (i + 1) j);
      [|done|by apply lookup_east; [lia..|]|done].
    rewrite (item_getslice n m v (Slice (sI - 1) (eI - 1) 1) J ki kj (i - 1) j);
      [|done|by apply lookup_west; [lia..|]|done].
    rewrite (item_getslice n m v I (Slice (sJ + 1) (eJ + 1) 1) ki kj i (j + 1));
      [|done|done|by apply lookup_east; [lia..|]].
    rewrite (item_getslice n m v I (Slice (sJ - 1) (eJ - 1) 1) ki kj i (j - 1));
      [|done|done|by apply lookup_west; [lia..|]].
    done.
  - intros i j. rewrite andb_true_iff.
    by rewrite (between_indices n), (between_indices m) by lia.
Qed.

Lemma interior_between g i j :
  between (ilo g) (ihi g + 1) i && between (jlo g) (jhi g + 1) j = interior g i j.
Proof.
  apply eq_true_iff_eq. unfold between, interior.
  rewrite !andb_true_iff, !Z.leb_le, !Z.ltb_lt. lia.
Qed.

Lemma store_r_put level a self :
  store_r level a self = (Ok tt, put_r level a self).
Proof. done. Qed.

Lemma computeResidual_spec level self d :
  grids self !! level = Some d -> level_ok d ->
  computeResidual level self
  = (Ok tt, on_level level (residual_level (alpha self) (beta self)) self).
Proof.
  intros Hd (Hg & Hv & Hf & Hr). unfold computeResidual.
  pose proof Hg as (? & ? & ? & ? & ? & ? & ? & ? & ? & _).
  rewrite (bind_ok _ _ _ d self) by (by apply grids_at_ok).
  rewrite bind_get.
  pose proof (residual_cells (Z.to_nat (qx (grid d))) (Z.to_nat (qy (grid d)))
                (var_v d) (var_f d) (var_r d) (alpha self) (beta self)
                (fmul (dx (grid d)) (dx (grid d))) (fmul (dy (grid d)) (dy (grid d)))
                (ilo (grid d)) (ihi (grid d) + 1) (jlo (grid d)) (jhi (grid d) + 1))
    as E.
  cbn zeta in E.
  replace (ihi (grid d) + 1 - 1) with (ihi (grid d)) in E by lia.
  replace (jhi (grid d) + 1 - 1) with (jhi (grid d)) in E by lia.
  replace (ihi (grid d) + 1 + 1) with (ihi (grid d) + 2) in E by lia.
  replace (jhi (grid d) + 1 + 1) with (jhi (grid d) + 2) in E by lia.
  rewrite E by (done || lia). clear E.
  rewrite bind_lift_ok, store_r_put.
  f_equal. apply on_level_ext. intros d' Hd'.
  assert (d' = d) as -> by congruence.
  unfold residual_level, residual. f_equal.
  apply update_cells_ext; [apply interior_between|].
  intros i j _. unfold residual_at.
  by rewrite (fadd_comm (item (var_v d) (i - 1) j)),
             (fadd_comm (item (var_v d) i (j - 1))).
Qed.

End Residual.

(** ** The hierarchy invariant *)
Section HierarchyInvariant.
Import Float Py NP Multigrid Patch Spec.
Context `{API : PatchAPI} `{!PatchShapes API}.
Implicit Types (self : ccMG2d) (d : ccData2d) (level : nat).

Lemma level_ok_set_v d a : level_ok d -> on_grid (grid d) a -> level_ok (set_var_v a d).
Proof. intros (? & ? & ? & ?) ?. unfold level_ok. simpl. auto. Qed.

Lemma level_ok_set_f d a : level_ok d -> on_grid (grid d) a -> level_ok (set_var_f a d).
Proof. intros (? & ? & ? & ?) ?. unfold level_ok. simpl. auto. Qed.

Lemma level_ok_set_r d a : level_ok d -> on_grid (grid d) a -> level_ok (set_var_r a d).
Proof. intros (? & ? & ? & ?) ?. unfold level_ok. simpl. auto. Qed.

Lemma level_ok_smooth al be n d : level_ok d -> level_ok (smooth_level al be n d).
Proof.
  intros Hd. apply level_ok_set_v; [done|].
  apply rect_smooth. by destruct Hd as (? & ? & ?).
Qed.

Lemma level_ok_residual al be d : level_ok d -> level_ok (residual_level al be d).
Proof.
  intros Hd. apply level_ok_set_r; [done|].
  apply rect_update_cells. by destruct Hd as (? & ? & ? & ?).
Qed.

Lemma hierarchy_ok_on_level level F self :
  hierarchy_ok self ->
  (forall d, grids self !! level = Some d -> level_ok d ->
     level_ok (F d) /\ grid (F d) = grid d) ->
  hierarchy_ok (on_level level F self).
Proof.
  intros (H1 & H2 & H3) HF. split; [done|].
  split; [simpl; by rewrite length_alter|].
  intros l d Hd. simpl in Hd. destruct (decide (level = l)) as [<-|Hne].
  - rewrite list_lookup_alter_eq in Hd.
    destruct (grids self !! level) as [d0|] eqn:E; [|done].
    simpl in Hd. injection Hd as <-.
    destruct (H3 _ _ E) as (Hok & ? & ? & ?).
    destruct (HF _ eq_refl Hok) as [Hok' Hg]. by rewrite Hg.
  - rewrite list_lookup_alter_ne in Hd by done. by apply H3.
Qed.

Lemma hierarchy_level self level :
  hierarchy_ok self -> (level < nlevels self)%nat ->
  exists d, grids self !! level = Some d /\ level_ok d /\
    nx (grid d) = 2 ^ Z.of_nat level /\ ny (grid d) = 2 ^ Z.of_nat level /\
    ng (grid d) = 1.
Proof.
  intros (H1 & H2 & H3) Hl.
  destruct (lookup_lt_is_Some_2 (grids self) level) as [d Hd]; [lia|].
  exists d. split; [done|]. by apply H3.
Qed.

Lemma hierarchy_ok_smooth_on level self :
  hierarchy_ok self -> hierarchy_ok (smooth_on level self).
Proof.
  intros Hs. apply hierarchy_ok_on_level; [done|].
  intros d _ Hd. split; [by apply level_ok_smooth|done].
Qed.

Lemma hierarchy_ok_residual_on level self :
  hierarchy_ok self -> hierarchy_ok (residual_on level self).
Proof.
  intros Hs. apply hierarchy_ok_on_level; [done|].
  intros d _ Hd. split; [by apply level_ok_residual|done].
Qed.

Lemma hierarchy_ok_diagnostic level self :
  hierarchy_ok self -> hierarchy_ok (diagnostic_residual level self).
Proof.
  intros Hs. unfold diagnostic_residual. destruct (truthy _); [|done].
  by apply hierarchy_ok_residual_on.
Qed.

Lemma pow2_half (l : nat) : 2 ^ Z.of_nat (S l) / 2 = 2 ^ Z.of_nat l.
Proof.
  rewrite Nat2Z.inj_succ, Z.pow_succ_r by lia.
  rewrite Z.mul_comm. by apply Z.div_mul.
Qed.

Lemma restrict_on_grid dc df (l : nat) a :
  level_ok dc -> level_ok df ->
  nx (grid dc) = 2 ^ Z.of_nat l -> ny (grid dc) = 2 ^ Z.of_nat l -> ng (grid dc) = 1 ->
  nx (grid df) = 2 ^ Z.of_nat (S l) -> ny (grid df) = 2 ^ Z.of_nat (S l) ->
  ng (grid df) = 1 ->
  on_grid (grid dc) (restrict (grid df) a).
Proof.
  intros ((_ & _ & _ & Hqx & Hqy & _) & _) _ Hnx Hny Hng Hfx Hfy Hfg.
  unfold on_grid, rect. rewrite restrict_dims.
  by rewrite Hqx, Hqy, Hfx, Hfy, Hfg, !pow2_half, Hnx, Hny, Hng.
Qed.

Lemma prolong_on_grid dc df (l : nat) a :
  level_ok dc -> level_ok df ->
  nx (grid dc) = 2 ^ Z.of_nat l -> ny (grid dc) = 2 ^ Z.of_nat l -> ng (grid dc) = 1 ->
  nx (grid df) = 2 ^ Z.of_nat (S l) -> ny (grid df) = 2 ^ Z.of_nat (S l) ->
  ng (grid df) = 1 ->
  on_grid (grid df) (prolong (grid dc) a).
Proof.
  intros _ ((_ & _ & _ & Hqx & Hqy & _) & _) Hnx Hny Hng Hfx Hfy Hfg.
  unfold on_grid, rect. rewrite prolong_dims.
  rewrite Hqx, Hqy, Hfx, Hfy, Hfg, Hnx, Hny, Hng.
  by rewrite Nat2Z.inj_succ, Z.pow_succ_r by lia.
Qed.

Lemma hierarchy_ok_restrict_on level self :
  hierarchy_ok self -> (1 <= level)%nat -> hierarchy_ok (restrict_on level self).
Proof.
  intros Hs Hl. unfold restrict_on.
  destruct (grids self !! level) as [fine|] eqn:Ef; [|done].
  apply hierarchy_ok_on_level; [done|]. intros dc Hdc Hok.
  split; [|done]. apply level_ok_set_f; [done|].
  destruct Hs as (_ & _ & H3).
  destruct (H3 _ _ Ef) as (Hokf & ? & ? & ?).
  destruct (H3 _ _ Hdc) as (_ & ? & ? & ?).
  destruct level as [|l]; [lia|].
  replace (S l - 1)%nat with l in * by lia.
  by apply (restrict_on_grid dc fine l).
Qed.

Lemma hierarchy_ok_correct_on level self :
  hierarchy_ok self -> (1 <= level)%nat -> hierarchy_ok (correct_on level self).
Proof.
  intros Hs Hl. unfold correct_on.
  destruct (grids self !! (level - 1)%nat) as [coarse|] eqn:Ec; [|done].
  apply hierarchy_ok_on_level; [done|]. intros df Hdf Hok.
  split; [|done]. apply level_ok_set_v; [done|].
  apply rect_update_cells. by destruct Hok as (? & ? & ?).
Qed.

Lemma hierarchy_ok_bottom self : hierarchy_ok self -> hierarchy_ok (bottom self).
Proof.
  intros Hs. apply hierarchy_ok_on_level; [done|]. intros d Hd Hok.
  split; [|done]. apply level_ok_set_v; [done|].
  apply rect_fill_ghosts, rect_update_cells. by destruct Hok as (? & ? & ?).
Qed.

Lemma hierarchy_ok_descent_level level self :
  hierarchy_ok self -> (1 <= level)%nat -> hierarchy_ok (descent_level self level).
Proof.
  intros Hs Hl. unfold descent_level.
  apply hierarchy_ok_restrict_on; [|done].
  by apply hierarchy_ok_residual_on, hierarchy_ok_smooth_on, hierarchy_ok_diagnostic.
Qed.

Lemma hierarchy_ok_ascent_level level self :
  hierarchy_ok self -> (1 <= level)%nat -> hierarchy_ok (ascent_level self level).
Proof.
  intros Hs Hl. unfold ascent_level.
  apply hierarchy_ok_diagnostic, hierarchy_ok_smooth_on, hierarchy_ok_diagnostic.
  by apply hierarchy_ok_correct_on.
Qed.

End HierarchyInvariant.

(** ** The V-cycle refines its level-by-level description *)
Section VCycle.
Import Float Py NP Multigrid Patch Spec.
Context `{API : PatchAPI} `{!PatchShapes API}.
Implicit Types (self : ccMG2d) (d : ccData2d) (level : nat).

Lemma set_grids_same self : set_grids (grids self) self = self.
Proof. by destruct self. Qed.

Lemma set_grids_set_grids gs gs' self :
  set_grids gs (set_grids gs' self) = set_grids gs self.
Proof. done. Qed.

Lemma setslice_all n m (a rhs : ndarray) :
  rect n m a -> rect n m rhs -> setslice a All All rhs = Ok rhs.
Proof.
  intros Ha Hrhs.
  rewrite (setslice_update_cells n m a All All rhs
             (fun i j => (i <? n)%nat && (j <? m)%nat) (item rhs)).
  - f_equal. apply (array_eq n m); [by apply rect_update_cells|done|].
    intros i j Hi Hj. rewrite (item_update_cells n m) by done.
    apply Nat.ltb_lt in Hi, Hj. by rewrite Hi, Hj.
  - done.
  - simpl. by rewrite !length_seq.
  - simpl. intros ki kj i j Hi Hj.
    apply lookup_seq in Hi as [-> _]. by apply lookup_seq in Hj as [-> _].
  - simpl. intros i j. rewrite andb_true_iff, !Nat.ltb_lt, !elem_of_seq. lia.
Qed.

Lemma zero_below_0 self : zero_below 0 self = self.
Proof.
  destruct self. unfold zero_below, set_grids. simpl. f_equal.
  apply list_eq. intros l. rewrite list_lookup_imap.
  by destruct (_ !! l).
Qed.

Lemma zero_levels_spec todo level self :
  (level + todo <= length (grids self))%nat ->
  zero_levels todo level (zero_below level self)
  = (Ok tt, zero_below (level + todo) self).
Proof.
  revert level. induction todo as [|todo IH]; intros level Hle.
  { by rewrite Nat.add_0_r. }
  cbn [zero_levels].
  destruct (lookup_lt_is_Some_2 (grids self) level) as [d Hd]; [lia|].
  assert (grids (zero_below level self) !! level = Some d) as Hd'.
  { simpl. rewrite list_lookup_imap, Hd. simpl. by rewrite Nat.ltb_irrefl. }
  rewrite (bind_ok _ _ _ tt (zero_below (S level) self)).
  - rewrite IH by lia. do 2 f_equal. lia.
  - rewrite (bind_ok _ _ _ d _) by (by apply grids_at_ok).
    unfold store_v, modify. f_equal. unfold zero_below.
    rewrite set_grids_set_grids. f_equal. cbn [grids set_grids].
    apply list_eq. intros l. destruct (decide (level = l)) as [<-|Hne].
    + rewrite list_lookup_alter_eq, !list_lookup_imap, Hd. simpl.
      rewrite Nat.ltb_irrefl. by rewrite (proj2 (Nat.ltb_lt level (S level))) by lia.
    + rewrite list_lookup_alter_ne, !list_lookup_imap by done.
      destruct (grids self !! l); [|done]. simpl.
      destruct (Nat.ltb_spec l level), (Nat.ltb_spec l (S level)); try done; lia.
Qed.

Lemma hierarchy_ok_zero_below top self :
  hierarchy_ok self -> hierarchy_ok (zero_below top self).
Proof.
  intros (H1 & H2 & H3). split; [done|].
  split; [simpl; by rewrite length_imap|].
  intros l d Hd. simpl in Hd. rewrite list_lookup_imap in Hd.
  destruct (grids self !! l) as [d0|] eqn:E; [|done]. simpl in Hd.
  destruct (H3 _ _ E) as (Hok & ? & ? & ?).
  destruct (l <? top)%nat; injection Hd as <-; [|done].
  split; [|done]. apply level_ok_set_v; [done|].
  destruct Hok as (_ & Hv & _). unfold on_grid, rect, dims, fill in *.
  rewrite <- Hv, <- list_fmap_compose. apply list_fmap_ext.
  intros _ row _. simpl. by rewrite length_fmap.
Qed.

Lemma diagnostic_call level self :
  hierarchy_ok self -> (level < nlevels self)%nat ->
  (do verbose <- gets verbose;
   when (truthy verbose) (computeResidual level))%py self
  = (Ok tt, diagnostic_residual level self).
Proof.
  intros Hs Hl. rewrite bind_gets. unfold diagnostic_residual, when.
  destruct (truthy (verbose self)); [|done].
  destruct (hierarchy_level self level Hs Hl) as (d & Hd & Hok & _).
  by apply (computeResidual_spec level self d).
Qed.

Lemma smooth_call level self :
  hierarchy_ok self -> (level < nlevels self)%nat ->
  (do nsmooth <- gets nsmooth; Multigrid.smooth level nsmooth)%py self
  = (Ok tt, smooth_on level self).
Proof.
  intros Hs Hl. rewrite bind_gets.
  destruct (hierarchy_level self level Hs Hl) as (d & Hd & Hok & _).
  by apply (smooth_spec level _ self d).
Qed.

Lemma residual_call level self :
  hierarchy_ok self -> (level < nlevels self)%nat ->
  computeResidual level self = (Ok tt, residual_on level self).
Proof.
  intros Hs Hl.
  destruct (hierarchy_level self level Hs Hl) as (d & Hd & Hok & _).
  by apply (computeResidual_spec level self d).
Qed.

Lemma restrict_call coarse self :
  hierarchy_ok self -> (S coarse < nlevels self)%nat ->
  (do fPd <- grids_at (S coarse);
   do cPd <- grids_at coarse;
   do f_coarse <- lift (setslice (var_f cPd) All All
                          (restrict (grid fPd) (var_r fPd)));
   store_f coarse f_coarse)%py self
  = (Ok tt, restrict_on (S coarse) self).
Proof.
  intros Hs Hl.
  destruct (hierarchy_level self (S coarse) Hs Hl) as (df & Hdf & Hokf & ? & ? & ?).
  destruct (hierarchy_level self coarse Hs) as (dc & Hdc & Hokc & ? & ? & ?); [lia|].
  rewrite (bind_ok _ _ _ df self) by (by apply grids_at_ok).
  rewrite (bind_ok _ _ _ dc self) by (by apply grids_at_ok).
  rewrite (setslice_all (Z.to_nat (qx (grid dc))) (Z.to_nat (qy (grid dc))));
    [|by destruct Hokc as (_ & _ & ? & _)|by apply (restrict_on_grid dc df coarse)].
  rewrite bind_lift_ok. unfold restrict_on. rewrite Hdf.
  by replace (S coarse - 1)%nat with coarse by lia.
Qed.

Lemma descent_from_succ level self :
  descent_from (S level) self = descent_from level (descent_level self (S level)).
Proof.
  unfold descent_from. by rewrite seq_S, reverse_app.
Qed.

Lemma nlevels_descent_level level self :
  nlevels (descent_level self level) = nlevels self.
Proof.
  unfold descent_level, restrict_on, residual_on, smooth_on, diagnostic_residual.
  destruct (truthy _); by destruct (_ !! level).
Qed.

Lemma descend_spec level fP self :
  hierarchy_ok self -> (level < nlevels self)%nat ->
  descend level fP self
  = (Ok (match level with O => fP | S _ => Some 1%nat end), descent_from level self).
Proof.
  revert fP self. induction level as [|coarse IH]; intros fP self Hs Hl; [done|].
  cbn [descend].
  destruct (hierarchy_level self (S coarse) Hs Hl) as (df & Hdf & _).
  destruct (hierarchy_level self coarse Hs) as (dc & Hdc & _); [lia|].
  rewrite (bind_ok _ _ _ df self) by (by apply grids_at_ok).
  rewrite (bind_ok _ _ _ dc self) by (by apply grids_at_ok).
  rewrite (bind_ok _ _ _ _ _ (diagnostic_call (S coarse) self Hs Hl)).
  set (s1 := diagnostic_residual (S coarse) self).
  assert (hierarchy_ok s1) as Hs1 by (by apply hierarchy_ok_diagnostic).
  assert (nlevels s1 = nlevels self) as Hn1.
  { unfold s1, diagnostic_residual. by destruct (truthy _). }
  rewrite (bind_ok _ _ _ tt (smooth_on (S coarse) s1))
    by (apply smooth_call; [done|lia]).
  set (s2 := smooth_on (S coarse) s1).
  assert (hierarchy_ok s2) as Hs2 by (by apply hierarchy_ok_smooth_on).
  rewrite (bind_ok _ _ _ tt (residual_on (S coarse) s2))
    by (apply residual_call; [done|simpl; lia]).
  set (s3 := residual_on (S coarse) s2).
  assert (hierarchy_ok s3) as Hs3 by (by apply hierarchy_ok_residual_on).
  rewrite (bind_ok _ _ _ tt (restrict_on (S coarse) s3))
    by (apply restrict_call; [done|simpl; lia]).
  rewrite descent_from_succ.
  rewrite IH.
  - by destruct coarse.
  - by apply hierarchy_ok_restrict_on; [|lia].
  - change (coarse < nlevels (descent_level self (S coarse)))%nat.
    rewrite nlevels_descent_level. lia.
Qed.

Lemma bottom_row_cells d :
  level_ok d ->
  (let? frow := getrow (var_f d) (ilo (grid d)) in
   setrow (var_v d) (ilo (grid d))
     ((fun x => fmul (fmul (fmul m0125 x) (dx (grid d))) (dx (grid d))) <$> frow))%py
  = Ok (bottom_cells d).
Proof.
  intros (Hg & Hv & Hf & _).
  destruct Hg as (? & ? & ? & Hqx & Hqy & Hilo & _).
  set (n := Z.to_nat (qx (grid d))) in *. set (m := Z.to_nat (qy (grid d))) in *.
  set (k := Z.to_nat (ilo (grid d))).
  assert (k < n)%nat as Hk by (unfold k, n; lia).
  assert (index n (ilo (grid d)) = Ok k) as Hidx.
  { unfold index.
    destruct (Z.leb_spec 0 (ilo (grid d))); [|lia].
    destruct (Z.ltb_spec (ilo (grid d)) (Z.of_nat n)); [done|]. unfold n in *. lia. }
  unfold getrow, setrow.
  rewrite (rect_length n m _ Hf), (rect_length n m _ Hv), Hidx. cbn [obind].
  destruct (rect_lookup n m (var_f d) k Hf Hk) as (frow & Hfrow & Hfl).
  destruct (rect_lookup n m (var_v d) k Hv Hk) as (vrow & Hvrow & Hvl).
  rewrite Hfrow, Hvrow. cbn [from_option id].
  rewrite decide_True by (by rewrite length_fmap, Hfl, Hvl).
  f_equal. apply (array_eq n m).
  - apply rect_intro; [by rewrite length_insert, (rect_length n m)|].
    intros i row Hrow. destruct (decide (k = i)) as [<-|Hne].
    + rewrite list_lookup_insert_eq in Hrow by (by rewrite (rect_length n m)).
      injection Hrow as <-. by rewrite length_fmap.
    + rewrite list_lookup_insert_ne in Hrow by done.
      by apply (rect_row n m (var_v d) i).
  - by apply rect_update_cells.
  - intros i j Hi Hj. unfold bottom_cells.
    rewrite (item_update_cells n m) by done.
    destruct (decide (k = i)) as [<-|Hne].
    + rewrite (proj2 (Z.eqb_eq _ _)) by (unfold k; lia).
      destruct (lookup_lt_is_Some_2 frow j) as [x Hx]; [lia|].
      rewrite (item_lookup (var_f d) k j frow x) by done.
      eapply item_lookup.
      * apply list_lookup_insert_eq. by rewrite (rect_length n m).
      * by rewrite list_lookup_fmap, Hx.
    + rewrite (proj2 (Z.eqb_neq _ _)) by (unfold k in Hne; lia).
      unfold item. by rewrite list_lookup_insert_ne.
Qed.

Lemma bottom_call self :
  hierarchy_ok self -> bottom_solve self = (Ok tt, bottom self).
Proof.
  intros Hs.
  destruct (hierarchy_level self 0 Hs) as (d & Hd & Hok & _).
  { destruct Hs. lia. }
  unfold bottom_solve.
  rewrite (bind_ok _ _ _ tt (put_v 0 (bottom_cells d) self)).
  - rewrite (fillBC_v_put 0 self d _ Hd). f_equal.
    apply on_level_ext. intros d' Hd'. by assert (d' = d) as -> by congruence.
  - rewrite (bind_ok _ _ _ d self) by (by apply grids_at_ok).
    pose proof (bottom_row_cells d Hok) as E. unfold lift, bind.
    destruct (getrow _ _) as [frow|]; [|done]. cbn [obind] in E. by rewrite E.
Qed.

Lemma correct_call level self :
  hierarchy_ok self -> (1 <= level)%nat -> (level < nlevels self)%nat ->
  (do fPd <- grids_at level;
   do cPd <- grids_at (level - 1);
   let e := prolong (grid cPd) (var_v cPd) in
   do v <- lift (add (var_v fPd) e);
   store_v level v)%py self
  = (Ok tt, correct_on level self).
Proof.
  intros Hs Hl1 Hl. destruct level as [|coarse]; [lia|].
  replace (S coarse - 1)%nat with coarse by lia.
  destruct (hierarchy_level self (S coarse) Hs Hl) as (df & Hdf & Hokf & ? & ? & ?).
  destruct (hierarchy_level self coarse Hs) as (dc & Hdc & Hokc & ? & ? & ?); [lia|].
  rewrite (bind_ok _ _ _ df self) by (by apply grids_at_ok).
  rewrite (bind_ok _ _ _ dc self) by (by apply grids_at_ok).
  cbn zeta.
  assert (on_grid (grid df) (prolong (grid dc) (var_v dc))) as He
    by (by apply (prolong_on_grid dc df coarse)).
  assert (on_grid (grid df) (var_v df)) as Hv by (by destruct Hokf as (_ & ? & _)).
  unfold add. rewrite (zip2_ok _ _ _ _ _ Hv He), bind_lift_ok.
  unfold correct_on, store_v, modify.
  replace (S coarse - 1)%nat with coarse by lia. rewrite Hdc.
  f_equal. apply on_level_ext. intros d' Hd'.
  assert (d' = df) as -> by congruence. f_equal.
  eapply array_eq; [by apply rect_zip_with|by apply rect_update_cells; exact Hv|].
  intros i j Hi Hj.
  erewrite item_zip_with, item_update_cells by done. done.
Qed.

Lemma nlevels_ascent_level level self :
  nlevels (ascent_level self level) = nlevels self.
Proof.
  unfold ascent_level, correct_on, smooth_on, diagnostic_residual.
  repeat destruct (truthy _); by destruct (_ !! (level - 1)%nat).
Qed.

Lemma ascend_spec todo level fP self :
  hierarchy_ok self -> (1 <= level)%nat -> (level + todo <= nlevels self)%nat ->
  ascend todo level fP self
  = (Ok (match todo with O => fP | S _ => Some (level + todo - 1)%nat end),
     foldl ascent_level self (seq level todo)).
Proof.
  revert level fP self. induction todo as [|todo IH]; intros level fP self Hs Hl1 Hl;
    [done|].
  cbn [ascend seq foldl].
  rewrite (bind_ok _ _ _ tt (correct_on level self))
    by (apply correct_call; [done|done|lia]).
  set (s1 := correct_on level self).
  assert (hierarchy_ok s1) as Hs1 by (by apply hierarchy_ok_correct_on).
  assert (nlevels s1 = nlevels self) as Hn1.
  { unfold s1, correct_on. by destruct (_ !! _). }
  rewrite (bind_ok _ _ _ tt (diagnostic_residual level s1))
    by (apply diagnostic_call; [done|lia]).
  set (s2 := diagnostic_residual level s1).
  assert (hierarchy_ok s2) as Hs2 by (by apply hierarchy_ok_diagnostic).
  assert (nlevels s2 = nlevels self) as Hn2.
  { unfold s2, diagnostic_residual. by destruct (truthy _). }
  rewrite (bind_ok _ _ _ tt (smooth_on level s2))
    by (apply smooth_call; [done|lia]).
  set (s3 := smooth_on level s2).
  assert (hierarchy_ok s3) as Hs3 by (by apply hierarchy_ok_smooth_on).
  rewrite (bind_ok _ _ _ tt (diagnostic_residual level s3))
    by (apply diagnostic_call; [done|change (level < nlevels s2)%nat; lia]).
  change (diagnostic_residual level s3) with (ascent_level self level).
  rewrite IH.
  - match goal with
    | |- (Ok ?a, _) = (Ok ?b, _) => replace a with b; [done|]
    end.
    destruct todo; f_equal; lia.
  - by apply hierarchy_ok_ascent_level.
  - lia.
  - rewrite nlevels_ascent_level. lia.
Qed.

(** One V-cycle of [solve]: the zeroing, then the descent over the levels
    L−1..1, then the bottom solve, then the ascent over the levels 1..L−1. *)
Lemma vcycle_spec fP self :
  hierarchy_ok self ->
  Multigrid.vcycle fP self
  = (Ok (if decide (nlevels self = 1%nat) then fP else Some (nlevels self - 1)%nat),
     Spec.vcycle self).
Proof.
  intros Hs. pose proof Hs as (Hn & Hlen & _).
  unfold Multigrid.vcycle. rewrite bind_get.
  assert (zero_levels (nlevels self - 1) 0 self = (Ok tt, zero_coarse self)) as E.
  { pose proof (zero_levels_spec (nlevels self - 1) 0 self) as E0.
    rewrite zero_below_0 in E0. apply E0. lia. }
  rewrite (bind_ok _ _ _ _ _ E). clear E.
  assert (hierarchy_ok (zero_coarse self)) as Hs1 by (by apply hierarchy_ok_zero_below).
  rewrite (bind_ok _ _ _ _ _ (descend_spec (nlevels self - 1) fP _ Hs1 ltac:(simpl; lia))).
  change (descent_from (nlevels self - 1) (zero_coarse self))
    with (descent (zero_coarse self)).
  set (s2 := descent (zero_coarse self)).
  assert (hierarchy_ok s2 /\ nlevels s2 = nlevels self) as [Hs2 Hn2].
  { unfold s2, descent, descent_from.
    change (nlevels (zero_coarse self)) with (nlevels self).
    generalize (zero_coarse self) Hs1 (eq_refl : nlevels (zero_coarse self) = nlevels self).
    induction (nlevels self - 1)%nat as [|k IH]; intros s Hs' Hn'; [done|].
    rewrite seq_S, reverse_app. simpl. apply IH.
    - by apply hierarchy_ok_descent_level; [|lia].
    - by rewrite nlevels_descent_level. }
  rewrite (bind_ok _ _ _ _ _ (bottom_call s2 Hs2)).
  assert (hierarchy_ok (bottom s2)) as Hs3 by (by apply hierarchy_ok_bottom).
  rewrite ascend_spec; [|done|lia|simpl; lia].
  unfold Spec.vcycle, ascent, ascent_to. fold s2.
  change (nlevels (bottom s2)) with (nlevels s2). rewrite Hn2.
  f_equal. destruct (nlevels self - 1)%nat as [|k] eqn:Ek.
  - rewrite decide_True by lia. done.
  - rewrite decide_False by lia. by replace (1 + S k - 1)%nat with (S k) by lia.
Qed.

End VCycle.

(** ** What a cycle leaves alone *)
Section Attributes.
Import Float Py NP Multigrid Patch Spec.
Context `{NP : NumPy} `{API : PatchAPI} `{!PatchShapes API}.
Implicit Types (self s : ccMG2d) (d : ccData2d) (level : nat).

(** [s'] differs from [s] in the arrays of the hierarchy only. *)
Lemma only_grids_trans s s1 s2 :
  s1 = set_grids (grids s1) s -> s2 = set_grids (grids s2) s1 ->
  s2 = set_grids (grids s2) s.
Proof. intros E1 E2. rewrite E2 at 1. rewrite E1. done. Qed.

Lemma only_grids_diagnostic level s :
  diagnostic_residual level s = set_grids (grids (diagnostic_residual level s)) s.
Proof.
  unfold diagnostic_residual. destruct (truthy _); [done|].
  by rewrite set_grids_same.
Qed.

Lemma only_grids_descent_level s level :
  descent_level s level = set_grids (grids (descent_level s level)) s.
Proof.
  unfold descent_level, restrict_on.
  set (s3 := residual_on level _).
  assert (s3 = set_grids (grids s3) s) as E3.
  { unfold s3, residual_on, smooth_on.
    apply (only_grids_trans _ (diagnostic_residual level s));
      [apply only_grids_diagnostic|done]. }
  destruct (grids s3 !! level); [|done].
  by apply (only_grids_trans _ s3).
Qed.

Lemma only_grids_ascent_level s level :
  ascent_level s level = set_grids (grids (ascent_level s level)) s.
Proof.
  unfold ascent_level.
  assert (correct_on level s = set_grids (grids (correct_on level s)) s) as E1.
  { unfold correct_on. destruct (_ !! _); [done|]. by rewrite set_grids_same. }
  eapply only_grids_trans; [|apply only_grids_diagnostic].
  eapply only_grids_trans; [|done].
  eapply only_grids_trans; [|apply only_grids_diagnostic]. done.
Qed.

Lemma only_grids_foldl (step : ccMG2d -> nat -> ccMG2d) (levels : list nat) s :
  (forall s l, step s l = set_grids (grids (step s l)) s) ->
  foldl step s levels = set_grids (grids (foldl step s levels)) s.
Proof.
  intros Hstep. revert s. induction levels as [|l levels IH]; intros s; simpl.
  - by rewrite set_grids_same.
  - eapply only_grids_trans; [apply Hstep|apply IH].
Qed.

Lemma only_grids_vcycle s : Spec.vcycle s = set_grids (grids (Spec.vcycle s)) s.
Proof.
  unfold Spec.vcycle, ascent, ascent_to, descent, descent_from.
  eapply only_grids_trans; [|apply only_grids_foldl, only_grids_ascent_level].
  eapply only_grids_trans; [|done].
  eapply only_grids_trans; [|apply only_grids_foldl, only_grids_descent_level].
  done.
Qed.

Lemma only_grids_cycle_end s : cycle_end s = set_grids (grids (cycle_end s)) s.
Proof.
  unfold cycle_end. eapply only_grids_trans; [apply only_grids_vcycle|done].
Qed.

Lemma only_grids_after_cycles k s :
  after_cycles k s = set_grids (grids (after_cycles k s)) s.
Proof.
  unfold after_cycles. induction k as [|k IH]; simpl.
  - by rewrite set_grids_same.
  - eapply only_grids_trans; [apply IH|apply only_grids_cycle_end].
Qed.

Lemma hierarchy_ok_foldl (step : ccMG2d -> nat -> ccMG2d) (levels : list nat) s :
  (forall s l, (1 <= l)%nat -> hierarchy_ok s -> hierarchy_ok (step s l)) ->
  Forall (fun l => 1 <= l)%nat levels ->
  hierarchy_ok s -> hierarchy_ok (foldl step s levels).
Proof.
  intros Hstep Hl. revert s. induction Hl as [|l levels Hl1 _ IH]; intros s Hs; simpl;
    [done|].
  by apply IH, Hstep.
Qed.

Lemma Forall_seq_ge1 n : Forall (fun l => 1 <= l)%nat (seq 1 n).
Proof. apply Forall_seq. lia. Qed.

Lemma hierarchy_ok_vcycle s : hierarchy_ok s -> hierarchy_ok (Spec.vcycle s).
Proof.
  intros Hs. unfold Spec.vcycle, ascent, ascent_to, descent, descent_from.
  apply hierarchy_ok_foldl; [|apply Forall_seq_ge1|].
  { intros. by apply hierarchy_ok_ascent_level. }
  apply hierarchy_ok_bottom.
  apply hierarchy_ok_foldl;
    [|apply Forall_reverse, Forall_seq_ge1|by apply hierarchy_ok_zero_below].
  intros. by apply hierarchy_ok_descent_level.
Qed.

Lemma hierarchy_ok_cycle_end s : hierarchy_ok s -> hierarchy_ok (cycle_end s).
Proof. intros Hs. by apply hierarchy_ok_residual_on, hierarchy_ok_vcycle. Qed.

Lemma nlevels_only_grids s s' : s' = set_grids (grids s') s -> nlevels s' = nlevels s.
Proof. by intros ->. Qed.

End Attributes.

(** ** The loop of [solve] *)
Section SolveLoop.
Import Float Py NP Multigrid Patch Spec.
Context `{NP : NumPy} `{API : PatchAPI} `{!PatchShapes API}.
Implicit Types (self s : ccMG2d) (d : ccData2d) (level : nat).

Lemma finest_level s :
  hierarchy_ok s ->
  exists d, finest s = Some d /\ level_ok d.
Proof.
  intros Hs. destruct (hierarchy_level s (nlevels s - 1)) as (d & Hd & Hok & _);
    [done|destruct Hs; lia|]. eauto.
Qed.

Lemma finest_residual_on s d :
  finest s = Some d ->
  finest (residual_on (nlevels s - 1) s)
  = Some (residual_level (alpha s) (beta s) d).
Proof.
  intros Hd. unfold finest in *. simpl. by rewrite list_lookup_alter_eq, Hd.
Qed.

Lemma finest_v_residual_on s :
  finest_v (residual_on (nlevels s - 1) s) = finest_v s.
Proof.
  unfold finest_v. destruct (finest s) as [d|] eqn:E.
  - by rewrite (finest_residual_on s d).
  - unfold finest in *. simpl. by rewrite list_lookup_alter_eq, E.
Qed.

Lemma check_convergence_spec rtol cycle old s :
  hierarchy_ok s ->
  (forall d, finest s = Some d -> on_grid (grid d) old) ->
  check_convergence rtol cycle old (Some (nlevels s - 1)%nat) s
  = let s' := residual_on (nlevels s - 1) s in
    if fltb (residual_error s') rtol
    then (Ok (true, finest_v s),
          fill_finest (set_diagnostics cycle (relative_error old s')
                         (residual_error s') s'))
    else (Ok (false, finest_v s), s').
Proof.
  intros Hs Hold. destruct (finest_level s Hs) as (d & Hd & Hok).
  pose proof (Hold d Hd) as Ho. pose proof Hok as (Hg & Hv & _).
  unfold check_convergence. rewrite bind_get.
  rewrite (bind_ok _ _ _ d s) by (by apply grids_at_ok).
  unfold sub, div, adds.
  rewrite (zip2_ok _ _ _ _ _ Hv Ho). cbn [obind].
  rewrite (zip2_ok (Z.to_nat (qx (grid d))) (Z.to_nat (qy (grid d))));
    [|by apply rect_zip_with|by apply rect_map2].
  rewrite bind_lift_ok.
  rewrite (bind_ok _ _ _ tt (residual_on (nlevels s - 1) s)).
  2:{ apply residual_call; [done|destruct Hs; lia]. }
  rewrite bind_ret.
  set (s' := residual_on (nlevels s - 1) s).
  assert (finest s' = Some (residual_level (alpha s) (beta s) d)) as Hd'
    by (by apply finest_residual_on).
  rewrite (bind_ok _ _ _ (residual_level (alpha s) (beta s) d) s')
    by (by apply grids_at_ok).
  assert (relative_error old s'
          = error (grid d)
              (zip_with (zip_with fdiv) (zip_with (zip_with fsub) (var_v d) old)
                 (map2 (fun x => fadd x (small s)) (var_v d)))) as Erel.
  { unfold relative_error. rewrite Hd'. cbn [grid var_v residual_level set_var_r].
    f_equal. symmetry.
    eapply array_eq;
      [apply rect_zip_with; [by apply rect_zip_with|by apply rect_map2]
      |by apply rect_update_cells; exact Hv|].
    intros i j Hi Hj.
    erewrite item_zip_with, item_zip_with, item_map2, item_update_cells;
      try done; try (by apply rect_zip_with); by apply rect_map2. }
  assert (residual_error s'
          = if fneb (sourceNorm s) zero
            then fdiv (error (grid (residual_level (alpha s) (beta s) d))
                         (var_r (residual_level (alpha s) (beta s) d)))
                      (sourceNorm s)
            else error (grid (residual_level (alpha s) (beta s) d))
                   (var_r (residual_level (alpha s) (beta s) d))) as Eres.
  { unfold residual_error. by rewrite Hd'. }
  cbn zeta. rewrite <- Eres, <- Erel.
  assert (finest_v s = copy (var_v d)) as Ev.
  { unfold finest_v. by rewrite Hd. }
  rewrite <- Ev.
  destruct (fltb (residual_error s') rtol); [|done].
  rewrite bind_modify.
  set (s2 := set_diagnostics _ _ _ s').
  assert (fillBC_v (nlevels s - 1) s2 = (Ok tt, fill_finest s2)) as Ef.
  { unfold fillBC_v.
    rewrite (bind_ok _ _ _ (residual_level (alpha s) (beta s) d) s2)
      by (by apply grids_at_ok).
    unfold store_v, modify, fill_finest. f_equal.
    apply on_level_ext. intros d2 Hd2.
    assert (d2 = residual_level (alpha s) (beta s) d) as ->; [|done].
    unfold finest in Hd'. simpl in Hd', Hd2. congruence. }
  by rewrite (bind_ok _ _ _ _ _ Ef).
Qed.

Lemma on_grid_level s l d a :
  hierarchy_ok s -> grids s !! l = Some d ->
  on_grid (grid d) a
  <-> rect (Z.to_nat (2 ^ Z.of_nat l + 2)) (Z.to_nat (2 ^ Z.of_nat l + 2)) a.
Proof.
  intros (_ & _ & H3) Hd.
  destruct (H3 _ _ Hd) as (((_ & _ & _ & Hqx & Hqy & _) & _) & Hnx & Hny & Hng).
  unfold on_grid. by rewrite Hqx, Hqy, Hnx, Hny, Hng.
Qed.

Lemma nlevels_vcycle s : nlevels (Spec.vcycle s) = nlevels s.
Proof. apply nlevels_only_grids, only_grids_vcycle. Qed.

Lemma nlevels_cycle_end s : nlevels (cycle_end s) = nlevels s.
Proof. apply nlevels_only_grids, only_grids_cycle_end. Qed.

Lemma finest_v_cycle_end s : finest_v (cycle_end s) = finest_v (Spec.vcycle s).
Proof.
  unfold cycle_end. rewrite <- (nlevels_vcycle s). apply finest_v_residual_on.
Qed.

(** One turn of the loop of [solve]. *)
Lemma cycles_step todo rtol cycle fP s :
  hierarchy_ok s -> (2 <= nlevels s)%nat ->
  cycles (S todo) rtol cycle (finest_v s) fP s
  = if fltb (residual_error (cycle_end s)) rtol
    then (Ok tt, converged_at cycle s)
    else cycles todo rtol (cycle + 1) (finest_v (cycle_end s))
           (Some (nlevels s - 1)%nat) (cycle_end s).
Proof.
  intros Hs Hn. cbn [cycles].
  rewrite (bind_ok _ _ _ _ _ (vcycle_spec fP s Hs)).
  rewrite decide_False by lia.
  assert (hierarchy_ok (Spec.vcycle s)) as Hvs by (by apply hierarchy_ok_vcycle).
  pose proof (check_convergence_spec rtol cycle (finest_v s) (Spec.vcycle s) Hvs) as E.
  rewrite nlevels_vcycle in E. cbn zeta in E.
  change (residual_on (nlevels s - 1) (Spec.vcycle s)) with (cycle_end s) in E.
  rewrite (bind_ok _ _ _
             (if fltb (residual_error (cycle_end s)) rtol then true else false,
              finest_v (Spec.vcycle s))
             (if fltb (residual_error (cycle_end s)) rtol
              then converged_at cycle s else cycle_end s)).
  - cbn [fst snd]. rewrite finest_v_cycle_end.
    by destruct (fltb (residual_error (cycle_end s)) rtol).
  - rewrite E.
    + by destruct (fltb (residual_error (cycle_end s)) rtol).
    + intros d Hd. destruct (finest_level s Hs) as (d0 & Hd0 & Hok0).
      unfold finest in Hd, Hd0. rewrite nlevels_vcycle in Hd.
      apply (on_grid_level _ _ _ _ Hvs Hd).
      apply (on_grid_level _ _ _ _ Hs Hd0).
      unfold finest_v, finest. rewrite Hd0. by destruct Hok0 as (_ & ? & _).
Qed.

Lemma after_cycles_succ k s : after_cycles k (cycle_end s) = after_cycles (S k) s.
Proof. unfold after_cycles. by rewrite Nat.iter_succ_r. Qed.

(** No cycle converges: the loop stops at the cap. *)
Lemma cycles_cap todo rtol cycle fP s :
  hierarchy_ok s -> (2 <= nlevels s)%nat ->
  (forall j, (1 <= j <= todo)%nat ->
     fltb (residual_error (after_cycles j s)) rtol = false) ->
  cycles todo rtol cycle (finest_v s) fP s = (Ok tt, after_cycles todo s).
Proof.
  revert cycle fP s. induction todo as [|todo IH]; intros cycle fP s Hs Hn Hnc; [done|].
  rewrite cycles_step by done.
  pose proof (Hnc 1%nat ltac:(lia)) as H1.
  change (after_cycles 1 s) with (cycle_end s) in H1. rewrite H1.
  rewrite IH.
  - by rewrite after_cycles_succ.
  - by apply hierarchy_ok_cycle_end.
  - by rewrite nlevels_cycle_end.
  - intros j Hj. rewrite after_cycles_succ. apply Hnc. lia.
Qed.

(** Cycle [k] is the first to converge: the loop stops there. *)
Lemma cycles_converge todo k rtol cycle fP s :
  hierarchy_ok s -> (2 <= nlevels s)%nat ->
  (1 <= k <= todo)%nat ->
  (forall j, (1 <= j < k)%nat ->
     fltb (residual_error (after_cycles j s)) rtol = false) ->
  fltb (residual_error (after_cycles k s)) rtol = true ->
  cycles todo rtol cycle (finest_v s) fP s
  = (Ok tt, converged_at (cycle + Z.of_nat k - 1) (after_cycles (k - 1) s)).
Proof.
  revert k cycle fP s. induction todo as [|todo IH]; intros k cycle fP s Hs Hn Hk Hnc Hc;
    [lia|].
  rewrite cycles_step by done.
  destruct (decide (k = 1%nat)) as [->|Hk1].
  - change (after_cycles 1 s) with (cycle_end s) in Hc. rewrite Hc.
    by replace (cycle + Z.of_nat 1 - 1) with cycle by lia.
  - pose proof (Hnc 1%nat ltac:(lia)) as H1.
    change (after_cycles 1 s) with (cycle_end s) in H1. rewrite H1.
    rewrite (IH (k - 1)%nat).
    + rewrite after_cycles_succ. do 2 f_equal; [lia|].
      f_equal. lia.
    + by apply hierarchy_ok_cycle_end.
    + by rewrite nlevels_cycle_end.
    + lia.
    + intros j Hj. rewrite after_cycles_succ. apply Hnc. lia.
    + rewrite after_cycles_succ. by replace (S (k - 1)) with k by lia.
Qed.

Lemma solve_initialised rtol s :
  hierarchy_ok s ->
  truthy (initializedSolution s) = true -> truthy (initializedRHS s) = true ->
  solve rtol s = cycles (Z.to_nat (maxCycles s)) rtol 1 (finest_v s) None s.
Proof.
  intros Hs Hi1 Hi2. unfold solve. rewrite bind_get, Hi1, Hi2. cbn [negb orb].
  rewrite bind_ret.
  destruct (finest_level s Hs) as (d & Hd & _).
  rewrite (bind_ok _ _ _ d s) by (by apply grids_at_ok).
  unfold finest_v. by rewrite Hd.
Qed.

Lemma solve_uninitialised rtol s :
  truthy (initializedSolution s) && truthy (initializedRHS s) = false ->
  solve rtol s = (Raise (NameError "msg"), s).
Proof.
  intros Hi. unfold solve. rewrite bind_get.
  destruct (truthy (initializedSolution s)), (truthy (initializedRHS s)); done.
Qed.

End SolveLoop.

(** ** Smoothing an exact solution *)
Section FixedPoint.
Import Float Py NP Multigrid Patch Spec.
Context `{API : PatchAPI} `{!PatchShapes API}.

Lemma Qc_of_Z_0 : Qc_of_Z 0 = 0%Qc.
Proof. by apply Qc_is_canon. Qed.

Lemma Qc_of_Z_2 : Qc_of_Z 2 = (1 + 1)%Qc.
Proof. by apply Qc_is_canon. Qed.

(** Solving the residual equation for the centre value gives the relaxation
    formula; [ix] and [iy] stand for 1/dx² and 1/dy². *)
Lemma relax_residual_Qc (F V E W N S al be ix iy : Qc) :
  (F + - (al * V)
   + be * ((E + W + - ((1 + 1) * V)) * ix + (N + S + - ((1 + 1) * V)) * iy) = 0)%Qc ->
  (al + (1 + 1) * (be * ix) + (1 + 1) * (be * iy) <> 0)%Qc ->
  ((F + be * ix * (E + W) + be * iy * (N + S))
   / (al + (1 + 1) * (be * ix) + (1 + 1) * (be * iy)) = V)%Qc.
Proof.
  intros Hres Hden.
  assert (F = al * V
              - be * ((E + W + - ((1 + 1) * V)) * ix + (N + S + - ((1 + 1) * V)) * iy))%Qc
    as ->.
  { transitivity
      ((F + - (al * V)
        + be * ((E + W + - ((1 + 1) * V)) * ix + (N + S + - ((1 + 1) * V)) * iy))
       + (al * V
          - be * ((E + W + - ((1 + 1) * V)) * ix + (N + S + - ((1 + 1) * V)) * iy)))%Qc;
      [ring|]. rewrite Hres. ring. }
  field. exact Hden.
Qed.

(** A finite quotient of a finite value: the divisor acts as a finite
    factor. *)
Lemma fdiv_fin_inv y :
  (exists a q, fdiv (Fin a) y = Fin q) ->
  exists iy, forall a, fdiv (Fin a) y = Fin (a * iy)%Qc.
Proof.
  intros (a & q & Hq). destruct y as [b| | |]; simpl in *; try done.
  - destruct (decide (b = 0)%Qc) as [->|Hb].
    + by destruct (a ?= 0)%Qc.
    + exists (/ b)%Qc. intros a'. done.
  - exists 0%Qc. intros a'. unfold zero, of_Z. by rewrite Qc_of_Z_0, Qcmult_0_r.
  - exists 0%Qc. intros a'. unfold zero, of_Z. by rewrite Qc_of_Z_0, Qcmult_0_r.
Qed.

Lemma fdiv_fin_num x y q : fdiv x y = Fin q -> exists a, x = Fin a.
Proof.
  destruct x as [a| | |]; [eauto|..]; destruct y as [b| | |]; simpl; try done;
    by destruct (b ?= 0)%Qc.
Qed.

(** At a cell whose residual vanishes, relaxation returns the value the
    cell already holds, unless the diagonal coefficient is zero. *)
Lemma relaxed_fixed al be g f v i j :
  residual_at al be g f v i j = zero ->
  feqb (fadd (fadd al (fmul two (cx be g))) (fmul two (cy be g))) zero = false ->
  relaxed al be g f v i j = item v i j.
Proof.
  unfold residual_at, relaxed, cx, cy, zero, of_Z.
  set (F := item f i j). set (V := item v i j).
  set (E := item v (i + 1) j). set (W := item v (i - 1) j).
  set (N := item v i (j + 1)). set (S := item v i (j - 1)).
  set (dx2 := fmul (dx g) (dx g)). set (dy2 := fmul (dy g) (dy g)).
  intros Hres Hden.
  pose proof Hres as H0.
  apply fadd_fin in H0 as (t1 & t2 & H1 & H2).
  apply fsub_fin in H1 as (qF & t3 & HF & H3).
  apply fmul_fin in H3 as (qal & qV & Hal & HV).
  apply fmul_fin in H2 as (qbe & t4 & Hbe & H4).
  apply fadd_fin in H4 as (t5 & t6 & H5 & H6).
  pose proof H5 as H5'. apply fdiv_fin_num in H5' as (t7 & H7).
  pose proof H6 as H6'. apply fdiv_fin_num in H6' as (t8 & H8).
  destruct (fdiv_fin_inv dx2) as (ix & Hix); [rewrite H7 in H5; eauto|].
  destruct (fdiv_fin_inv dy2) as (iy & Hiy); [rewrite H8 in H6; eauto|].
  apply fsub_fin in H7 as (t9 & _ & H9 & _).
  apply fadd_fin in H9 as (qE & qW & HE & HW).
  apply fsub_fin in H8 as (t10 & _ & H10 & _).
  apply fadd_fin in H10 as (qN & qS & HN & HS).
  rewrite HF, Hal, HV, Hbe, HE, HW, HN, HS in *.
  unfold two, of_Z in *. rewrite Qc_of_Z_2 in *.
  cbn [fadd fsub fmul fneg] in Hres.
  rewrite Hix, Hiy in Hres. cbn [fadd fmul] in Hres.
  rewrite Hix, Hiy in Hden |- *. cbn [fadd fmul feqb] in Hden |- *.
  rewrite Qc_of_Z_0 in Hres, Hden.
  assert (Hres' := f_equal (fun x => match x with Fin q => q | _ => 0%Qc end) Hres).
  cbn beta iota in Hres'. apply bool_decide_eq_false in Hden.
  unfold fdiv.
  rewrite decide_False by done. f_equal.
  by apply relax_residual_Qc.
Qed.

Lemma solves_interior al be g f v i j :
  solves al be g f v = true ->
  (i < Z.to_nat (qx g))%nat -> (j < Z.to_nat (qy g))%nat ->
  interior g i j = true ->
  residual_at al be g f v i j = zero.
Proof.
  unfold solves. intros Hall Hi Hj Hint.
  rewrite forallb_forall in Hall.
  specialize (Hall i). rewrite forallb_forall in Hall.
  assert (negb (interior g i j) || feqb (residual_at al be g f v i j) zero = true) as H.
  { apply Hall; apply in_seq; lia. }
  rewrite Hint in H. by apply feqb_eq.
Qed.

Lemma sweep_fixed al be g pi pj f v :
  on_grid g v ->
  solves al be g f v = true ->
  feqb (fadd (fadd al (fmul two (cx be g))) (fmul two (cy be g))) zero = false ->
  sweep al be g pi pj f v = v.
Proof.
  intros Hv Hsol Hden. apply (array_eq _ _ _ _ (rect_sweep al be g pi pj v f Hv) Hv).
  intros i j Hi Hj. unfold sweep. rewrite (item_update_cells _ _ _ _ _ _ _ Hv Hi Hj).
  destruct (in_group g pi pj i j) eqn:Hin; [|done].
  apply relaxed_fixed; [|done].
  apply solves_interior; [done..|].
  unfold in_group in Hin. by apply andb_true_iff in Hin as [[? _]%andb_true_iff _].
Qed.

Lemma red_black_pass_fixed al be bc g f v :
  on_grid g v ->
  fillBC bc g v = v ->
  solves al be g f v = true ->
  feqb (fadd (fadd al (fmul two (cx be g))) (fmul two (cy be g))) zero = false ->
  red_black_pass al be bc g f v = v.
Proof.
  intros Hv Hfill Hsol Hden. unfold red_black_pass, fill_ghosts.
  rewrite (sweep_fixed al be g false false f v) by done.
  rewrite (sweep_fixed al be g true true f v) by done.
  rewrite Hfill.
  rewrite (sweep_fixed al be g true false f v) by done.
  by rewrite (sweep_fixed al be g false true f v) by done.
Qed.

Lemma smooth_fixed al be bc g n f v :
  on_grid g v ->
  fillBC bc g v = v ->
  solves al be g f v = true ->
  feqb (fadd (fadd al (fmul two (cx be g))) (fmul two (cy be g))) zero = false ->
  Spec.smooth al be bc g n f v = v.
Proof.
  intros Hv Hfill Hsol Hden. unfold Spec.smooth, fill_ghosts. rewrite Hfill.
  induction n as [|n IH]; [done|]. simpl. rewrite IH.
  by apply red_black_pass_fixed.
Qed.

Lemma smooth_exact level (nsmooth : Z) self d :
  grids self !! level = Some d -> level_ok d ->
  fillBC (BCs d) (grid d) (var_v d) = var_v d ->
  solves (alpha self) (beta self) (grid d) (var_f d) (var_v d) = true ->
  feqb (fadd (fadd (alpha self) (fmul two (cx (beta self) (grid d))))
          (fmul two (cy (beta self) (grid d)))) zero = false ->
  Multigrid.smooth level nsmooth self = (Ok tt, self).
Proof.
  intros Hd Hok Hfill Hsol Hden.
  rewrite (smooth_spec level nsmooth self d Hd Hok). f_equal.
  apply on_level_id. intros d' Hd'. assert (d' = d) as -> by congruence.
  unfold smooth_level. rewrite smooth_fixed; [by destruct d| |done..].
  by destruct Hok as (_ & ? & _).
Qed.

End FixedPoint.

(** ** Invariants of a method body *)
Section Keeps.
Import Py.
Context {S : Type} (I : S -> Prop).

Abbreviation keeps := (Hoare.keeps I).

Lemma keeps_bind {A B} (m : M S A) (k : A -> M S B) Q R :
  keeps m Q -> (forall a, Q a -> keeps (k a) R) -> keeps (bind m k) R.
Proof.
  intros Hm Hk s Hs. destruct (Hm s Hs) as [Hi Hq]. unfold bind.
  destruct (m s) as [[a|e] s']; simpl in *.
  - by apply Hk; [apply Hq|].
  - done.
Qed.

Lemma keeps_weaken {A} (m : M S A) (Q Q' : A -> Prop) :
  keeps m Q -> (forall a, Q a -> Q' a) -> keeps m Q'.
Proof. intros Hm HQ s Hs. destruct (Hm s Hs) as [Hi Hq]. split; auto. Qed.

Lemma keeps_ret {A} (a : A) : keeps (ret a) (fun x => x = a).
Proof. intros s Hs. split; [done|]. simpl. by intros a' [= <-]. Qed.

Lemma keeps_raise {A} e (Q : A -> Prop) : keeps (raise e) Q.
Proof. by intros s Hs. Qed.

Lemma keeps_lift {A} (o : outcome A) : keeps (lift o) (fun a => o = Ok a).
Proof. by intros s Hs. Qed.

Lemma keeps_get : keeps get I.
Proof. intros s Hs. split; [done|]. simpl. by intros a [= <-]. Qed.

Lemma keeps_modify (f : S -> S) :
  (forall s, I s -> I (f s)) -> keeps (modify f) (fun _ => True).
Proof. intros Hf s Hs. split; [by apply Hf|done]. Qed.

Lemma keeps_if {A} (b : bool) (m1 m2 : M S A) Q :
  keeps m1 Q -> keeps m2 Q -> keeps (if b then m1 else m2) Q.
Proof. by destruct b. Qed.

End Keeps.

(** ** What [evolve] leaves alone *)
Section EvolveFrame.
Import Float Py NP Patch Incompressible SpecFlow Hoare.
Context `{NP : NumPy} `{API : PatchAPI} `{K : Kernels} `{MN : MultigridNames}.
Implicit Types (self : Simulation) (d : CellCenterData2d).

Lemma dims_alter (f : list float -> list float) i (a : ndarray) :
  (forall row, length (f row) = length row) -> dims (alter f i a) = dims a.
Proof.
  intros Hf. unfold dims. apply list_eq. intros k.
  rewrite !list_lookup_fmap. destruct (decide (i = k)) as [<-|Hne].
  - rewrite list_lookup_alter_eq. destruct (a !! i); [|done]. simpl. by rewrite Hf.
  - by rewrite list_lookup_alter_ne.
Qed.

Lemma dims_scatter_rows (upd : list float -> list float -> list float)
    idx (rhs a : ndarray) :
  (forall rrow row, length (upd rrow row) = length row) ->
  dims (scatter_with upd idx rhs a) = dims a.
Proof.
  intros Hupd. revert rhs a. induction idx as [|i idx IH]; intros [|x rhs] a; simpl;
    try done.
  rewrite IH. by apply dims_alter.
Qed.

(** A slice assignment that succeeds leaves the shape of its target. *)
Lemma dims_setslice (a rhs r : ndarray) s1 s2 :
  setslice a s1 s2 rhs = Ok r -> dims r = dims a.
Proof.
  unfold setslice. destruct (decide _); [|done]. intros [= <-].
  apply dims_scatter_rows. intros rrow row. apply length_scatter_with.
Qed.

Lemma dims_iadd (a x r : ndarray) s1 s2 : iadd a s1 s2 x = Ok r -> dims r = dims a.
Proof.
  unfold iadd. destruct (add _ _); [|done]. simpl. apply dims_setslice.
Qed.


Section WithFrame.
Variables (t0 : float) (Dx Dy : list nat).
Abbreviation I := (sim_frame t0 Dx Dy).
Abbreviation J := (flow_frame t0 Dx Dy).

Lemma keeps_data : keeps I data J.
Proof.
  intros self Hs. pose proof Hs as (d & E & Hd). unfold data. rewrite E. simpl.
  split; [done|]. by intros a [= <-].
Qed.

Lemma keeps_store set (a : ndarray) :
  (forall d, J d -> J (set a d)) -> keeps I (store set a) (fun _ => True).
Proof.
  intros Hset. unfold store. eapply keeps_bind; [apply keeps_data|].
  intros d Hd. apply keeps_modify. intros s _. exists (set a d). split; [done|].
  by apply Hset.
Qed.

Lemma keeps_call {A} (m : M Multigrid.ccMG2d A) MG :
  keeps I (call m MG) (fun _ => True).
Proof. intros s Hs. unfold call. by destruct (m MG) as [[a|e] MG']. Qed.

Lemma keeps_fill_BC_x : keeps I fill_BC_x_velocity (fun _ => True).
Proof.
  unfold fill_BC_x_velocity. eapply keeps_bind; [apply keeps_data|].
  intros d Hd. by apply keeps_store.
Qed.

Lemma keeps_fill_BC_y : keeps I fill_BC_y_velocity (fun _ => True).
Proof.
  unfold fill_BC_y_velocity. eapply keeps_bind; [apply keeps_data|].
  intros d Hd. by apply keeps_store.
Qed.

Lemma keeps_timestep : keeps I timestep (fun _ => True).
Proof.
  unfold timestep.
  eapply keeps_bind; [apply keeps_get|]. intros self _.
  eapply keeps_bind; [apply keeps_data|]. intros d _.
  eapply keeps_bind; [apply keeps_lift|]. intros xmin _.
  eapply keeps_bind; [apply keeps_lift|]. intros ymin _.
  eapply keeps_weaken; [apply keeps_ret|done].
Qed.

Lemma frame_set_x_velocity a d : J d -> J (set_x_velocity a d).
Proof. done. Qed.
Lemma frame_set_y_velocity a d : J d -> J (set_y_velocity a d).
Proof. done. Qed.
Lemma frame_set_phi a d : J d -> J (set_phi a d).
Proof. done. Qed.
Lemma frame_set_phi_MAC a d : J d -> J (set_phi_MAC a d).
Proof. done. Qed.
Lemma frame_set_gradp_x a d : dims a = Dx -> J d -> J (set_gradp_x a d).
Proof. intros Ha (? & ? & ?). by repeat split. Qed.
Lemma frame_set_gradp_y a d : dims a = Dy -> J d -> J (set_gradp_y a d).
Proof. intros Ha (? & ? & ?). by repeat split. Qed.

Ltac keeps_atom :=
  first
    [ apply keeps_data
    | apply keeps_get
    | apply keeps_lift
    | apply keeps_call
    | apply keeps_fill_BC_x
    | apply keeps_fill_BC_y
    | apply keeps_timestep
    | apply keeps_store; intros ? ?;
      first [ by apply frame_set_x_velocity | by apply frame_set_y_velocity
            | by apply frame_set_phi | by apply frame_set_phi_MAC ]
    | eapply keeps_weaken; [apply keeps_ret|done] ].

Ltac keeps_go :=
  cbn zeta;
  lazymatch goal with
  | |- keeps _ (bind _ _) _ => eapply keeps_bind; [keeps_go|intros ? ?; keeps_go]
  | |- keeps _ (if _ then _ else _) _ => apply keeps_if; keeps_go
  | |- keeps _ _ _ => first [keeps_atom|idtac]
  end.

(** [evolve] changes neither the time nor the shape of the stored pressure
    gradient, whether it returns or raises. *)
Lemma keeps_evolve dt : keeps I (evolve dt) (fun _ => True).
Proof.
  unfold evolve. keeps_go.
  all: eapply keeps_weaken;
    [apply keeps_store; intros d' Hd'
    |first [by intros []|intros ? _; exact Logic.I]].
  all: first [ apply frame_set_gradp_x | apply frame_set_gradp_y ]; try done.
  all: cbn beta in *.
  all: match goal with
       | H : iadd _ _ _ _ = Ok ?a |- dims ?a = _ => rewrite (dims_iadd _ _ _ _ _ H)
       | H : setslice _ _ _ _ = Ok ?a |- dims ?a = _ => rewrite (dims_setslice _ _ _ _ _ H)
       end.
  all: match goal with
       | H : J ?d |- dims (gradp_x ?d) = _ => by destruct H as (? & ? & ?)
       | H : J ?d |- dims (gradp_y ?d) = _ => by destruct H as (? & ? & ?)
       end.
Qed.

Lemma keeps_initial_projection : keeps I initial_projection (fun _ => True).
Proof. unfold initial_projection. keeps_go. Qed.

End WithFrame.

End EvolveFrame.

(** ** [evolve], [preevolve] and [timestep] on the flow state *)
Section Flow.
Import Float Py NP Patch Incompressible SpecFlow.
Context `{NP : NumPy} `{API : PatchAPI} `{K : Kernels} `{MN : MultigridNames}.
Implicit Types (self : Simulation) (d : CellCenterData2d).

(** Whatever [evolve] does, the stored time is the one it found. *)
Lemma evolve_time dt self d :
  cc_data self = Some d ->
  time (snd (evolve dt self)) = Some (t d).
Proof.
  intros Hd.
  destruct (keeps_evolve (t d) (dims (gradp_x d)) (dims (gradp_y d)) dt self)
    as [(d' & Hd' & Ht & _) _].
  { exists d. by repeat split. }
  unfold time. by rewrite Hd', <- Ht.
Qed.

Lemma evolve_gradp_dims dt self d s' d' :
  cc_data self = Some d -> evolve dt self = (Ok tt, s') -> cc_data s' = Some d' ->
  dims (gradp_x d') = dims (gradp_x d) /\ dims (gradp_y d') = dims (gradp_y d).
Proof.
  intros Hd He Hd'.
  destruct (keeps_evolve (t d) (dims (gradp_x d)) (dims (gradp_y d)) dt self)
    as [(d2 & Hd2 & _ & Hx & Hy) _].
  { exists d. by repeat split. }
  rewrite He in Hd2. simpl in Hd2. assert (d2 = d') as -> by congruence. done.
Qed.

Lemma data_ok self d : cc_data self = Some d -> data self = (Ok d, self).
Proof. unfold data. by intros ->. Qed.

Lemma getslice_all n m (a : ndarray) : rect n m a -> getslice a All All = a.
Proof.
  intros Ha. apply (array_eq n m); [|done|].
  - pose proof (rect_getslice n m a All All Ha) as H. simpl in H.
    by rewrite !length_seq in H.
  - intros i j Hi Hj. apply (item_getslice n m); [done|simpl..];
      by apply lookup_seq_lt.
Qed.

(** [preevolve] when its three steps return: the state is the clone taken
    after the projection, with the pressure gradient of the evolved state. *)
Lemma preevolve_restores self s1 d2 dt s2 d3 n m :
  initial_projection self = (Ok tt, s1) ->
  cc_data s1 = Some d2 ->
  rect n m (gradp_x d2) -> rect n m (gradp_y d2) ->
  timestep s1 = (Ok dt, s1) ->
  evolve dt s1 = (Ok tt, s2) ->
  cc_data s2 = Some d3 ->
  preevolve self = (Ok tt, set_cc_data (restored d2 d3) s2).
Proof.
  intros Hp Hd2 Hgx Hgy Ht He Hd3. unfold preevolve.
  rewrite (bind_ok _ _ _ _ _ Hp).
  rewrite (bind_ok _ _ _ _ _ (data_ok s1 d2 Hd2)).
  rewrite (bind_ok _ _ _ _ _ Ht).
  rewrite (bind_ok _ _ _ _ _ He).
  rewrite (bind_ok _ _ _ _ _ (data_ok s2 d3 Hd3)).
  destruct (evolve_gradp_dims dt s1 d2 s2 d3 Hd2 He Hd3) as [Hx Hy].
  assert (rect n m (gradp_x d3)) as Hx' by (unfold rect; by rewrite Hx).
  assert (rect n m (gradp_y d3)) as Hy' by (unfold rect; by rewrite Hy).
  unfold cell_center_data_clone.
  rewrite !(getslice_all n m) by done.
  rewrite (setslice_all n m) by done. rewrite bind_lift_ok.
  rewrite (setslice_all n m) by done. rewrite bind_lift_ok.
  done.
Qed.

(** A [CellCenterData2d] without a grid: every method that reads it raises. *)
Lemma evolve_no_data dt self :
  cc_data self = None ->
  exists e, evolve dt self = (Raise e, self).
Proof.
  intros Hd. unfold evolve, bind, data. rewrite Hd. eauto.
Qed.

Lemma concat_tabulate {A B} (g : nat -> nat -> A) (f : A -> B) (rows cols : list nat) :
  concat ((fun row : list A => f <$> row) <$> ((fun i => (fun j => g i j) <$> cols) <$> rows))
  = (fun c : nat * nat => f (g c.1 c.2)) <$> cells rows cols.
Proof.
  unfold cells. induction rows as [|i rows IH]; [done|].
  cbn [flat_map]. rewrite !fmap_cons, fmap_app. cbn [concat]. rewrite IH. f_equal.
  rewrite <- !list_fmap_compose. done.
Qed.

Lemma array_tabulate n m (a : ndarray) :
  rect n m a -> a = (fun i => (fun j => item a i j) <$> seq 0 m) <$> seq 0 n.
Proof.
  intros Ha. apply (array_eq n m); [done| |].
  - apply rect_intro; [by rewrite length_fmap, length_seq|].
    intros i row Hrow. rewrite list_lookup_fmap in Hrow.
    destruct (seq 0 n !! i); [|done]. simpl in Hrow. injection Hrow as <-.
    by rewrite length_fmap, length_seq.
  - intros i j Hi Hj. symmetry. eapply item_lookup.
    + rewrite list_lookup_fmap, lookup_seq_lt by done. done.
    + rewrite list_lookup_fmap, lookup_seq_lt by done. done.
Qed.

Lemma min_all_cells n m (a : ndarray) (f : float -> float) :
  rect n m a ->
  min (map2 f a)
  = match min_over (cells (seq 0 n) (seq 0 m)) (fun i j => f (item a i j)) with
    | Some x => Ok x
    | None => Raise (ValueError "zero-size array to minimum.reduce")
    end.
Proof.
  intros Ha. unfold min, min_over, map2.
  rewrite (array_tabulate n m a Ha) at 1.
  rewrite (concat_tabulate (item a) f).
  by destruct (_ <$> cells _ _).
Qed.

(** [timestep]: the minima run over every cell of the two velocity arrays. *)
Lemma timestep_all_cells self d :
  cc_data self = Some d ->
  Spec.on_grid (grid d) (x_velocity d) -> Spec.on_grid (grid d) (y_velocity d) ->
  timestep self
  = (match cfl_timestep (driver_cfl (rp self)) d (all_cells (grid d)) with
     | Some dt => Ok dt
     | None => Raise (ValueError "zero-size array to minimum.reduce")
     end, self).
Proof.
  intros Hd Hu Hv. unfold timestep. rewrite bind_get.
  rewrite (bind_ok _ _ _ _ _ (data_ok self d Hd)).
  unfold sdiv, abs.
  assert (forall c (a : ndarray),
            map2 (fdiv c) (map2 fabs a) = map2 (fun x => fdiv c (fabs x)) a) as Ec.
  { intros c a. unfold map2. rewrite <- list_fmap_compose. apply list_fmap_ext.
    intros _ row _. simpl. by rewrite <- list_fmap_compose. }
  rewrite !Ec.
  rewrite (min_all_cells _ _ _ _ Hu), (min_all_cells _ _ _ _ Hv).
  unfold cfl_timestep, all_cells.
  destruct (min_over _ _) as [mx|]; [|done].
  rewrite bind_lift_ok.
  destruct (min_over _ _) as [my|]; [|done].
  by rewrite bind_lift_ok.
Qed.

End Flow.

(** ** The mesh operations of the specification have the expected shapes *)
Section MeshShapes.
Import Float Py NP Patch Mesh.

Lemma rect_tabulate n m cell : rect n m (tabulate n m cell).
Proof.
  apply rect_intro; [by unfold tabulate; rewrite length_fmap, length_seq|].
  intros i row Hrow. unfold tabulate in Hrow. rewrite list_lookup_fmap in Hrow.
  destruct (seq 0 n !! i); [|done]. simpl in Hrow. injection Hrow as <-.
  by rewrite length_fmap, length_seq.
Qed.

Lemma rect_fill_BC bc g (a : ndarray) n m : rect n m a -> rect n m (fill_BC bc g a).
Proof.
  intros Ha. unfold fill_BC. apply rect_intro.
  - unfold fill_axis. by rewrite length_fmap, length_imap, (rect_length n m).
  - intros i row Hrow. rewrite list_lookup_fmap in Hrow.
    unfold fill_axis at 2 in Hrow. rewrite list_lookup_imap in Hrow.
    destruct (a !! i) as [r0|] eqn:E; [|done]. simpl in Hrow.
    injection Hrow as <-. unfold fill_axis at 1. rewrite length_imap.
    pose proof (rect_row n m a i r0 Ha E) as Hr0.
    destruct (ghost_source _ _ _ _ i) as [[k neg]|]; [|done].
    rewrite length_fmap. destruct (a !! k) as [rk|] eqn:Ek; simpl; [|done].
    by apply (rect_row n m a k).
Qed.

#[export] Instance mesh_shapes : PatchShapes mesh_api.
Proof.
  split.
  - apply rect_fill_BC.
  - intros g a. apply rect_tabulate.
  - intros g a. apply rect_tabulate.
Qed.

End MeshShapes.

(** ** The decidable checks are sound *)
Section Checks.
Import Float Py NP Multigrid Patch Spec Check.

Lemma rectb_rect n m a : rectb n m a = true -> rect n m a.
Proof.
  unfold rectb. intros [Hl Hrows]%andb_true_iff.
  apply Nat.eqb_eq in Hl. apply rect_intro; [done|].
  intros i row Hrow. rewrite forallb_forall in Hrows.
  apply Nat.eqb_eq, Hrows, list_elem_of_In. by eapply list_elem_of_lookup_2.
Qed.

Lemma grid_okb_ok g : grid_okb g = true -> grid_ok g.
Proof.
  unfold grid_okb, grid_ok. rewrite !andb_true_iff, !negb_true_iff.
  rewrite !Z.leb_le, !Z.eqb_eq. tauto.
Qed.

Lemma level_okb_ok d : level_okb d = true -> level_ok d.
Proof.
  unfold level_okb, level_ok, on_gridb, on_grid. rewrite !andb_true_iff.
  intros [[[Hg Hv] Hf] Hr].
  repeat split; first [by apply grid_okb_ok | by apply rectb_rect].
Qed.

Lemma hierarchy_okb_ok self : hierarchy_okb self = true -> hierarchy_ok self.
Proof.
  unfold hierarchy_okb, hierarchy_ok. rewrite !andb_true_iff.
  intros [[Hn Hlen] Hall]. apply Nat.leb_le in Hn. apply Nat.eqb_eq in Hlen.
  split; [done|]. split; [done|]. intros l d Hd.
  rewrite forallb_forall in Hall.
  specialize (Hall (l, d)). simpl in Hall.
  rewrite !andb_true_iff, !Z.eqb_eq in Hall.
  destruct Hall as [[[Hok Hx] Hy] Hg].
  - apply list_elem_of_In, list_elem_of_lookup. exists l.
    by rewrite list_lookup_imap, Hd.
  - split; [by apply level_okb_ok | done].
Qed.

End Checks.

(** ** The constructor *)
Section Constructor.
Import Float Py NP Multigrid Patch Spec.

Lemma init_rejects_shape nx ny xmin xmax ymin ymax xl xr yl yr alpha beta verbose :
  negb (nx =? ny) || fneb (fsub xmax xmin) (fsub ymax ymin) = true ->
  Multigrid.__init__ nx ny xmin xmax ymin ymax xl xr yl yr alpha beta verbose
  = Raise (TypeError "__init__() should return None").
Proof.
  unfold Multigrid.__init__. intros Hbad.
  destruct (negb (nx =? ny)); [done|].
  simpl in Hbad. by rewrite Hbad.
Qed.

Lemma init_defaults nx ny xmin xmax ymin ymax xl xr yl yr alpha beta verbose mg :
  Multigrid.__init__ nx ny xmin xmax ymin ymax xl xr yl yr alpha beta verbose = Ok mg ->
  nsmooth mg = 10 /\ maxCycles mg = 100
  /\ initializedSolution mg = 0 /\ initializedRHS mg = 0
  /\ numCycles mg = 0 /\ Multigrid.alpha mg = alpha /\ Multigrid.beta mg = beta.
Proof.
  unfold Multigrid.__init__. intros Hinit.
  destruct (negb (nx =? ny)); [done|].
  destruct (fneb _ _); [done|].
  destruct (count_levels nx) as [n|]; [|done]. cbn in Hinit.
  destruct (create_grids _ _ _ _ _ _ _ _ _ _) as [gs|]; [|done]. cbn in Hinit.
  destruct (gs !! _); [|done].
  injection Hinit as <-. done.
Qed.

End Constructor.

(** ** The model of [numpy.sqrt] is never negative *)
Section Root.
Import Float Py NP Multigrid Patch Spec Mesh.

Lemma sqrt_down_not_negative x : fltb (sqrt_down x) zero = false.
Proof.
  destruct x as [q| | |]; simpl; try done.
  destruct (decide (q < 0)%Qc); [done|]. simpl.
  apply bool_decide_eq_false. intros Hlt.
  unfold Qclt in Hlt. simpl in Hlt. rewrite Qred_correct in Hlt.
  unfold Qlt in Hlt. simpl in Hlt.
  pose proof (Z.sqrt_nonneg (Qnum q * Z.pos (Qden q) * 1000000)). lia.
Qed.

Lemma residual_error_not_negative (s : ccMG2d) :
  fneb (sourceNorm s) zero = false -> fltb (residual_error s) zero = false.
Proof.
  intros Hs. unfold residual_error. destruct (finest s); [|done].
  rewrite Hs. apply sqrt_down_not_negative.
Qed.

End Root.

(** ** Cycles leave the diagnostics alone *)
Section Diagnostics.
Import Float Py NP Multigrid Patch Spec.
Context `{NP : NumPy} `{API : PatchAPI}.

Lemma after_cycles_diagnostics k (s : ccMG2d) :
  numCycles (after_cycles k s) = numCycles s
  /\ residualError (after_cycles k s) = residualError s
  /\ relativeError (after_cycles k s) = relativeError s.
Proof. by rewrite (only_grids_after_cycles k s). Qed.

Lemma after_cycles_sourceNorm k (s : ccMG2d) :
  sourceNorm (after_cycles k s) = sourceNorm s.
Proof. by rewrite (only_grids_after_cycles k s). Qed.

End Diagnostics.

(** ** The steps of a V-cycle, spelled out *)
Section CycleSteps.
Import Float Py NP Multigrid Patch Spec.
Context `{API : PatchAPI} `{!PatchShapes API}.
Implicit Types (self : ccMG2d) (d : ccData2d) (level : nat).

Lemma vcycle_steps self :
  Spec.vcycle self
  = foldl ascent_level
      (bottom (foldl descent_level (zero_coarse self)
                 (reverse (seq 1 (nlevels self - 1)))))
      (seq 1 (nlevels self - 1)).
Proof.
  unfold Spec.vcycle, ascent, ascent_to, descent, descent_from.
  change (nlevels (zero_coarse self)) with (nlevels self).
  set (t := foldl descent_level _ _).
  replace (nlevels (bottom t)) with (nlevels self); [done|].
  change (nlevels (bottom t)) with (nlevels t). symmetry.
  apply (nlevels_only_grids (zero_coarse self)).
  apply only_grids_foldl, only_grids_descent_level.
Qed.

Lemma item_fill n m c a i j :
  rect n m a -> (i < n)%nat -> (j < m)%nat -> item (fill c a) i j = c.
Proof.
  intros Ha Hi Hj.
  destruct (item_is_lookup n m a i j Ha Hi Hj) as (row & Hrow & Hx).
  apply (item_lookup _ _ _ ((fun _ : float => c) <$> row)).
  - unfold fill. by rewrite list_lookup_fmap, Hrow.
  - by rewrite list_lookup_fmap, Hx.
Qed.

Lemma zero_coarse_cells self l d i j :
  hierarchy_ok self -> (l < nlevels self - 1)%nat ->
  grids (zero_coarse self) !! l = Some d ->
  (i < Z.to_nat (qx (grid d)))%nat -> (j < Z.to_nat (qy (grid d)))%nat ->
  item (var_v d) i j = zero.
Proof.
  intros (_ & _ & Hall) Hl Hd Hi Hj. unfold zero_coarse, zero_below in Hd.
  simpl in Hd. rewrite list_lookup_imap in Hd.
  destruct (grids self !! l) as [d0|] eqn:E; [|done]. simpl in Hd.
  destruct (Hall l d0 E) as ((_ & Hv & _) & _).
  apply Nat.ltb_lt in Hl. rewrite Hl in Hd. injection Hd as <-.
  simpl in *. by apply (item_fill _ _ _ _ _ _ Hv).
Qed.

Lemma bottom_cell d :
  level_ok d ->
  item (bottom_cells d) (Z.to_nat (ilo (grid d))) (Z.to_nat (jlo (grid d)))
  = fmul (fmul (fmul m0125
                  (item (var_f d) (Z.to_nat (ilo (grid d))) (Z.to_nat (jlo (grid d)))))
            (dx (grid d))) (dx (grid d)).
Proof.
  intros (Hg & Hv & _). unfold bottom_cells.
  destruct Hg as (? & ? & ? & ? & ? & ? & ? & ? & ? & _).
  rewrite (item_update_cells _ _ _ _ _ _ _ Hv) by lia.
  rewrite Z2Nat.id by lia. by rewrite Z.eqb_refl.
Qed.

End CycleSteps.

(** * The multigrid solver *)
Section MultigridClaims.
Import Float Py NP Multigrid Patch Spec.
Context `{NP : NumPy} `{API : PatchAPI} `{!PatchShapes API}.
Implicit Types (self : ccMG2d) (d : ccData2d) (level : nat).

(** C1. On a well-formed level, [smooth(level, nsmooth)] returns normally
    and replaces v by the result of: one ghost fill, then [nsmooth]
    red-black passes, where a pass relaxes the (even, even) cells, then the
    (odd, odd) cells, fills the ghost cells, relaxes the (odd, even) cells,
    then the (even, odd) cells, and fills the ghost cells again; a relaxed
    cell receives (f + cx (v_E + v_W) + cy (v_N + v_S)) / (alpha + 2 cx + 2 cy)
    with cx = beta/dx² and cy = beta/dy². A constructed solver has
    [nsmooth = 10]. *)
Theorem smooth_red_black level (nsmooth : Z) self d :
  grids self !! level = Some d -> level_ok d ->
  Multigrid.smooth level nsmooth self
  = (Ok tt,
     put_v level
       (Nat.iter (Z.to_nat nsmooth)
          (fun v =>
             fill_ghosts (BCs d) (grid d)
               (sweep (alpha self) (beta self) (grid d) false true (var_f d)
                  (sweep (alpha self) (beta self) (grid d) true false (var_f d)
                     (fill_ghosts (BCs d) (grid d)
                        (sweep (alpha self) (beta self) (grid d) true true (var_f d)
                           (sweep (alpha self) (beta self) (grid d) false false
                              (var_f d) v))))))
          (fill_ghosts (BCs d) (grid d) (var_v d)))
       self)
  /\ (forall pi pj v i j,
        on_grid (grid d) v ->
        (i < Z.to_nat (qx (grid d)))%nat -> (j < Z.to_nat (qy (grid d)))%nat ->
        item (sweep (alpha self) (beta self) (grid d) pi pj (var_f d) v) i j
        = if in_group (grid d) pi pj i j
          then fdiv (fadd (fadd (item (var_f d) i j)
                             (fmul (fdiv (beta self) (fmul (dx (grid d)) (dx (grid d))))
                                (fadd (item v (i + 1) j) (item v (i - 1) j))))
                       (fmul (fdiv (beta self) (fmul (dy (grid d)) (dy (grid d))))
                          (fadd (item v i (j + 1)) (item v i (j - 1)))))
                 (fadd (fadd (alpha self)
                          (fmul two (fdiv (beta self) (fmul (dx (grid d)) (dx (grid d))))))
                    (fmul two (fdiv (beta self) (fmul (dy (grid d)) (dy (grid d))))))
          else item v i j)
  /\ (forall nx ny xmin xmax ymin ymax xl xr yl yr a b verbose mg,
        Multigrid.__init__ nx ny xmin xmax ymin ymax xl xr yl yr a b verbose = Ok mg ->
        Multigrid.nsmooth mg = 10).
Proof.
  intros Hd Hok. split; [|split].
  - rewrite (smooth_spec level nsmooth self d Hd Hok). f_equal.
    unfold put_v. apply on_level_ext. intros d' Hd'.
    by replace d' with d by congruence.
  - intros pi pj v i j Hv Hi Hj. unfold sweep.
    by rewrite (item_update_cells _ _ _ _ _ _ _ Hv Hi Hj).
  - intros. by eapply init_defaults.
Qed.

(** C10. [smooth(level, nsmooth)] changes the array v of that level and
    nothing else: every other level, the arrays f and r and the grid of
    that level, and every attribute of the solver are as before. *)
Theorem smooth_changes_only_v level (nsmooth : Z) self d :
  grids self !! level = Some d -> level_ok d ->
  exists s' v',
    Multigrid.smooth level nsmooth self = (Ok tt, s')
    /\ grids s' !! level = Some (set_var_v v' d)
    /\ var_f (set_var_v v' d) = var_f d
    /\ var_r (set_var_v v' d) = var_r d
    /\ grid (set_var_v v' d) = grid d
    /\ BCs (set_var_v v' d) = BCs d
    /\ (forall l, l <> level -> grids s' !! l = grids self !! l)
    /\ set_grids (grids self) s' = self.
Proof.
  intros Hd Hok.
  exists (on_level level
            (smooth_level (alpha self) (beta self) (Z.to_nat nsmooth)) self).
  exists (Spec.smooth (alpha self) (beta self) (BCs d) (grid d)
            (Z.to_nat nsmooth) (var_f d) (var_v d)).
  split; [by apply (smooth_spec _ _ _ d)|].
  split; [by rewrite (grids_on_level _ _ _ d)|].
  do 4 (split; [done|]).
  split; [intros l Hl; by apply grids_on_level_ne|].
  by destruct self.
Qed.

(** C2. On a hierarchy as the constructor builds it, a V-cycle returns
    normally and its effect is, in this order: v is zeroed on every level
    below the finest; the levels L-1 down to 1 are visited, each being
    smoothed [nsmooth] times, its residual r computed and the f of the next
    coarser level set to restrict(r); on level 0 the cell (ilo, jlo) of v
    receives -0.125 f dx dx and the ghost cells are filled; the levels 1 up
    to L-1 are visited, the prolonged coarser v being added to v before the
    level is smoothed [nsmooth] times. (With [verbose] set, the residual r
    is also recomputed for the printed diagnostics.) *)
Theorem vcycle_order fP self :
  hierarchy_ok self ->
  (exists fP', Multigrid.vcycle fP self
     = (Ok fP',
        foldl (fun s level =>
                 diagnostic_residual level
                   (smooth_on level (diagnostic_residual level (correct_on level s))))
          (bottom
             (foldl (fun s level =>
                       restrict_on level
                         (residual_on level
                            (smooth_on level (diagnostic_residual level s))))
                (zero_coarse self)
                (reverse (seq 1 (nlevels self - 1)))))
          (seq 1 (nlevels self - 1))))
  /\ (forall l d, (l < nlevels self - 1)%nat ->
        grids (zero_coarse self) !! l = Some d ->
        forall i j, (i < Z.to_nat (qx (grid d)))%nat -> (j < Z.to_nat (qy (grid d)))%nat ->
                    item (var_v d) i j = zero)
  /\ (forall d, level_ok d ->
        item (bottom_cells d) (Z.to_nat (ilo (grid d))) (Z.to_nat (jlo (grid d)))
        = fmul (fmul (fmul m0125
                        (item (var_f d) (Z.to_nat (ilo (grid d))) (Z.to_nat (jlo (grid d)))))
                  (dx (grid d))) (dx (grid d))).
Proof.
  intros Hs. split; [|split].
  - eexists. rewrite (vcycle_spec fP self Hs). f_equal. apply vcycle_steps.
  - intros l d Hl Hd i j. by apply (zero_coarse_cells self l).
  - apply bottom_cell.
Qed.

(** C3. On an initialized solver with at least two levels, [solve(rtol)]
    runs V-cycles, computing after each the residual r on the finest level
    and residual_error = |r|/|f| (|r| when |f| = 0). At the first cycle [k]
    within [maxCycles] at which residual_error < rtol it stops: it records
    [numCycles = k], the residual error and the relative error, fills the
    ghost cells of the finest v and returns. If no cycle within [maxCycles]
    has residual_error < rtol, it returns normally after [maxCycles]
    cycles, and [numCycles], [residualError] and [relativeError] hold what
    they held before the call. A constructed solver has [maxCycles = 100]. *)
Theorem solve_converges_or_stops rtol self :
  hierarchy_ok self -> (2 <= nlevels self)%nat ->
  truthy (initializedSolution self) = true ->
  truthy (initializedRHS self) = true ->
  (forall k, (1 <= k <= Z.to_nat (maxCycles self))%nat ->
     (forall j, (1 <= j < k)%nat ->
        fltb (residual_error (after_cycles j self)) rtol = false) ->
     fltb (residual_error (after_cycles k self)) rtol = true ->
     exists s',
       solve rtol self = (Ok tt, s')
       /\ s' = fill_finest
                 (set_diagnostics (Z.of_nat k)
                    (relative_error (finest_v (after_cycles (k - 1) self))
                       (after_cycles k self))
                    (residual_error (after_cycles k self))
                    (after_cycles k self))
       /\ numCycles s' = Z.of_nat k
       /\ residualError s' = residual_error (after_cycles k self)
       /\ relativeError s'
          = relative_error (finest_v (after_cycles (k - 1) self)) (after_cycles k self))
  /\ ((forall j, (1 <= j <= Z.to_nat (maxCycles self))%nat ->
         fltb (residual_error (after_cycles j self)) rtol = false) ->
      exists s',
        solve rtol self = (Ok tt, s')
        /\ s' = after_cycles (Z.to_nat (maxCycles self)) self
        /\ numCycles s' = numCycles self
        /\ residualError s' = residualError self
        /\ relativeError s' = relativeError self)
  /\ (forall nx ny xmin xmax ymin ymax xl xr yl yr a b verbose mg,
        Multigrid.__init__ nx ny xmin xmax ymin ymax xl xr yl yr a b verbose = Ok mg ->
        maxCycles mg = 100).
Proof.
  intros Hs Hn Hi1 Hi2. split; [|split].
  - intros k Hk Hnc Hc. eexists. split.
    { rewrite (solve_initialised rtol self Hs Hi1 Hi2).
      by apply (cycles_converge _ k). }
    replace (1 + Z.of_nat k - 1) with (Z.of_nat k) by lia.
    assert (cycle_end (after_cycles (k - 1) self) = after_cycles k self) as E.
    { replace k with (S (k - 1)) at 2 by lia. done. }
    unfold converged_at. rewrite E. done.
  - intros Hnc. eexists. split.
    { rewrite (solve_initialised rtol self Hs Hi1 Hi2). by apply cycles_cap. }
    split; [done|]. by rewrite (only_grids_after_cycles _ self).
  - intros. by eapply init_defaults.
Qed.

(** C8. If the solution or the right-hand side has not been initialized,
    [solve] runs no V-cycle and changes nothing: its first statement
    raises. What it raises is the NameError of the name [msg], which the
    module never imports, where the error message was meant to be
    reported. *)
Theorem solve_uninitialized_raises rtol self :
  truthy (initializedSolution self) && truthy (initializedRHS self) = false ->
  solve rtol self = (Raise (NameError "msg"), self).
Proof. apply solve_uninitialised. Qed.

End MultigridClaims.


(** * The incompressible time stepper *)
Section FlowClaims.
Import Float Py NP Patch Incompressible SpecFlow.
Context `{NP : NumPy} `{API : PatchAPI} `{K : Kernels} `{MN : MultigridNames}.
Implicit Types (self : Simulation) (d : CellCenterData2d).

(** C5. In the sources as they are [preevolve] does not get past the
    construction of the multigrid solver: it fills the ghost cells of the two
    velocities and then raises AttributeError, because the module multigrid
    has no attribute [CellCenterMG2d]. The initial projection, the clone,
    the evolve and the restoring of the fields are never reached. *)
Theorem preevolve_stops_at_missing_solver self d :
  cc_data self = Some d ->
  preevolve (MN := multigrid_as_given) self
  = (Raise (AttributeError "'module' object has no attribute 'CellCenterMG2d'"),
     set_cc_data
       (set_y_velocity (fillBC (bc_yodd d) (grid d) (y_velocity d))
          (set_x_velocity (fillBC (bc_xodd d) (grid d) (x_velocity d)) d))
       self).
Proof.
  intros Hd. unfold preevolve, initial_projection.
  set (d1 := set_x_velocity (fillBC (bc_xodd d) (grid d) (x_velocity d)) d).
  set (d2 := set_y_velocity (fillBC (bc_yodd d) (grid d) (y_velocity d)) d1).
  rewrite (bind_raise _ _ _
             (AttributeError "'module' object has no attribute 'CellCenterMG2d'")
             (set_cc_data d2 self)); [done|].
  rewrite (bind_ok _ _ _ _ _ (data_ok self d Hd)). cbn zeta.
  rewrite (bind_ok _ _ _ tt (set_cc_data d1 self)).
  2:{ unfold fill_BC_x_velocity, store.
      rewrite (bind_ok _ _ _ _ _ (data_ok self d Hd)).
      by rewrite (bind_ok _ _ _ _ _ (data_ok self d Hd)). }
  rewrite (bind_ok _ _ _ tt (set_cc_data d2 self)).
  2:{ unfold fill_BC_y_velocity, store.
      rewrite (bind_ok _ _ _ d1 (set_cc_data d1 self)) by done.
      by rewrite (bind_ok _ _ _ d1 (set_cc_data d1 self)) by done. }
  done.
Qed.

(** C6. On a state whose velocities are allocated on the grid,
    [timestep] returns cfl · min(min(dx/|u|), min(dy/|v|)) with cfl read
    from the configuration, both inner minima ranging over every cell of
    the arrays, ghost cells included. (On arrays with no cell at all the
    minimum raises.) *)
Theorem timestep_over_all_cells self d :
  cc_data self = Some d ->
  Spec.on_grid (grid d) (x_velocity d) -> Spec.on_grid (grid d) (y_velocity d) ->
  timestep self
  = (match min_over (all_cells (grid d))
             (fun i j => fdiv (dx (grid d)) (fabs (item (x_velocity d) i j))),
           min_over (all_cells (grid d))
             (fun i j => fdiv (dy (grid d)) (fabs (item (y_velocity d) i j)))
     with
     | Some mx, Some my => Ok (fmul (driver_cfl (rp self)) (pymin mx my))
     | _, _ => Raise (ValueError "zero-size array to minimum.reduce")
     end, self).
Proof.
  intros Hd Hu Hv. rewrite (timestep_all_cells self d Hd Hu Hv).
  unfold cfl_timestep.
  destruct (min_over _ _) as [mx|]; [|done].
  by destruct (min_over _ _).
Qed.

(** C9. [evolve(dt)] leaves the stored simulation time as it was: nothing
    in it assigns [t], whether it returns normally or raises. *)
Theorem evolve_keeps_time dt self d :
  cc_data self = Some d ->
  time (snd (evolve dt self)) = Some (t d).
Proof. apply evolve_time. Qed.

End FlowClaims.

(** * The constructor of the hierarchy *)
Section ConstructorClaims.
Import Float Py NP Multigrid Patch.

(** C7. The constructor of the multigrid hierarchy fails, with the
    TypeError of an [__init__] that returns a value, whenever nx and ny
    differ or the extents xmax - xmin and ymax - ymin differ. *)
Theorem init_rejects_unequal nx ny xmin xmax ymin ymax xl xr yl yr alpha beta verbose :
  nx <> ny \/ fneb (fsub xmax xmin) (fsub ymax ymin) = true ->
  Multigrid.__init__ nx ny xmin xmax ymin ymax xl xr yl yr alpha beta verbose
  = Raise (TypeError "__init__() should return None").
Proof.
  intros Hbad. apply init_rejects_shape.
  destruct Hbad as [Hne| ->]; [|by rewrite orb_true_r].
  apply Z.eqb_neq in Hne. by rewrite Hne.
Qed.

End ConstructorClaims.

(** * The theorems at concrete solvers and flows *)
Section Concrete.
Import Float Py NP Multigrid Patch Spec Mesh Check Examples.

(** Closed goals are settled by evaluation, conjunct by conjunct. *)
Ltac evaluate :=
  repeat match goal with |- _ /\ _ => split end; vm_compute; reflexivity.

Lemma smooth_red_black_witness :
  exists v',
    Multigrid.smooth 1 2 poisson2 = (Ok tt, put_v 1 v' poisson2)
    /\ Multigrid.nsmooth poisson2 = 10.
Proof.
  destruct (smooth_red_black 1 2 poisson2 (level_of poisson2 1)) as (Hs & _ & Hn).
  - vm_compute. reflexivity.
  - apply level_okb_ok. vm_compute. reflexivity.
  - eexists. split; [exact Hs|]. vm_compute. reflexivity.
Defined.

Lemma smooth_changes_only_v_witness :
  exists s', Multigrid.smooth 1 3 poisson2 = (Ok tt, s')
             /\ grids s' !! 0%nat = grids poisson2 !! 0%nat.
Proof.
  destruct (smooth_changes_only_v 1 3 poisson2 (level_of poisson2 1))
    as (s' & v' & Hs & _ & _ & _ & _ & _ & Hother & _).
  - vm_compute. reflexivity.
  - apply level_okb_ok. vm_compute. reflexivity.
  - exists s'. split; [exact Hs|]. apply Hother. lia.
Defined.

Lemma vcycle_order_witness :
  exists fP' s', Multigrid.vcycle None poisson4 = (Ok fP', s').
Proof.
  destruct (vcycle_order None poisson4) as ((fP' & Hv) & _).
  - apply hierarchy_okb_ok. vm_compute. reflexivity.
  - exists fP'. eexists. exact Hv.
Defined.

Lemma solve_converges_or_stops_witness :
  exists s', solve (dec 1 (10 ^ 11)) poisson2 = (Ok tt, s') /\ numCycles s' = 1.
Proof.
  destruct (solve_converges_or_stops (dec 1 (10 ^ 11)) poisson2) as (Hconv & _).
  - apply hierarchy_okb_ok. vm_compute. reflexivity.
  - vm_compute. lia.
  - vm_compute. reflexivity.
  - vm_compute. reflexivity.
  - destruct (Hconv 1%nat) as (s' & Hs & _ & Hn & _).
    + vm_compute. lia.
    + intros j Hj. lia.
    + vm_compute. reflexivity.
    + exists s'. split; [exact Hs | exact Hn].
Defined.

(** Against C3 as worded: on the Laplace problem with the zero guess and
    rtol = 0 no cycle has residual_error < rtol, [solve] returns after its
    100 cycles, and the diagnostics are those of the constructor:
    [numCycles] is 0 and [residualError] is 1e33. *)
Lemma solve_stopped_reports_nothing :
  solve zero laplace2 = (Ok tt, after_cycles 100 laplace2)
  /\ numCycles (after_cycles 100 laplace2) = 0
  /\ residualError (after_cycles 100 laplace2) = of_Z (10 ^ 33)
  /\ relativeError (after_cycles 100 laplace2) = of_Z (10 ^ 33).
Proof.
  assert (hierarchy_ok laplace2) as Hs
    by (apply hierarchy_okb_ok; vm_compute; reflexivity).
  split.
  - rewrite (solve_initialised zero laplace2 Hs)
      by (vm_compute; reflexivity).
    replace (Z.to_nat (maxCycles laplace2)) with 100%nat by (vm_compute; reflexivity).
    apply cycles_cap; [done|vm_compute; lia|].
    intros j _. apply residual_error_not_negative.
    rewrite after_cycles_sourceNorm. vm_compute. reflexivity.
  - destruct (after_cycles_diagnostics 100 laplace2) as (-> & -> & ->).
    evaluate.
Qed.

(** A zero diagonal coefficient: with alpha = 16 and beta = -1 on the 2 by
    2 grid of the unit square, v = 1 and f = 16 have a zero residual at
    every interior cell and v is unchanged by the boundary fill, but one
    pass of [smooth] replaces the interior of v by 0/0. (Every operation
    involved is exact in binary64 as well.) *)
Lemma smooth_singular_changes_v :
  grids singular2 !! 1%nat = Some (level_of singular2 1)
  /\ level_ok (level_of singular2 1)
  /\ fill_ghosts (BCs (level_of singular2 1)) (grid (level_of singular2 1))
       (var_v (level_of singular2 1)) = var_v (level_of singular2 1)
  /\ solves (alpha singular2) (beta singular2) (grid (level_of singular2 1))
       (var_f (level_of singular2 1)) (var_v (level_of singular2 1)) = true
  /\ fst (Multigrid.smooth 1 1 singular2) = Ok tt
  /\ item (var_v (level_of singular2 1)) 1 1 = of_Z 1
  /\ item (var_v (level_of (snd (Multigrid.smooth 1 1 singular2)) 1)) 1 1 = NaN.
Proof.
  split; [vm_compute; reflexivity|].
  split; [apply level_okb_ok; vm_compute; reflexivity|].
  evaluate.
Qed.

Lemma solve_uninitialized_raises_witness :
  solve (dec 1 (10 ^ 11)) half_initialized2
  = (Raise (NameError "msg"), half_initialized2).
Proof.
  apply (solve_uninitialized_raises (dec 1 (10 ^ 11)) half_initialized2).
  vm_compute. reflexivity.
Defined.

Lemma init_rejects_unequal_witness :
  Multigrid.__init__ 2 3 zero (of_Z 1) zero (of_Z 1)
    "periodic" "periodic" "periodic" "periodic" zero (of_Z (-1)) 0
  = Raise (TypeError "__init__() should return None").
Proof.
  apply (init_rejects_unequal 2 3). left. lia.
Defined.

End Concrete.

Section ConcreteFlow.
Import Float Py NP Patch Mesh Incompressible SpecFlow Examples.

(** The runs of [evolve] below are under the reading that binds the later
    names of the solver to the methods of [ccMG2d]. *)
#[local] Existing Instance multigrid_renamed.

Ltac evaluate :=
  repeat match goal with |- _ /\ _ => split end; vm_compute; reflexivity.

(** Against C7 as worded: the constructor accepts nx = ny = 3, building the
    two levels of a 2 by 2 grid, and [initialize] and [evolve] return
    normally with limiter 7 and proj_type 3 configured ([evolve] with the
    solver names bound as in [multigrid_renamed]). *)
Lemma odd_size_and_unknown_options_accepted :
  (exists mg, new_mg 3 zero (of_Z (-1)) = Ok mg /\ Multigrid.nlevels mg = 2%nat)
  /\ fst (initialize (Incompressible.__init__ "uniform" (config 7 3))) = Ok tt
  /\ fst (evolve (dec 1 4) (uniform 7 3)) = Ok tt.
Proof.
  split; [eexists; evaluate|]. evaluate.
Qed.

Lemma evolve_keeps_time_witness :
  time (snd (evolve (dec 1 4) (uniform 0 1))) = Some (t (data_of (uniform 0 1))).
Proof.
  apply (evolve_keeps_time (dec 1 4) (uniform 0 1)). vm_compute. reflexivity.
Defined.

(** Against C9 as worded: an evolve by dt = 1/4 of the uniform flow at
    time 0 returns normally (with the solver names bound as in
    [multigrid_renamed]) and the stored time is still 0; in the sources as
    they are the call raises, and the stored time is still 0 as well. *)
Lemma evolve_does_not_advance_time :
  time (uniform 0 1) = Some zero
  /\ fst (evolve (dec 1 4) (uniform 0 1)) = Ok tt
  /\ time (snd (evolve (dec 1 4) (uniform 0 1))) = Some zero
  /\ feqb (fadd zero (dec 1 4)) zero = false
  /\ time (snd (evolve (MN := multigrid_as_given) (dec 1 4) (uniform 0 1))) = Some zero.
Proof. evaluate. Qed.

Lemma timestep_over_all_cells_witness :
  exists dt, timestep fast_ghosts = (Ok dt, fast_ghosts) /\ feqb dt (dec 1 8) = true.
Proof.
  pose proof (timestep_over_all_cells fast_ghosts (data_of fast_ghosts)) as Ht.
  eexists. split.
  - rewrite Ht.
    + vm_compute. reflexivity.
    + vm_compute. reflexivity.
    + vm_compute. reflexivity.
    + vm_compute. reflexivity.
  - vm_compute. reflexivity.
Defined.

(** Against C6 as worded: with u = 1 in the interior and 2 in the ghost
    cells (v = 1, dx = dy = 1/2, cfl = 1/2), [timestep] returns 1/8,
    whereas the minima over the interior cells give 1/4. *)
Lemma timestep_sees_ghost_cells :
  (exists dt, fst (timestep fast_ghosts) = Ok dt /\ feqb dt (dec 1 8) = true)
  /\ (exists dt', cfl_timestep (driver_cfl (rp fast_ghosts)) (data_of fast_ghosts)
                    (interior_cells (grid (data_of fast_ghosts))) = Some dt'
                  /\ feqb dt' (dec 1 4) = true).
Proof. split; eexists; evaluate. Qed.

Lemma preevolve_stops_at_missing_solver_witness :
  fst (preevolve (MN := multigrid_as_given) (uniform 0 1))
  = Raise (AttributeError "'module' object has no attribute 'CellCenterMG2d'").
Proof.
  rewrite (preevolve_stops_at_missing_solver (uniform 0 1) (data_of (uniform 0 1))).
  - reflexivity.
  - vm_compute. reflexivity.
Defined.

End ConcreteFlow.

(** * Further properties of the multigrid solver *)
Section Residual.
Import Float Py NP Multigrid Patch Spec.
Context `{NP : NumPy} `{API : PatchAPI} `{!PatchShapes API}.
Implicit Types (self : ccMG2d) (d : ccData2d) (level : nat).

(** X1. [computeResidual(level)] on a well-formed level returns normally
    and changes the array r of that level only: an interior cell receives
    f - alpha v + beta ((v_E + v_W - 2 v)/dx² + (v_N + v_S - 2 v)/dy²) and
    every other cell of r keeps its value. *)
Theorem computeResidual_interior level self d :
  grids self !! level = Some d -> level_ok d ->
  exists r',
    computeResidual level self = (Ok tt, put_r level r' self)
    /\ on_grid (grid d) r'
    /\ forall i j,
         (i < Z.to_nat (qx (grid d)))%nat -> (j < Z.to_nat (qy (grid d)))%nat ->
         item r' i j
         = if interior (grid d) i j
           then fadd (fsub (item (var_f d) i j) (fmul (alpha self) (item (var_v d) i j)))
                  (fmul (beta self)
                     (fadd (fdiv (fsub (fadd (item (var_v d) (i + 1) j)
                                          (item (var_v d) (i - 1) j))
                                    (fmul two (item (var_v d) i j)))
                              (fmul (dx (grid d)) (dx (grid d))))
                        (fdiv (fsub (fadd (item (var_v d) i (j + 1))
                                       (item (var_v d) i (j - 1)))
                                 (fmul two (item (var_v d) i j)))
                           (fmul (dy (grid d)) (dy (grid d))))))
           else item (var_r d) i j.
Proof.
  intros Hd Hok. pose proof Hok as (Hg & Hv & Hf & Hr).
  exists (residual (alpha self) (beta self) (grid d) (var_f d) (var_v d) (var_r d)).
  split; [|split].
  - rewrite (computeResidual_spec level self d Hd Hok). f_equal.
    unfold put_r. apply on_level_ext. intros d' Hd'.
    by replace d' with d by congruence.
  - by apply rect_update_cells.
  - intros i j Hi Hj. unfold residual.
    by rewrite (item_update_cells _ _ _ _ _ _ _ Hr Hi Hj).
Qed.

(** X2. [smooth] and [computeResidual] on a level the hierarchy does not
    have raise IndexError and leave the solver as it was. *)
Theorem level_out_of_range level (nsmooth : Z) self :
  (length (grids self) <= level)%nat ->
  Multigrid.smooth level nsmooth self
  = (Raise (IndexError "list index out of range"), self)
  /\ computeResidual level self
     = (Raise (IndexError "list index out of range"), self).
Proof.
  intros Hl. apply lookup_ge_None in Hl.
  assert (grids_at level self
          = (Raise (IndexError "list index out of range"), self)) as E
    by (unfold grids_at; by rewrite Hl).
  split.
  - unfold Multigrid.smooth. by rewrite (bind_raise _ _ _ _ _ E).
  - unfold computeResidual. by rewrite (bind_raise _ _ _ _ _ E).
Qed.

(** X3. With [nsmooth] zero or negative, [smooth] runs no pass: all it
    does is the one fill of the ghost cells of v, on any level that exists
    (no coefficient is computed, so not even a zero grid spacing raises). *)
Theorem smooth_without_passes level (nsmooth : Z) self d :
  grids self !! level = Some d -> nsmooth <= 0 ->
  Multigrid.smooth level nsmooth self
  = (Ok tt, put_v level (fillBC (BCs d) (grid d) (var_v d)) self).
Proof.
  intros Hd Hn. unfold Multigrid.smooth.
  rewrite (bind_ok _ _ _ d self) by (by apply grids_at_ok).
  replace (Z.to_nat nsmooth) with 0%nat by lia. cbn [repeat_n].
  unfold fillBC_v. rewrite (bind_ok _ _ _ tt (put_v level (fillBC (BCs d) (grid d) (var_v d)) self)).
  - done.
  - by rewrite (bind_ok _ _ _ d self) by (by apply grids_at_ok).
Qed.

(** X4. [error(myg, r)] reads the interior cells of [r] only: two arrays on
    the grid that agree on the interior have the same norm. *)
Theorem error_ignores_ghost_cells (g : grid2d) (r r' : ndarray) :
  grid_ok g -> on_grid g r -> on_grid g r' ->
  (forall i j, interior g i j = true -> item r i j = item r' i j) ->
  error g r = error g r'.
Proof.
  intros Hg Hr Hr' Hin. unfold error. do 4 f_equal.
  destruct Hg as (? & ? & ? & ? & ? & ? & ? & ? & ? & _).
  eapply array_eq; [by apply rect_getslice|by apply rect_getslice|].
  intros ki kj Hki Hkj.
  destruct (lookup_lt_is_Some_2 _ _ Hki) as [i Hi].
  destruct (lookup_lt_is_Some_2 _ _ Hkj) as [j Hj].
  rewrite (item_getslice _ _ r _ _ ki kj i j Hr Hi Hj).
  rewrite (item_getslice _ _ r' _ _ ki kj i j Hr' Hi Hj).
  apply Hin. rewrite <- interior_between. apply andb_true_iff. split.
  - eapply between_indices; [| |by eapply list_elem_of_lookup_2]; lia.
  - eapply between_indices; [| |by eapply list_elem_of_lookup_2]; lia.
Qed.

End Residual.

(** ** What the constructor builds *)
Section Construction.
Import Float Py NP Multigrid Patch Spec Problem.
Implicit Types (self : ccMG2d) (d : ccData2d) (level : nat).



Lemma rect_zeros n m : rect n m (zeros n m).
Proof. unfold rect, dims, zeros. by rewrite fmap_replicate, length_replicate. Qed.



(** X6. With equal extents, a size nx = ny that is zero or negative makes
    the constructor raise ValueError, from the logarithm that counts the
    levels, before any grid is created. *)
Theorem init_rejects_nonpositive nx xmin xmax ymin ymax xl xr yl yr alpha beta verbose :
  nx <= 0 ->
  feqb (fsub xmax xmin) (fsub ymax ymin) = true ->
  Multigrid.__init__ nx nx xmin xmax ymin ymax xl xr yl yr alpha beta verbose
  = Raise (ValueError "math domain error").
Proof.
  intros Hnx He. unfold Multigrid.__init__.
  rewrite Z.eqb_refl. cbn [negb]. unfold fneb. rewrite He. cbn [negb].
  unfold count_levels. apply Z.leb_le in Hnx. by rewrite Hnx.
Qed.

End Construction.

(** ** Setting up a problem *)
Section Initialization.
Import Float Py NP Multigrid Patch Spec.
Context `{NP : NumPy}.
Implicit Types (self : ccMG2d) (d : ccData2d) (level : nat) (a b data : ndarray).
Local Open Scope py_scope.

Lemma fill_zeros n m a : rect n m a -> fill zero a = zeros n m.
Proof.
  intros Ha. apply (array_eq n m); [|apply rect_zeros|].
  - unfold rect, dims, fill in *. rewrite <- Ha, <- list_fmap_compose.
    apply list_fmap_ext. intros _ row _. simpl. by rewrite length_fmap.
  - intros i j Hi Hj. rewrite (item_fill n m) by done.
    symmetry. apply (item_lookup _ _ _ (replicate m zero)).
    + unfold zeros. by apply lookup_replicate_2.
    + by apply lookup_replicate_2.
Qed.

Lemma initSolution_ok data self d :
  grids self !! (nlevels self - 1)%nat = Some d ->
  on_grid (grid d) (var_v d) -> on_grid (grid d) data ->
  initSolution data self
  = (Ok tt, set_initializedSolution 1 (put_v (nlevels self - 1) data self)).
Proof.
  intros Hd Hv Hdata. unfold initSolution. rewrite bind_get.
  rewrite (bind_ok _ _ _ d self) by (by apply grids_at_ok).
  unfold copy. rewrite (setslice_all _ _ _ _ Hv Hdata). by rewrite bind_lift_ok.
Qed.

Lemma initRHS_ok data self d :
  grids self !! (nlevels self - 1)%nat = Some d ->
  on_grid (grid d) (var_f d) -> on_grid (grid d) data ->
  initRHS data self
  = (Ok tt, set_RHS (error (grid d) data) 1 (put_f (nlevels self - 1) data self)).
Proof.
  intros Hd Hf Hdata. unfold initRHS. rewrite bind_get.
  rewrite (bind_ok _ _ _ d self) by (by apply grids_at_ok).
  unfold copy. rewrite (setslice_all _ _ _ _ Hf Hdata). by rewrite bind_lift_ok.
Qed.

(** X7. Round trip: after [initSolution(data)] with an array of the shape
    of the finest grid, [getSolution()] returns [data]; the call has set
    [initializedSolution] and replaced the finest v, and nothing else. *)
Theorem getSolution_after_initSolution data self d :
  grids self !! (nlevels self - 1)%nat = Some d ->
  on_grid (grid d) (var_v d) -> on_grid (grid d) data ->
  (initSolution data;; getSolution) self
  = (Ok data, set_initializedSolution 1 (put_v (nlevels self - 1) data self)).
Proof.
  intros Hd Hv Hdata.
  rewrite (bind_ok _ _ _ _ _ (initSolution_ok data self d Hd Hv Hdata)).
  unfold getSolution. rewrite bind_get.
  set (s' := set_initializedSolution 1 _).
  rewrite (bind_ok _ _ _ (set_var_v data d) s'); [done|].
  apply grids_at_ok. subst s'. cbn [nlevels set_initializedSolution grids].
  by apply grids_on_level.
Qed.

(** X8. [initZeros()] is [initSolution] of the all-zero array: it zeroes
    every cell of the finest v, ghost cells included, and sets
    [initializedSolution]. *)
Theorem initZeros_is_initSolution_of_zeros self d :
  grids self !! (nlevels self - 1)%nat = Some d ->
  on_grid (grid d) (var_v d) ->
  initZeros self
  = initSolution (zeros (Z.to_nat (qx (grid d))) (Z.to_nat (qy (grid d)))) self
  /\ initZeros self
     = (Ok tt,
        set_initializedSolution 1
          (put_v (nlevels self - 1)
             (zeros (Z.to_nat (qx (grid d))) (Z.to_nat (qy (grid d)))) self)).
Proof.
  intros Hd Hv.
  assert (initZeros self
          = (Ok tt,
             set_initializedSolution 1
               (put_v (nlevels self - 1)
                  (zeros (Z.to_nat (qx (grid d))) (Z.to_nat (qy (grid d)))) self))) as E.
  { unfold initZeros. rewrite bind_get.
    rewrite (bind_ok _ _ _ d self) by (by apply grids_at_ok).
    by rewrite (fill_zeros _ _ _ Hv). }
  split; [|done]. rewrite E. symmetry.
  apply (initSolution_ok _ self d Hd Hv). apply rect_zeros.
Qed.

(** X9. [initSolution] and [initRHS] can be called in either order: both
    orders return normally and leave the same solver, with the finest v
    and f replaced, both flags set and [sourceNorm] the norm of the new
    right-hand side. *)
Theorem initSolution_initRHS_commute a b self d :
  grids self !! (nlevels self - 1)%nat = Some d ->
  on_grid (grid d) (var_v d) -> on_grid (grid d) (var_f d) ->
  on_grid (grid d) a -> on_grid (grid d) b ->
  let final :=
    set_RHS (error (grid d) b) 1
      (set_initializedSolution 1
         (on_level (nlevels self - 1) (fun d => set_var_f b (set_var_v a d)) self)) in
  (initSolution a;; initRHS b) self = (Ok tt, final)
  /\ (initRHS b;; initSolution a) self = (Ok tt, final).
Proof.
  intros Hd Hv Hf Ha Hb final. split.
  - rewrite (bind_ok _ _ _ _ _ (initSolution_ok a self d Hd Hv Ha)).
    rewrite (initRHS_ok b _ (set_var_v a d)); [| |done|done].
    + f_equal. subst final. unfold put_f, put_v.
      cbn [nlevels set_initializedSolution]. unfold on_level.
      destruct self. unfold set_RHS, set_initializedSolution, set_grids. simpl.
      f_equal. by rewrite list_alter_alter_eq.
    + cbn [nlevels set_initializedSolution grids]. by apply grids_on_level.
  - rewrite (bind_ok _ _ _ _ _ (initRHS_ok b self d Hd Hf Hb)).
    rewrite (initSolution_ok a _ (set_var_f b d)); [| |done|done].
    + f_equal. subst final. unfold put_f, put_v.
      cbn [nlevels set_RHS]. unfold on_level.
      destruct self. unfold set_RHS, set_initializedSolution, set_grids. simpl.
      f_equal. rewrite list_alter_alter_eq. by apply list_alter_ext.
    + cbn [nlevels set_RHS grids]. by apply grids_on_level.
Qed.

End Initialization.

(** ** What a solve returns and what it keeps *)
Section SolveFrame.
Import Float Py NP Multigrid Patch Spec Problem.
Context `{NP : NumPy} `{API : PatchAPI} `{!PatchShapes API}.
Implicit Types (self s : ccMG2d) (d : ccData2d) (level top : nat).

Lemma f_at_on_level top level F s :
  (forall d, var_f (F d) = var_f d) -> f_at top (on_level level F s) = f_at top s.
Proof.
  intros HF. unfold f_at. simpl. destruct (decide (level = top)) as [->|Hne].
  - rewrite list_lookup_alter_eq. destruct (_ !! top); [|done]. simpl. by rewrite HF.
  - by rewrite list_lookup_alter_ne.
Qed.

Lemma f_at_put_f top level a s : level <> top -> f_at top (put_f level a s) = f_at top s.
Proof. intros Hne. unfold f_at, put_f. by rewrite grids_on_level_ne. Qed.

Lemma f_at_diagnostic top level s : f_at top (diagnostic_residual level s) = f_at top s.
Proof.
  unfold diagnostic_residual. destruct (truthy _); [|done]. by apply f_at_on_level.
Qed.

Lemma f_at_descent_level top s level :
  (1 <= level <= top)%nat -> f_at top (descent_level s level) = f_at top s.
Proof.
  intros Hl. unfold descent_level, restrict_on, residual_on, smooth_on.
  destruct (grids _ !! level).
  - rewrite f_at_put_f by lia. rewrite !f_at_on_level by done. apply f_at_diagnostic.
  - rewrite !f_at_on_level by done. apply f_at_diagnostic.
Qed.

Lemma f_at_ascent_level top s level : f_at top (ascent_level s level) = f_at top s.
Proof.
  unfold ascent_level, smooth_on, correct_on.
  rewrite f_at_diagnostic, f_at_on_level, f_at_diagnostic by done.
  destruct (grids s !! (level - 1)%nat); [|done]. by apply f_at_on_level.
Qed.

Lemma f_at_foldl top (step : ccMG2d -> nat -> ccMG2d) (levels : list nat) s :
  (forall s l, (1 <= l <= top)%nat -> f_at top (step s l) = f_at top s) ->
  Forall (fun l => 1 <= l <= top)%nat levels ->
  f_at top (foldl step s levels) = f_at top s.
Proof.
  intros Hstep Hall. revert s. induction Hall as [|l levels Hl _ IH]; intros s; [done|].
  simpl. rewrite IH. by apply Hstep.
Qed.

Lemma Forall_seq_levels top : Forall (fun l => 1 <= l <= top)%nat (seq 1 top).
Proof. apply Forall_forall. intros l Hl%elem_of_seq. lia. Qed.

Lemma f_at_zero_below top n s : f_at top (zero_below n s) = f_at top s.
Proof.
  unfold f_at, zero_below. simpl. rewrite list_lookup_imap.
  destruct (grids s !! top); [|done]. simpl. by destruct (_ <? _)%nat.
Qed.

Lemma f_at_cycle_end s :
  f_at (nlevels s - 1) (cycle_end s) = f_at (nlevels s - 1) s.
Proof.
  unfold cycle_end, residual_on. rewrite f_at_on_level by done.
  rewrite vcycle_steps.
  rewrite f_at_foldl;
    [|intros; apply f_at_ascent_level|apply Forall_seq_levels].
  unfold bottom. rewrite f_at_on_level by done.
  rewrite f_at_foldl;
    [|intros; by apply f_at_descent_level
     |apply Forall_reverse, Forall_seq_levels].
  apply f_at_zero_below.
Qed.

Lemma same_problem_refl s : same_problem s s.
Proof. by repeat split. Qed.

Lemma same_problem_trans s1 s2 s3 :
  same_problem s1 s2 -> same_problem s2 s3 -> same_problem s1 s3.
Proof.
  unfold same_problem. intros H12 H23.
  destruct H12 as (?&?&?&?&?&?&?&?&?&?&?&?), H23 as (?&?&?&?&?&?&?&?&?&?&?&?).
  repeat split; congruence.
Qed.

Lemma same_problem_cycle_end s : same_problem s (cycle_end s).
Proof.
  pose proof (f_at_cycle_end s) as Hf.
  rewrite (only_grids_cycle_end s).
  unfold same_problem, finest_f. repeat (split; [done|]). exact Hf.
Qed.

Lemma same_problem_converged_at cycle s : same_problem s (converged_at cycle s).
Proof.
  apply same_problem_trans with (cycle_end s); [apply same_problem_cycle_end|].
  unfold converged_at, fill_finest. set (c := cycle_end s).
  unfold same_problem, finest_f. cbn [nlevels set_diagnostics on_level set_grids].
  repeat split; try done.
  change (f_at (nlevels c - 1)
            (on_level (nlevels c - 1)
               (fun d => set_var_v (fill_ghosts (BCs d) (grid d) (var_v d)) d)
               (set_diagnostics cycle
                  (relative_error (finest_v s) c) (residual_error c) c))
          = f_at (nlevels c - 1) c).
  by rewrite f_at_on_level.
Qed.

Lemma hierarchy_ok_converged_at cycle s :
  hierarchy_ok s -> hierarchy_ok (converged_at cycle s).
Proof.
  intros Hs. unfold converged_at, fill_finest.
  apply hierarchy_ok_on_level.
  - by apply hierarchy_ok_cycle_end in Hs.
  - intros d _ (Hg & Hv & Hf & Hr). split; [|done].
    split; [done|]. split; [|done]. by apply rect_fill_ghosts.
Qed.

(** The loop of [solve] always returns. *)
Lemma cycles_total todo rtol cycle fP s :
  hierarchy_ok s -> (2 <= nlevels s)%nat ->
  exists s', cycles todo rtol cycle (finest_v s) fP s = (Ok tt, s')
             /\ hierarchy_ok s' /\ same_problem s s'.
Proof.
  revert cycle fP s. induction todo as [|todo IH]; intros cycle fP s Hs Hn.
  - exists s. split; [done|]. split; [done|apply same_problem_refl].
  - rewrite cycles_step by done.
    destruct (fltb (residual_error (cycle_end s)) rtol).
    + exists (converged_at cycle s). split; [done|].
      split; [by apply hierarchy_ok_converged_at|apply same_problem_converged_at].
    + destruct (IH (cycle + 1) (Some (nlevels s - 1)%nat) (cycle_end s))
        as (s' & Hc & Hs' & Hp).
      * by apply hierarchy_ok_cycle_end.
      * by rewrite nlevels_cycle_end.
      * exists s'. split; [done|]. split; [done|].
        eapply same_problem_trans; [apply same_problem_cycle_end|done].
Qed.

(** X10. On an initialized solver with at least two levels [solve] always
    returns normally, converged or not, whatever [rtol] is, and every level
    still has its arrays on its grid. *)
Theorem solve_returns rtol self :
  hierarchy_ok self -> (2 <= nlevels self)%nat ->
  truthy (initializedSolution self) = true ->
  truthy (initializedRHS self) = true ->
  exists s', solve rtol self = (Ok tt, s') /\ hierarchy_ok s'.
Proof.
  intros Hs Hn H1 H2. rewrite (solve_initialised rtol self Hs H1 H2).
  destruct (cycles_total (Z.to_nat (maxCycles self)) rtol 1 None self Hs Hn)
    as (s' & Hc & Hs' & _).
  by exists s'.
Qed.

(** X11. A solve changes the arrays of the levels and the three
    diagnostics, nothing else: the problem it was given (the right-hand
    side f of the finest level, its norm, alpha and beta, the flags, the
    parameters and the solution grid) is the one it leaves. *)
Theorem solve_keeps_the_problem rtol self s' :
  hierarchy_ok self -> (2 <= nlevels self)%nat ->
  truthy (initializedSolution self) = true ->
  truthy (initializedRHS self) = true ->
  snd (solve rtol self) = s' ->
  finest_f s' = finest_f self
  /\ sourceNorm s' = sourceNorm self
  /\ alpha s' = alpha self /\ beta s' = beta self
  /\ initializedSolution s' = initializedSolution self
  /\ initializedRHS s' = initializedRHS self
  /\ nsmooth s' = nsmooth self /\ maxCycles s' = maxCycles self
  /\ nlevels s' = nlevels self /\ solnGrid s' = solnGrid self.
Proof.
  intros Hs Hn H1 H2 <-. rewrite (solve_initialised rtol self Hs H1 H2).
  destruct (cycles_total (Z.to_nat (maxCycles self)) rtol 1 None self Hs Hn)
    as (s' & -> & _ & Hp).
  cbn [snd]. destruct Hp as (?&?&?&?&?&?&?&?&?&?&?&?). by repeat split.
Qed.

(** X12. With [maxCycles] zero or negative the loop of [solve] is not
    entered: an initialized solve returns at once and the solver is as it
    was. *)
Theorem solve_without_cycles rtol self :
  hierarchy_ok self ->
  truthy (initializedSolution self) = true ->
  truthy (initializedRHS self) = true ->
  maxCycles self <= 0 ->
  solve rtol self = (Ok tt, self).
Proof.
  intros Hs H1 H2 Hm. rewrite (solve_initialised rtol self Hs H1 H2).
  by replace (Z.to_nat (maxCycles self)) with 0%nat by lia.
Qed.

(** The convergence test after a V-cycle that bound no [fP]. *)
Lemma check_convergence_unbound rtol cycle old s :
  hierarchy_ok s ->
  (forall d, finest s = Some d -> on_grid (grid d) old) ->
  check_convergence rtol cycle old None s
  = (Raise (UnboundLocalError "fP"), residual_on (nlevels s - 1) s).
Proof.
  intros Hs Hold. destruct (finest_level s Hs) as (d & Hd & Hok).
  pose proof (Hold d Hd) as Ho. pose proof Hok as (Hg & Hv & _).
  unfold check_convergence. rewrite bind_get.
  rewrite (bind_ok _ _ _ d s) by (by apply grids_at_ok).
  unfold sub, div, adds.
  rewrite (zip2_ok _ _ _ _ _ Hv Ho). cbn [obind].
  rewrite (zip2_ok (Z.to_nat (qx (grid d))) (Z.to_nat (qy (grid d))));
    [|by apply rect_zip_with|by apply rect_map2].
  rewrite bind_lift_ok.
  rewrite (bind_ok _ _ _ tt (residual_on (nlevels s - 1) s)).
  2:{ apply residual_call; [done|destruct Hs; lia]. }
  done.
Qed.

(** X13. On a hierarchy of a single level (nx = ny = 1) an initialized
    [solve] with [maxCycles] >= 1 does not return: the loops that bind
    [fP] have no level to visit, and the first convergence test raises
    UnboundLocalError, after the bottom solve and the residual of the
    first cycle have been computed. *)
Theorem solve_single_level_raises rtol self :
  hierarchy_ok self -> nlevels self = 1%nat ->
  truthy (initializedSolution self) = true ->
  truthy (initializedRHS self) = true ->
  1 <= maxCycles self ->
  solve rtol self
  = (Raise (UnboundLocalError "fP"), residual_on 0 (bottom self)).
Proof.
  intros Hs Hn H1 H2 Hm. rewrite (solve_initialised rtol self Hs H1 H2).
  destruct (Z.to_nat (maxCycles self)) as [|todo] eqn:E; [lia|].
  cbn [cycles].
  rewrite (bind_ok _ _ _ _ _ (vcycle_spec None self Hs)).
  rewrite decide_True by done.
  assert (hierarchy_ok (Spec.vcycle self)) as Hvs by (by apply hierarchy_ok_vcycle).
  rewrite (bind_raise _ _ _ (UnboundLocalError "fP")
             (residual_on (nlevels (Spec.vcycle self) - 1) (Spec.vcycle self))).
  - f_equal. rewrite nlevels_vcycle, Hn. change (1 - 1)%nat with 0%nat. f_equal.
    rewrite vcycle_steps, Hn. cbn [seq reverse foldl Nat.sub].
    unfold zero_coarse. rewrite Hn. change (1 - 1)%nat with 0%nat.
    by rewrite zero_below_0.
  - apply check_convergence_unbound; [done|].
    intros d Hd. destruct (finest_level self Hs) as (d0 & Hd0 & Hok0).
    unfold finest in Hd, Hd0. rewrite nlevels_vcycle in Hd.
    apply (on_grid_level _ _ _ _ Hvs Hd).
    apply (on_grid_level _ _ _ _ Hs Hd0).
    unfold finest_v, finest. rewrite Hd0. by destruct Hok0 as (_ & ? & _).
Qed.

End SolveFrame.

(** ** Calls in sequence *)
Section Sequences.
Import Float Py NP Multigrid Patch Spec Problem.
Context `{NP : NumPy} `{API : PatchAPI} `{!PatchShapes API}.
Implicit Types (self : ccMG2d) (d : ccData2d) (level : nat).
Local Open Scope py_scope.

Lemma update_cells_idempotent P F (a : ndarray) :
  update_cells P F (update_cells P F a) = update_cells P F a.
Proof.
  unfold update_cells. apply list_eq. intros i. rewrite !list_lookup_imap.
  destruct (a !! i) as [row|]; [|done]. simpl. f_equal.
  apply list_eq. intros j. rewrite !list_lookup_imap.
  destruct (row !! j); [|done]. simpl. by destruct (P i j).
Qed.

(** X20. [computeResidual] is idempotent: it reads v and f and writes r, so
    a second call on the same level changes nothing. *)
Theorem computeResidual_idempotent level self d :
  grids self !! level = Some d -> level_ok d ->
  (computeResidual level;; computeResidual level) self = computeResidual level self.
Proof.
  intros Hd Hok.
  rewrite (bind_ok _ _ _ _ _ (computeResidual_spec level self d Hd Hok)).
  rewrite (computeResidual_spec level self d Hd Hok).
  set (s1 := on_level level (residual_level (alpha self) (beta self)) self).
  rewrite (computeResidual_spec level s1 (residual_level (alpha self) (beta self) d)).
  - f_equal. subst s1. rewrite on_level_on_level. apply on_level_ext.
    intros d' _. unfold residual_level, residual. destruct d'. simpl.
    by rewrite update_cells_idempotent.
  - by apply grids_on_level.
  - by apply level_ok_residual.
Qed.



End Sequences.

(** * Further properties of the time stepper *)
Section FlowInvariants.
Import Float Py NP Patch Incompressible SpecFlow Hoare FlowInvariant.
Context `{NP : NumPy} `{API : PatchAPI} `{K : Kernels} `{MN : MultigridNames}.
Implicit Types (self : Simulation) (d : CellCenterData2d).

Section Generic.
Variables (rp0 : RuntimeParameters) (J : CellCenterData2d -> Prop).
Hypothesis J_x_velocity : forall a d, J d -> J (set_x_velocity a d).
Hypothesis J_y_velocity : forall a d, J d -> J (set_y_velocity a d).
Hypothesis J_phi : forall a d, J d -> J (set_phi a d).
Hypothesis J_phi_MAC : forall a d, J d -> J (set_phi_MAC a d).
Hypothesis J_gradp :
  incompressible_proj_type rp0 = 1 \/ incompressible_proj_type rp0 = 2 ->
  forall a d, J d -> J (set_gradp_x a d) /\ J (set_gradp_y a d).
Abbreviation Inv := (sim_inv rp0 J).

Lemma inv_data : keeps Inv data J.
Proof.
  intros self Hs. pose proof Hs as (Hrp & d & E & Hd). unfold data. rewrite E. simpl.
  split; [done|]. by intros a [= <-].
Qed.

Lemma inv_store set (a : ndarray) :
  (forall d, J d -> J (set a d)) -> keeps Inv (store set a) (fun _ => True).
Proof.
  intros Hset. unfold store. eapply keeps_bind; [apply inv_data|].
  intros d Hd. apply keeps_modify. intros s (Hrp & _). split; [done|].
  exists (set a d). split; [done|]. by apply Hset.
Qed.

Lemma inv_call {A} (m : M Multigrid.ccMG2d A) MG :
  keeps Inv (call m MG) (fun _ => True).
Proof. intros s Hs. unfold call. by destruct (m MG) as [[a|e] MG']. Qed.

Lemma inv_fill_BC_x : keeps Inv fill_BC_x_velocity (fun _ => True).
Proof.
  unfold fill_BC_x_velocity. eapply keeps_bind; [apply inv_data|].
  intros d Hd. apply inv_store. intros. by apply J_x_velocity.
Qed.

Lemma inv_fill_BC_y : keeps Inv fill_BC_y_velocity (fun _ => True).
Proof.
  unfold fill_BC_y_velocity. eapply keeps_bind; [apply inv_data|].
  intros d Hd. apply inv_store. intros. by apply J_y_velocity.
Qed.

Lemma inv_if {A} (b : bool) (m1 m2 : M Simulation A) Q :
  (b = true -> keeps Inv m1 Q) -> (b = false -> keeps Inv m2 Q) ->
  keeps Inv (if b then m1 else m2) Q.
Proof. destruct b; auto. Qed.

Ltac inv_atom :=
  first
    [ apply inv_data
    | apply keeps_get
    | apply keeps_lift
    | apply inv_call
    | apply inv_fill_BC_x
    | apply inv_fill_BC_y
    | apply inv_store; intros ? ?;
      first [ by apply J_x_velocity | by apply J_y_velocity
            | by apply J_phi | by apply J_phi_MAC ]
    | eapply keeps_weaken; [apply keeps_ret|done] ].

Ltac inv_go :=
  cbn zeta;
  lazymatch goal with
  | |- Hoare.keeps _ (bind _ _) _ => eapply keeps_bind; [inv_go|intros ? ?; inv_go]
  | |- Hoare.keeps _ (if _ then _ else _) _ => apply inv_if; intros ?; inv_go
  | |- Hoare.keeps _ _ _ => first [inv_atom|idtac]
  end.

(** [evolve] keeps an invariant of the flow state that the writes to the
    velocities and to phi keep, whether it returns or raises. *)
Lemma inv_evolve dt : keeps Inv (evolve dt) (fun _ => True).
Proof.
  unfold evolve. inv_go.
  all: eapply keeps_weaken;
    [apply inv_store; intros d' Hd'
    |first [by intros []|intros ? _; exact Logic.I]].
  all: cbn beta in *.
  all: match goal with
       | Hs : sim_inv rp0 J ?s |- _ => destruct Hs as (Hrp & _); rewrite Hrp in *
       end.
  all: match goal with
       | |- J (set_gradp_x _ _) => apply J_gradp; [|done]
       | |- J (set_gradp_y _ _) => apply J_gradp; [|done]
       end.
  all: match goal with
       | H : (_ =? 1) = true |- _ => left; by apply Z.eqb_eq
       | H : (_ =? 2) = true |- _ => right; by apply Z.eqb_eq
       end.
Qed.

Lemma inv_initial_projection : keeps Inv initial_projection (fun _ => True).
Proof. unfold initial_projection. inv_go. Qed.

Lemma inv_timestep : keeps Inv timestep (fun _ => True).
Proof. unfold timestep. inv_go. Qed.

End Generic.

(** X14. With a configured [proj_type] other than 1 and 2, [evolve] never
    writes the stored pressure gradient: gradp_x and gradp_y after the call
    are the arrays from before it, whether it returns or raises. *)
Theorem evolve_unknown_proj_type_keeps_gradp dt self d :
  cc_data self = Some d ->
  incompressible_proj_type (rp self) <> 1 ->
  incompressible_proj_type (rp self) <> 2 ->
  exists d', cc_data (snd (evolve dt self)) = Some d'
             /\ gradp_x d' = gradp_x d /\ gradp_y d' = gradp_y d.
Proof.
  intros Hd H1 H2.
  destruct (inv_evolve (rp self) (gradp_is (gradp_x d) (gradp_y d))) with (dt := dt) (s := self)
    as [(_ & d' & Hd' & Hx & Hy) _]; try done.
  - intros [?|?]; done.
  - split; [done|]. by exists d.
  - by exists d'.
Qed.

(** X15. [evolve] never replaces the configuration, the grid or the
    boundary-condition objects of the flow state, whether it returns or
    raises. *)
Theorem evolve_keeps_mesh dt self d :
  cc_data self = Some d ->
  rp (snd (evolve dt self)) = rp self
  /\ exists d', cc_data (snd (evolve dt self)) = Some d'
                /\ grid d' = grid d /\ bc d' = bc d
                /\ bc_xodd d' = bc_xodd d /\ bc_yodd d' = bc_yodd d.
Proof.
  intros Hd.
  destruct (inv_evolve (rp self) (same_mesh d)) with (dt := dt) (s := self)
    as [(Hrp & d' & Hd' & Hg & Hb & Hbx & Hby & _) _]; try done.
  - split; [done|]. by exists d.
  - split; [done|]. by exists d'.
Qed.

(** X16. Before [initialize] has run there is no flow state: [timestep],
    [evolve] and [preevolve] raise AttributeError at their first read of
    [cc_data] and leave the simulation as it was. *)
Theorem uninitialized_simulation_raises dt self :
  cc_data self = None ->
  timestep self = (Raise (AttributeError "'NoneType' object has no attribute"), self)
  /\ evolve dt self = (Raise (AttributeError "'NoneType' object has no attribute"), self)
  /\ preevolve self = (Raise (AttributeError "'NoneType' object has no attribute"), self).
Proof.
  intros Hd.
  assert (data self = (Raise (AttributeError "'NoneType' object has no attribute"), self))
    as E by (unfold data; by rewrite Hd).
  split; [|split].
  - unfold timestep. rewrite bind_get. by rewrite (bind_raise _ _ _ _ _ E).
  - unfold evolve. by rewrite (bind_raise _ _ _ _ _ E).
  - unfold preevolve, initial_projection.
    rewrite (bind_raise _ _ _ (AttributeError "'NoneType' object has no attribute") self);
      [done|].
    by rewrite (bind_raise _ _ _ _ _ E).
Qed.

(** X17. In the sources as they are [evolve] raises before it has written
    anything: the module multigrid has no attribute [CellCenterMG2d], so the
    construction of the solver of the MAC projection raises AttributeError
    and the simulation is as it was. (The grid spacings are taken non-zero,
    so that [dt/dx] and [dt/dy], evaluated before, are defined whichever kind
    of float [dt] is.) *)
Theorem evolve_stops_at_missing_solver dt self d :
  cc_data self = Some d ->
  feqb (dx (grid d)) zero = false -> feqb (dy (grid d)) zero = false ->
  evolve (MN := multigrid_as_given) dt self
  = (Raise (AttributeError "'module' object has no attribute 'CellCenterMG2d'"), self).
Proof.
  intros Hd _ _. unfold evolve.
  rewrite (bind_ok _ _ _ _ _ (data_ok self d Hd)). by rewrite bind_get.
Qed.

Lemma min_over_constant (cs : list (nat * nat)) (F : nat -> nat -> float) x :
  cs <> [] -> is_nan x = false ->
  (forall c, c ∈ cs -> F c.1 c.2 = x) ->
  min_over cs F = Some x.
Proof.
  intros Hne Hx Hall. unfold min_over.
  destruct cs as [|c cs]; [done|]. rewrite fmap_cons.
  rewrite (Hall c) by apply list_elem_of_here. f_equal.
  assert (forall c', c' ∈ cs -> F c'.1 c'.2 = x) as Hcs
    by (intros c' Hc'; apply Hall; by apply list_elem_of_further).
  clear Hall Hne. induction cs as [|c' cs IH]; [done|].
  rewrite fmap_cons. cbn [foldl]. rewrite (Hcs c') by apply list_elem_of_here.
  replace (npmin x x) with x.
  - apply IH. intros c'' Hc''. apply Hcs. by apply list_elem_of_further.
  - unfold npmin, pymin. rewrite Hx. by destruct (fltb x x).
Qed.

Lemma cells_nonempty n m : (0 < n)%nat -> (0 < m)%nat -> cells (seq 0 n) (seq 0 m) <> [].
Proof. destruct n, m; try lia. done. Qed.

Lemma elem_of_cells rows cols (c : nat * nat) :
  c ∈ cells rows cols -> c.1 ∈ rows /\ c.2 ∈ cols.
Proof.
  unfold cells. rewrite list_elem_of_In, in_flat_map. intros (i & Hi & Hc).
  apply list_elem_of_In, list_elem_of_fmap in Hc as (j & -> & Hj).
  split; [by apply list_elem_of_In|done].
Qed.

Lemma rest_quotient h x :
  (0 < h)%Qc -> feqb x zero = true -> fdiv (Fin h) (fabs x) = PInf.
Proof.
  intros Hh Hx. apply feqb_eq in Hx as ->.
  unfold zero, of_Z, fabs. rewrite Qc_of_Z_0.
  rewrite decide_False by (intros H; by apply Qclt_not_eq in H).
  unfold fdiv. rewrite decide_True by done.
  by rewrite (proj1 (Qcgt_alt h 0) Hh).
Qed.

(** X18. A fluid at rest has no CFL limit: when every stored velocity is
    zero (and dx, dy and cfl are positive), [timestep] returns +infinity,
    without raising. *)
Theorem timestep_at_rest self d (hx hy c : Qc) :
  cc_data self = Some d ->
  Spec.on_grid (grid d) (x_velocity d) -> Spec.on_grid (grid d) (y_velocity d) ->
  0 < qx (grid d) -> 0 < qy (grid d) ->
  (forall i j, (i < Z.to_nat (qx (grid d)))%nat -> (j < Z.to_nat (qy (grid d)))%nat ->
               feqb (item (x_velocity d) i j) zero = true
               /\ feqb (item (y_velocity d) i j) zero = true) ->
  dx (grid d) = Fin hx -> (0 < hx)%Qc ->
  dy (grid d) = Fin hy -> (0 < hy)%Qc ->
  driver_cfl (rp self) = Fin c -> (0 < c)%Qc ->
  timestep self = (Ok PInf, self).
Proof.
  intros Hd Hu Hv Hqx Hqy Hrest Hdx Hhx Hdy Hhy Hcfl Hc.
  rewrite (timestep_all_cells self d Hd Hu Hv). unfold cfl_timestep, all_cells.
  rewrite (min_over_constant _ _ PInf), (min_over_constant _ _ PInf); try done.
  - rewrite Hcfl. unfold pymin. simpl. by rewrite (proj1 (Qcgt_alt c 0) Hc).
  - apply cells_nonempty; lia.
  - intros cell (Hi%elem_of_seq & Hj%elem_of_seq)%elem_of_cells. rewrite Hdy.
    apply rest_quotient; [done|]. apply Hrest; lia.
  - apply cells_nonempty; lia.
  - intros cell (Hi%elem_of_seq & Hj%elem_of_seq)%elem_of_cells. rewrite Hdx.
    apply rest_quotient; [done|]. apply Hrest; lia.
Qed.

(** X22. [preevolve] never changes the simulation time, the grid, the
    boundary-condition objects or the configuration, whether it returns or
    raises part of the way. *)
Theorem preevolve_keeps_mesh_and_time self d :
  cc_data self = Some d ->
  rp (snd (preevolve self)) = rp self
  /\ exists d', cc_data (snd (preevolve self)) = Some d'
                /\ grid d' = grid d /\ bc d' = bc d
                /\ bc_xodd d' = bc_xodd d /\ bc_yodd d' = bc_yodd d
                /\ t d' = t d.
Proof.
  intros Hd.
  assert (keeps (sim_inv (rp self) (same_mesh d)) preevolve (fun _ => True)) as Hk.
  { unfold preevolve.
    eapply keeps_bind; [by apply inv_initial_projection|]. intros _ _.
    eapply keeps_bind; [apply inv_data|]. intros d2 Hd2. cbn zeta.
    eapply keeps_bind; [by apply inv_timestep|]. intros dt _.
    eapply keeps_bind; [apply inv_evolve; try done; intros _ a d0 Hd0; by split|].
    intros _ _.
    eapply keeps_bind; [apply inv_data|]. intros d3 _.
    eapply keeps_bind; [apply keeps_lift|]. intros gx _.
    eapply keeps_bind; [apply keeps_lift|]. intros gy _.
    apply keeps_modify. intros s (Hrp & _). split; [done|].
    eexists. split; [done|]. exact Hd2. }
  destruct (Hk self) as [(Hrp & d' & Hd' & Hg & Hb & Hbx & Hby & Ht) _].
  - split; [done|]. by exists d.
  - split; [done|]. by exists d'.
Qed.

End FlowInvariants.

(** * The further properties at concrete solvers and flows *)
Section MoreConcrete.
Import Float Py NP Multigrid Patch Spec Mesh Check Problem Examples MoreExamples.
Local Open Scope py_scope.

Lemma computeResidual_interior_witness :
  exists r', computeResidual 1 poisson2 = (Ok tt, put_r 1 r' poisson2).
Proof.
  destruct (computeResidual_interior 1 poisson2 (level_of poisson2 1)) as (r' & Hr & _).
  - vm_compute. reflexivity.
  - apply level_okb_ok. vm_compute. reflexivity.
  - by exists r'.
Defined.

Lemma level_out_of_range_witness :
  Multigrid.smooth 5 10 poisson2
  = (Raise (IndexError "list index out of range"), poisson2).
Proof.
  destruct (level_out_of_range 5 10 poisson2) as [Hs _].
  - vm_compute. lia.
  - exact Hs.
Defined.

Lemma smooth_without_passes_witness :
  exists v', Multigrid.smooth 1 0 poisson2 = (Ok tt, put_v 1 v' poisson2).
Proof.
  eexists. apply (smooth_without_passes 1 0 poisson2 (level_of poisson2 1)).
  - vm_compute. reflexivity.
  - lia.
Defined.

Lemma error_ignores_ghost_cells_witness :
  error (grid (level_of poisson2 1)) checker4
  = error (grid (level_of poisson2 1)) checker4_ghosts.
Proof.
  apply (error_ignores_ghost_cells (grid (level_of poisson2 1)) checker4 checker4_ghosts).
  - apply grid_okb_ok. vm_compute. reflexivity.
  - vm_compute. reflexivity.
  - vm_compute. reflexivity.
  - intros i j Hint. unfold interior in Hint.
    rewrite !andb_true_iff, !Z.leb_le in Hint.
    change (ilo (grid (level_of poisson2 1))) with 1 in Hint.
    change (ihi (grid (level_of poisson2 1))) with 2 in Hint.
    change (jlo (grid (level_of poisson2 1))) with 1 in Hint.
    change (jhi (grid (level_of poisson2 1))) with 2 in Hint.
    assert (i = 1 \/ i = 2)%nat as [-> | ->] by lia;
      (assert (j = 1 \/ j = 2)%nat as [-> | ->] by lia); reflexivity.
Defined.


Lemma init_rejects_nonpositive_witness :
  new_mg 0 zero (of_Z (-1)) = Raise (ValueError "math domain error").
Proof.
  apply (init_rejects_nonpositive 0).
  - lia.
  - vm_compute. reflexivity.
Defined.

Lemma getSolution_after_initSolution_witness :
  fst ((initSolution checker4;; getSolution) fresh2) = Ok checker4.
Proof.
  rewrite (getSolution_after_initSolution checker4 fresh2 (level_of fresh2 1)).
  - reflexivity.
  - vm_compute. reflexivity.
  - vm_compute. reflexivity.
  - vm_compute. reflexivity.
Defined.

Lemma initZeros_is_initSolution_of_zeros_witness :
  initZeros fresh2 = initSolution (zeros 4 4) fresh2.
Proof.
  destruct (initZeros_is_initSolution_of_zeros fresh2 (level_of fresh2 1)) as [E _].
  - vm_compute. reflexivity.
  - vm_compute. reflexivity.
  - exact E.
Defined.

Lemma initSolution_initRHS_commute_witness :
  (initSolution checker4;; initRHS checker4_ghosts) fresh2
  = (initRHS checker4_ghosts;; initSolution checker4) fresh2.
Proof.
  destruct (initSolution_initRHS_commute checker4 checker4_ghosts fresh2 (level_of fresh2 1))
    as [E1 E2].
  - vm_compute. reflexivity.
  - vm_compute. reflexivity.
  - vm_compute. reflexivity.
  - vm_compute. reflexivity.
  - vm_compute. reflexivity.
  - rewrite E1, E2. reflexivity.
Defined.

Lemma solve_returns_witness :
  exists s', solve (dec 1 (10 ^ 11)) poisson2 = (Ok tt, s').
Proof.
  destruct (solve_returns (dec 1 (10 ^ 11)) poisson2) as (s' & Hs & _).
  - apply hierarchy_okb_ok. vm_compute. reflexivity.
  - vm_compute. lia.
  - vm_compute. reflexivity.
  - vm_compute. reflexivity.
  - by exists s'.
Defined.

Lemma solve_keeps_the_problem_witness :
  finest_f (snd (solve (dec 1 (10 ^ 11)) poisson2)) = finest_f poisson2.
Proof.
  destruct (solve_keeps_the_problem (dec 1 (10 ^ 11)) poisson2
              (snd (solve (dec 1 (10 ^ 11)) poisson2))) as (Hf & _).
  - apply hierarchy_okb_ok. vm_compute. reflexivity.
  - vm_compute. lia.
  - vm_compute. reflexivity.
  - vm_compute. reflexivity.
  - reflexivity.
  - exact Hf.
Defined.

Lemma solve_without_cycles_witness :
  solve (dec 1 (10 ^ 11)) no_cycles2 = (Ok tt, no_cycles2).
Proof.
  apply (solve_without_cycles (dec 1 (10 ^ 11)) no_cycles2).
  - apply hierarchy_okb_ok. vm_compute. reflexivity.
  - vm_compute. reflexivity.
  - vm_compute. reflexivity.
  - vm_compute. discriminate.
Defined.

Lemma solve_single_level_raises_witness :
  fst (solve (dec 1 (10 ^ 11)) single1) = Raise (UnboundLocalError "fP").
Proof.
  rewrite (solve_single_level_raises (dec 1 (10 ^ 11)) single1).
  - reflexivity.
  - apply hierarchy_okb_ok. vm_compute. reflexivity.
  - vm_compute. reflexivity.
  - vm_compute. reflexivity.
  - vm_compute. reflexivity.
  - vm_compute. discriminate.
Defined.

Lemma computeResidual_idempotent_witness :
  (computeResidual 1;; computeResidual 1) poisson2 = computeResidual 1 poisson2.
Proof.
  apply (computeResidual_idempotent 1 poisson2 (level_of poisson2 1)).
  - vm_compute. reflexivity.
  - apply level_okb_ok. vm_compute. reflexivity.
Defined.


End MoreConcrete.

Section MoreConcreteFlow.
Import Float Py NP Patch Mesh Incompressible SpecFlow Examples MoreExamples.

#[local] Existing Instance multigrid_renamed.

Lemma evolve_unknown_proj_type_keeps_gradp_witness :
  exists d', cc_data (snd (evolve (dec 1 4) (uniform 0 3))) = Some d'
             /\ gradp_x d' = gradp_x (data_of (uniform 0 3)).
Proof.
  destruct (evolve_unknown_proj_type_keeps_gradp (dec 1 4) (uniform 0 3)
              (data_of (uniform 0 3))) as (d' & Hd' & Hx & _).
  - vm_compute. reflexivity.
  - vm_compute. discriminate.
  - vm_compute. discriminate.
  - exists d'. split; [exact Hd' | exact Hx].
Defined.

Lemma evolve_keeps_mesh_witness :
  exists d', cc_data (snd (evolve (dec 1 4) (uniform 0 1))) = Some d'
             /\ grid d' = grid (data_of (uniform 0 1)).
Proof.
  destruct (evolve_keeps_mesh (dec 1 4) (uniform 0 1) (data_of (uniform 0 1)))
    as (_ & d' & Hd' & Hg & _).
  - vm_compute. reflexivity.
  - exists d'. split; [exact Hd' | exact Hg].
Defined.

Lemma uninitialized_simulation_raises_witness :
  preevolve constructed
  = (Raise (AttributeError "'NoneType' object has no attribute"), constructed).
Proof.
  destruct (uninitialized_simulation_raises (dec 1 4) constructed) as (_ & _ & Hp).
  - reflexivity.
  - exact Hp.
Defined.

Lemma evolve_stops_at_missing_solver_witness :
  evolve (MN := multigrid_as_given) (dec 1 4) (uniform 0 1)
  = (Raise (AttributeError "'module' object has no attribute 'CellCenterMG2d'"),
     uniform 0 1).
Proof.
  apply (evolve_stops_at_missing_solver (dec 1 4) (uniform 0 1) (data_of (uniform 0 1))).
  - vm_compute. reflexivity.
  - vm_compute. reflexivity.
  - vm_compute. reflexivity.
Defined.

Lemma item_zeros n m i j : (i < n)%nat -> (j < m)%nat -> item (zeros n m) i j = zero.
Proof.
  intros Hi Hj. apply (item_lookup _ _ _ (replicate m zero)).
  - unfold zeros. by apply lookup_replicate_2.
  - by apply lookup_replicate_2.
Qed.

Lemma timestep_at_rest_witness :
  timestep (initialized 0 1) = (Ok PInf, initialized 0 1).
Proof.
  apply (timestep_at_rest (initialized 0 1) (data_of (initialized 0 1))
           (Q2Qc (1 # 2)) (Q2Qc (1 # 2)) (Q2Qc (1 # 2))).
  - vm_compute. reflexivity.
  - vm_compute. reflexivity.
  - vm_compute. reflexivity.
  - vm_compute. reflexivity.
  - vm_compute. reflexivity.
  - intros i j Hi Hj.
    change (x_velocity (data_of (initialized 0 1))) with (zeros 10 10).
    change (y_velocity (data_of (initialized 0 1))) with (zeros 10 10).
    change (Z.to_nat (qx (grid (data_of (initialized 0 1))))) with 10%nat in Hi.
    change (Z.to_nat (qy (grid (data_of (initialized 0 1))))) with 10%nat in Hj.
    rewrite item_zeros by done. split; vm_compute; reflexivity.
  - vm_compute. apply f_equal, Qc_is_canon. reflexivity.
  - vm_compute. reflexivity.
  - vm_compute. apply f_equal, Qc_is_canon. reflexivity.
  - vm_compute. reflexivity.
  - vm_compute. reflexivity.
  - vm_compute. reflexivity.
Defined.

Lemma preevolve_keeps_mesh_and_time_witness :
  exists d', cc_data (snd (preevolve (uniform 0 1))) = Some d'
             /\ t d' = t (data_of (uniform 0 1)).
Proof.
  destruct (preevolve_keeps_mesh_and_time (uniform 0 1) (data_of (uniform 0 1)))
    as (_ & d' & Hd' & _ & _ & _ & _ & Ht).
  - vm_compute. reflexivity.
  - exists d'. split; [exact Hd' | exact Ht].
Defined.

End MoreConcreteFlow.
